(** * Browse3D model: lazily rebuilt, transform-aware kd-trees and picking

    A shallow embedding of [Model] (Code/Source/Tools/Browse3D/Model.cpp)
    from the Thea toolkit: the two kd-trees owned by a model (one over the
    mesh triangles, one over the mesh vertices), their validity flags, the
    transform overlay, the nearest-point and ray queries and picking.

    Numbers of type [Real] are modelled as exact rationals: rounding,
    NaN and the [double]/[float] conversions of the source are outside the
    model.  The kd-tree template itself (Algorithms/KDTreeN.hpp) is not part
    of the sources at hand; module [KDTreeN] models it from the written
    design.

    The rest of Model.cpp (samples, segments, labels, features and the
    files that go with a model), [FileSystem::readWholeFile] and the
    arithmetic of [ColorRGB] follow in modules of their own, after the
    facts about the queries. *)

From Stdlib Require Import String ZArith QArith Qminmax Qabs Lqa List Bool Lia Permutation.
Import ListNotations.

Set Implicit Arguments.
Set Default Goal Selector "!".

(** [Real] of the source ([float] or [double], by build option). *)
Definition Real : Type := Q.

Definition Qlt_bool (a b : Q) : bool := negb (Qle_bool b a).

(** ** The kd-tree *)

Module KDTreeN.

(** *** Bounding volumes and hierarchy nodes *)

(** Modelled from the spec: the Bounding Volume component (the axis-aligned
    box type of the toolkit is not among the sources).  Only what the
    hierarchy needs is kept: a null volume, merging, and containment. *)
Class BoundingVolume (Box : Type) : Type := {
  null_box : Box;
  merge : Box -> Box -> Box;
  contains : Box -> Box -> Prop;
  contains_refl : forall b, contains b b;
  contains_trans : forall a b c, contains a b -> contains b c -> contains a c;
  merge_contains_l : forall a b, contains (merge a b) a;
  merge_contains_r : forall a b, contains (merge a b) b
}.

Section Hierarchy.
Context {Box : Type}.

(** Modelled from the spec: a Hierarchy Node is a leaf holding a small
    bucket of primitive indices, or an internal node with split axis, split
    position, two children and the bounding volume enclosing them. *)
Inductive Node : Type :=
| Leaf (bounds : Box) (bucket : list nat)
| Internal (bounds : Box) (axis : nat) (split : Real) (lo hi : Node).

Definition node_bounds (n : Node) : Box :=
  match n with
  | Leaf b _ => b
  | Internal b _ _ _ _ => b
  end.

(** Primitive indices below a node, children left to right. *)
Fixpoint indices (n : Node) : list nat :=
  match n with
  | Leaf _ bucket => bucket
  | Internal _ _ _ lo hi => indices lo ++ indices hi
  end.

Fixpoint depth (n : Node) : nat :=
  match n with
  | Leaf _ _ => 0
  | Internal _ _ _ lo hi => S (Nat.max (depth lo) (depth hi))
  end.
End Hierarchy.

Arguments Node Box : clear implicits.

(** *** The branch-and-bound traversal shared by all queries *)

Section Engine.
Context {Elem Box : Type}.

(** The primitives the hierarchy indexes. *)
Variable elems : list Elem.

(** What a query measures on a primitive: a distance, or a ray hit time;
    [None] when the primitive is no candidate at all (a ray that misses). *)
Variable key : Elem -> option Real.

(** The pruning test of the query: [beyond b limit] says that no primitive
    inside [b] can have a key within [limit] ([None]: no limit). *)
Variable beyond : Box -> option Real -> bool.

(** Which child is visited first. *)
Variable lo_first : Box -> Box -> bool.

(** Modelled from the spec: the running best of a traversal (the query
    engine is not among the sources): the index found so far, if any, and the
    best value; while nothing is found the value is the caller's bound,
    [None] for an unspecified one. *)
Record Best : Type := mkBest {
  best_index : option nat;
  best_value : option Real
}.

Definition start (bound : option Real) : Best := mkBest None bound.

(** Modelled from the spec: the tie-break of the query engine.  A candidate
    within the bound is accepted while nothing is found; after that only a
    strictly better one is, so that of two equal candidates the one met first
    wins. *)
Definition accepts (v : Real) (b : Best) : bool :=
  match best_value b with
  | None => true
  | Some l =>
      match best_index b with
      | None => Qle_bool v l
      | Some _ => Qlt_bool v l
      end
  end.

Definition offer (b : Best) (i : nat) : Best :=
  match nth_error elems i with
  | Some e =>
      match key e with
      | Some v => if accepts v b then mkBest (Some i) (Some v) else b
      | None => b
      end
  | None => b
  end.

(** Modelled from the spec: the test of every primitive of a bucket, in
    order; also an unaccelerated scan of any list of indices. *)
Definition scan (l : list nat) (b : Best) : Best := fold_left offer l b.

(** Modelled from the spec: depth-first traversal with branch-and-bound
    pruning.  A subtree whose bounding volume is beyond the running best is
    skipped; at a leaf every primitive of the bucket is tested. *)
Fixpoint visit (n : Node Box) (b : Best) : Best :=
  if beyond (node_bounds n) (best_value b) then b
  else
    match n with
    | Leaf _ bucket => scan bucket b
    | Internal _ _ _ lo hi =>
        if lo_first (node_bounds lo) (node_bounds hi)
        then visit hi (visit lo b)
        else visit lo (visit hi b)
    end.

(** The order in which an unpruned traversal meets the primitives. *)
Fixpoint order (n : Node Box) : list nat :=
  match n with
  | Leaf _ bucket => bucket
  | Internal _ _ _ lo hi =>
      if lo_first (node_bounds lo) (node_bounds hi)
      then order lo ++ order hi
      else order hi ++ order lo
  end.

(** Modelled from the spec: a query starts at the root with the caller's
    bound; on an empty tree nothing is found. *)
Definition query (root : option (Node Box)) (bound : option Real) : Best :=
  match root with
  | Some n => visit n (start bound)
  | None => start bound
  end.

(** A brute-force linear scan over all primitives, in index order. *)
Definition brute_force (bound : option Real) : Best :=
  scan (seq 0 (length elems)) (start bound).
End Engine.

(** *** Primitive adapter and hierarchy builder *)

(** Modelled from the spec: the Primitive Adapter, the capability surface of
    an indexed primitive that the builder uses (its bounding box and the
    coordinates of its centroid along the axes 0, 1, 2). *)
Class PrimitiveAdapter (Elem Box : Type) : Type := {
  elem_bounds : Elem -> Box;
  elem_centroid : Elem -> nat -> Real
}.

Section Builder.
Context {Elem Box : Type} {BV : BoundingVolume Box} {PA : PrimitiveAdapter Elem Box}.

(** The leaf-size threshold. *)
Variable leaf_threshold : nat.
Variable elems : list Elem.

Definition bounds_of (idxs : list nat) : Box :=
  fold_right
    (fun i b =>
       match nth_error elems i with
       | Some e => merge (elem_bounds e) b
       | None => b
       end)
    null_box idxs.

Definition coord (axis i : nat) : Real :=
  match nth_error elems i with
  | Some e => elem_centroid e axis
  | None => 0
  end.

(** Modelled from the spec: the extent, along [axis], of the bounding box
    of the primitive centroids, by which the builder chooses its axis. *)
Definition extent (axis : nat) (idxs : list nat) : Real :=
  match idxs with
  | [] => 0
  | i :: rest =>
      fold_left (fun m j => Qmax m (coord axis j)) rest (coord axis i)
      - fold_left (fun m j => Qmin m (coord axis j)) rest (coord axis i)
  end.

Definition widest_axis (idxs : list nat) : nat :=
  let e0 := extent 0 idxs in
  let e1 := extent 1 idxs in
  let e2 := extent 2 idxs in
  if Qle_bool e1 e0
  then (if Qle_bool e2 e0 then 0%nat else 2%nat)
  else (if Qle_bool e2 e1 then 1%nat else 2%nat).

Fixpoint insert_along (axis i : nat) (l : list nat) : list nat :=
  match l with
  | [] => [i]
  | j :: r =>
      if Qle_bool (coord axis i) (coord axis j) then i :: l
      else j :: insert_along axis i r
  end.

(** Modelled from the spec: the builder's ordering along the split axis, a
    stable sort by centroid coordinate; primitives with equal coordinates
    keep their index order, which is the fall-back split of the design. *)
Definition sort_along (axis : nat) (idxs : list nat) : list nat :=
  fold_right (insert_along axis) [] idxs.

(** Modelled from the spec: the Hierarchy Builder.  A set no larger than
    the threshold becomes a leaf; otherwise it is split at the median of
    the centroid coordinates along the widest axis, the two halves are
    built first and the parent's volume is the merge of theirs.  [fuel]
    bounds the depth; the length of the index list is always enough. *)
Fixpoint build_node (fuel : nat) (idxs : list nat) : Node Box :=
  match fuel with
  | O => Leaf (bounds_of idxs) idxs
  | S fuel' =>
      if (length idxs <=? leaf_threshold)%nat then Leaf (bounds_of idxs) idxs
      else
        let axis := widest_axis idxs in
        let sorted := sort_along axis idxs in
        let mid := (length sorted / 2)%nat in
        let lo := build_node fuel' (firstn mid sorted) in
        let hi := build_node fuel' (skipn mid sorted) in
        Internal (merge (node_bounds lo) (node_bounds hi))
                 axis (coord axis (nth mid sorted 0%nat)) lo hi
  end.

(** Modelled from the spec: the builder's entry; zero primitives give the
    empty tree. *)
Definition build : option (Node Box) :=
  match elems with
  | [] => None
  | _ :: _ => Some (build_node (length elems) (seq 0 (length elems)))
  end.

(** Every node's volume contains the volume of each primitive below it. *)
Fixpoint sound (n : Node Box) : Prop :=
  (forall i e, In i (indices n) -> nth_error elems i = Some e ->
               contains (node_bounds n) (elem_bounds e))
  /\ match n with
     | Leaf _ _ => True
     | Internal _ _ _ lo hi => sound lo /\ sound hi
     end.

(** A hierarchy over [elems]: sound volumes, every primitive in exactly
    one bucket; no hierarchy only when there is no primitive. *)
Definition hierarchy_of (r : option (Node Box)) : Prop :=
  match r with
  | Some n => sound n /\ Permutation (indices n) (seq 0 (length elems))
  | None => elems = []
  end.
End Builder.

(** *** Metrics and ray tests *)

Definition within (v : Real) (limit : option Real) : Prop :=
  match limit with
  | Some l => v <= l
  | None => True
  end.

(** A negative bound stands for an unspecified one, as in the call
    [closestPair(ray, -1, true)] of [Model::pick]. *)
Definition bound_of (r : Real) : option Real :=
  if Qlt_bool r 0 then None else Some r.

(** Modelled from the spec: the Metric capability, here for queries of type
    [Query] (a point or a ray).  [closest_points] gives the point of the query
    and the point of the primitive that realise the distance.  The lower
    bound on the distance to a volume never exceeds the distance to a
    primitive inside it. *)
Class Metric (Elem Box Query Vector3 : Type)
      {BV : BoundingVolume Box} {PA : PrimitiveAdapter Elem Box} : Type := {
  distance : Elem -> Query -> Real;
  closest_points : Elem -> Query -> Vector3 * Vector3;
  lower_bound : Box -> Query -> Real;
  distance_nonneg : forall e q, 0 <= distance e q;
  lower_bound_sound : forall b e q,
      contains b (elem_bounds e) -> lower_bound b q <= distance e q
}.

Arguments Metric Elem Box Query Vector3 {BV PA}.

(** Modelled from the spec: the ray-hit test of a primitive (a negative time
    is a miss) and the ray test of a bounding volume within [0, limit]. *)
Class RayIntersectionTester (Elem Box Ray3 : Type)
      {BV : BoundingVolume Box} {PA : PrimitiveAdapter Elem Box} : Type := {
  hit_time : Elem -> Ray3 -> Real;
  box_hit : Box -> Ray3 -> option Real -> bool;
  box_hit_sound : forall b e r limit,
      contains b (elem_bounds e) -> 0 <= hit_time e r ->
      within (hit_time e r) limit -> box_hit b r limit = true
}.

Arguments RayIntersectionTester Elem Box Ray3 {BV PA}.

(** Modelled from the spec: the Transform Overlay needs only apply and
    apply-inverse on points and rays. *)
Class TransformOps (Transform Vector3 Ray3 : Type) : Type := {
  apply_point : Transform -> Vector3 -> Vector3;
  inverse_point : Transform -> Vector3 -> Vector3;
  inverse_ray : Transform -> Ray3 -> Ray3
}.

(** *** The index instance and its queries *)

(** Modelled from the spec: ray/structure intersection result (validity
    flag, hit time, primitive index), with the accessors [Model] uses. *)
Record RayStructureIntersection3 : Type := mkRayStructureIntersection3 {
  isValid : bool;
  getTime : Real;
  getElementIndex : Z
}.

Definition no_intersection : RayStructureIntersection3 :=
  mkRayStructureIntersection3 false (-1) (-1).

Definition within_b (v : Real) (limit : option Real) : bool :=
  match limit with
  | Some l => Qle_bool v l
  | None => true
  end.

Section Tree.
Context {Elem Box Transform Vector3 Ray3 : Type}
        {BV : BoundingVolume Box} {PA : PrimitiveAdapter Elem Box}
        {TO : TransformOps Transform Vector3 Ray3}.

Variable leaf_threshold : nat.

(** Modelled from the spec: an Index instance owns its primitives and its
    hierarchy and holds an optional affine transform. *)
Record KDTree : Type := mkKDTree {
  kd_elems : list Elem;
  kd_root : option (Node Box);
  kd_trans : option Transform
}.

(** Modelled from the spec: an index is constructed empty, with no
    transform. *)
Definition empty : KDTree := mkKDTree [] None None.

(** Modelled from the spec: [clear] discards the primitives and the
    hierarchy ([deallocate_all_memory] only decides whether capacity is
    kept); the transform overlay is a separate part and stays. *)
Definition clear (deallocate_all_memory : bool) (k : KDTree) : KDTree :=
  mkKDTree [] None (kd_trans k).

(** Modelled from the spec: primitives are added; the hierarchy is built
    over them by the next [init()]. *)
Definition add (es : list Elem) (k : KDTree) : KDTree :=
  mkKDTree (kd_elems k ++ es) (kd_root k) (kd_trans k).

(** Modelled from the spec: [init()] builds the hierarchy over the
    primitives added so far. *)
Definition init (k : KDTree) : KDTree :=
  mkKDTree (kd_elems k) (build leaf_threshold (kd_elems k)) (kd_trans k).

(** Modelled from the spec: [init(begin, end)] bulk-loads a sequence of
    primitives and builds the hierarchy over it. *)
Definition init_range (es : list Elem) (k : KDTree) : KDTree :=
  mkKDTree es (build leaf_threshold es) (kd_trans k).

(** Modelled from the spec: setting or clearing the transform stores or
    removes it without touching the hierarchy. *)
Definition setTransform (t : Transform) (k : KDTree) : KDTree :=
  mkKDTree (kd_elems k) (kd_root k) (Some t).

Definition clearTransform (k : KDTree) : KDTree :=
  mkKDTree (kd_elems k) (kd_root k) None.

(** Modelled from the spec: queries run in object space; inputs go through
    the inverse of the transform, returned points come back through the
    transform. *)
Definition object_point (k : KDTree) (p : Vector3) : Vector3 :=
  match kd_trans k with
  | Some t => inverse_point t p
  | None => p
  end.

Definition world_point (k : KDTree) (p : Vector3) : Vector3 :=
  match kd_trans k with
  | Some t => apply_point t p
  | None => p
  end.

Definition object_ray (k : KDTree) (r : Ray3) : Ray3 :=
  match kd_trans k with
  | Some t => inverse_ray t r
  | None => r
  end.

(** Modelled from the spec: closest-pair result; an invalid pair is
    [None]. *)
Record NeighborPair : Type := mkNeighborPair {
  getTargetIndex : Z;
  getQueryPoint : Vector3;
  getTargetPoint : Vector3;
  getDistance : Real
}.

Section Nearest.
Context {Query : Type} {M : Metric Elem Box Query Vector3}.

Definition dist_key (q : Query) (e : Elem) : option Real :=
  Some (distance e q).

(** Modelled from the spec: a subtree is pruned when the lower bound on
    the distance to its volume exceeds the current best. *)
Definition dist_beyond (q : Query) (b : Box) (limit : option Real) : bool :=
  match limit with
  | Some l => Qlt_bool l (lower_bound b q)
  | None => false
  end.

(** Modelled from the spec: the closer child is visited first. *)
Definition closer_first (q : Query) (lo hi : Box) : bool :=
  Qle_bool (lower_bound lo q) (lower_bound hi q).

(** Modelled from the spec: the nearest-neighbour traversal, for a
    query already in object space. *)
Definition nearest (k : KDTree) (q : Query) (dist_bound : Real) : Best :=
  query (kd_elems k) (dist_key q) (dist_beyond q) (closer_first q)
        (kd_root k) (bound_of dist_bound).

(** Modelled from the spec: the pair reported for the best primitive, its
    points mapped back by the transform. *)
Definition pair_of (k : KDTree) (q : Query) (b : Best) : option NeighborPair :=
  match best_index b, best_value b with
  | Some i, Some d =>
      match nth_error (kd_elems k) i with
      | Some e =>
          Some (mkNeighborPair (Z.of_nat i)
                               (world_point k (fst (closest_points e q)))
                               (world_point k (snd (closest_points e q)))
                               d)
      | None => None
      end
  | _, _ => None
  end.
End Nearest.

Context {MP : Metric Elem Box Vector3 Vector3}
        {MR : Metric Elem Box Ray3 Vector3}
        {RT : RayIntersectionTester Elem Box Ray3}.

(** Modelled from the spec: [closestElement(query, maxDistanceBound,
    outDistance?, outPoint?)] returns the index or -1 and writes the
    outputs only when something is found.  [dist] is the current content of
    the distance output, [closest_point] that of the point output ([None]
    for a null pointer). *)
Definition closestElement (k : KDTree) (query : Vector3) (dist_bound : Real)
           (dist : Real) (closest_point : option Vector3)
  : Z * Real * option Vector3 :=
  let q := object_point k query in
  match pair_of k q (nearest k q dist_bound) with
  | Some p =>
      (getTargetIndex p, getDistance p,
       option_map (fun _ => getTargetPoint p) closest_point)
  | None => (-1, dist, closest_point)%Z
  end.

(** Modelled from the spec: a primitive is hit when its hit time is not
    negative; a subtree is pruned when the ray misses its volume within the
    running best time. *)
Definition ray_key (r : Ray3) (e : Elem) : option Real :=
  if Qle_bool 0 (hit_time e r) then Some (hit_time e r) else None.

Definition ray_beyond (r : Ray3) (b : Box) (limit : option Real) : bool :=
  negb (box_hit b r limit).

(** Modelled from the spec: a ray traversal takes the children in their
    order; the order alone does not give the nearest hit first. *)
Definition lo_then_hi (lo hi : Box) : bool := true.

(** Modelled from the spec: the nearest hit over the whole structure; the
    running best time prunes and decides. *)
Definition rayStructureIntersection (k : KDTree) (ray : Ray3) (max_time : Real)
  : RayStructureIntersection3 :=
  let r := object_ray k ray in
  let b := query (kd_elems k) (ray_key r) (ray_beyond r) lo_then_hi
                 (kd_root k) (bound_of max_time) in
  match best_index b, best_value b with
  | Some i, Some t => mkRayStructureIntersection3 true t (Z.of_nat i)
  | _, _ => no_intersection
  end.

(** Modelled from the spec: [rayIntersectionTime] is the time of the
    nearest hit, negative when there is none. *)
Definition rayIntersectionTime (k : KDTree) (ray : Ray3) (max_time : Real) : Real :=
  getTime (rayStructureIntersection k ray max_time).

Definition hits (es : list Elem) (r : Ray3) (limit : option Real) (i : nat) : bool :=
  match nth_error es i with
  | Some e => Qle_bool 0 (hit_time e r) && within_b (hit_time e r) limit
  | None => false
  end.

(** Modelled from the spec: [rayIntersects] stops at the first hit. *)
Fixpoint any_hit (es : list Elem) (r : Ray3) (limit : option Real)
         (n : Node Box) : bool :=
  if negb (box_hit (node_bounds n) r limit) then false
  else
    match n with
    | Leaf _ bucket => existsb (hits es r limit) bucket
    | Internal _ _ _ lo hi => any_hit es r limit lo || any_hit es r limit hi
    end.

Definition rayIntersects (k : KDTree) (ray : Ray3) (max_time : Real) : bool :=
  match kd_root k with
  | Some n => any_hit (kd_elems k) (object_ray k ray) (bound_of max_time) n
  | None => false
  end.

(** Modelled from the spec: [closestPair(ray, maxDistance, onlyIfNoHit)],
    the primitive nearest to the ray; with [onlyIfNoHit] the result is
    invalid when the ray hits a primitive exactly. *)
Definition closestPair (k : KDTree) (ray : Ray3) (max_distance : Real)
           (only_if_no_hit : bool) : option NeighborPair :=
  if only_if_no_hit && rayIntersects k ray (-1) then None
  else
    let r := object_ray k ray in
    pair_of k r (nearest k r max_distance).
End Tree.

Arguments KDTree : clear implicits.
Arguments NeighborPair : clear implicits.

End KDTreeN.

(** ** The model *)

Module Browse3D.
Import KDTreeN.

(** The five events of Model.cpp. *)
Inductive ModelEvent : Type :=
| EVT_MODEL_PATH_CHANGED
| EVT_MODEL_GEOMETRY_CHANGED
| EVT_MODEL_NEEDS_REDRAW
| EVT_MODEL_NEEDS_SYNC_SAMPLES
| EVT_MODEL_NEEDS_SYNC_SEGMENTS.

(** The two indices of a model: [kdtree] over the mesh triangles and
    [vertex_kdtree] over the mesh vertices. *)
Inductive Which : Type := FaceTree | VertexTree.

(** What the model reads from the mesh layer (Mesh.hpp, PointCloud.hpp and
    the mesh kd-tree are not among the sources): names, emptiness, the
    vertices that [CollectVerticesFunctor] gathers from a mesh group, the
    triangles that [kdtree->add(mesh_group)] indexes, and for a triangle its
    normal, its mesh and the index of its mesh face. *)
Class MeshOps (MeshGroup PointCloud Mesh MeshVertex Triangle Vector3 : Type) : Type := {
  group_getName : MeshGroup -> string;
  group_isEmpty : MeshGroup -> bool;
  group_clear : MeshGroup -> MeshGroup;
  group_bounds_toString : MeshGroup -> string;
  group_vertices : MeshGroup -> list MeshVertex;
  group_triangles : MeshGroup -> list Triangle;
  cloud_getName : PointCloud -> string;
  cloud_isEmpty : PointCloud -> bool;
  cloud_clear : PointCloud -> PointCloud;
  getNormal : Triangle -> Vector3;
  getMesh : Triangle -> Mesh;
  getMeshFaceIndex : Triangle -> Z
}.

(** Vector and ray operations used by [Model::pick]. *)
Class RayOps (Vector3 Ray3 : Type) : Type := {
  getOrigin : Ray3 -> Vector3;
  getDirection : Ray3 -> Vector3;
  getPoint : Ray3 -> Real -> Vector3;
  vsub : Vector3 -> Vector3 -> Vector3;
  dot : Vector3 -> Vector3 -> Real;
  normalized : Vector3 -> Vector3
}.

(** Modelled from the spec: Model.hpp is not among the sources; the default
    of [recompute_if_invalid] in [getKDTree] and [getVertexKDTree] is taken
    from the rule that a query-entry method first checks validity and
    rebuilds. *)
Definition recompute_by_default : bool := true.

Section Model.
Context {Vector3 Ray3 AffineTransform3 Box : Type}
        {MeshGroup PointCloud Mesh MeshVertex Triangle : Type}
        {MO : MeshOps MeshGroup PointCloud Mesh MeshVertex Triangle Vector3}
        {RO : RayOps Vector3 Ray3}
        {TO : TransformOps AffineTransform3 Vector3 Ray3}
        {BV : BoundingVolume Box}
        {PAT : PrimitiveAdapter Triangle Box}
        {PAV : PrimitiveAdapter MeshVertex Box}
        {MTP : Metric Triangle Box Vector3 Vector3}
        {MTR : Metric Triangle Box Ray3 Vector3}
        {RTT : RayIntersectionTester Triangle Box Ray3}
        {MVP : Metric MeshVertex Box Vector3 Vector3}.

(** Constants of declarations that are not among the sources: the leaf
    size of the kd-trees and the default [max_time] of the ray queries. *)
Variable max_elems_per_leaf : nat.
Variable default_max_time : Real.

Definition FaceKDTree : Type := KDTree Triangle Box AffineTransform3.
Definition VertexKDTree : Type := KDTree MeshVertex Box AffineTransform3.

(** The fields of [Sample] that Model.cpp touches. *)
Record Sample : Type := mkSample {
  type : string;
  label : string;
  position : Vector3;
  mesh : option Mesh;
  face_index : Z
}.

(** The part of [Model] behind the queries; samples, segments, features,
    labels, colour, bounds and path play no part in them and are left out.
    [trans] is the transform of the [Transformable] base ([None]: no
    transform set). *)
Record Model : Type := mkModel {
  mesh_group : option MeshGroup;
  point_cloud : option PointCloud;
  trans : option AffineTransform3;
  valid_pick : bool;
  picked_sample : Sample;
  valid_kdtree : bool;
  kdtree : FaceKDTree;
  valid_vertex_kdtree : bool;
  vertex_kdtree : VertexKDTree
}.

(** Calls on a kd-tree, as they appear in Model.cpp. *)
Inductive KdCall : Type :=
| CallClear (deallocate_all_memory : bool)
| CallAdd
| CallInit
| CallInitRange
| CallSetTransform (t : AffineTransform3)
| CallClearTransform
| CallClosestElement (query : Vector3) (dist_bound : Real)
| CallClosestPair (ray : Ray3) (max_distance : Real) (flag : bool)
| CallRayIntersects (ray : Ray3) (max_time : Real)
| CallRayIntersectionTime (ray : Ray3) (max_time : Real)
| CallRayStructureIntersection (ray : Ray3) (max_time : Real).

Inductive Event : Type :=
| Call (w : Which) (c : KdCall)
| Console (msg : string)
| PostEvent (e : ModelEvent).

(** *** Methods as state transformers with a trace and faults *)

Inductive Fault : Type := NullPointer | OutOfRange.

Inductive Result (A : Type) : Type :=
| Done (a : A) (m : Model) (log : list Event)
| Failed (f : Fault).
Arguments Failed {A} f.

Definition M (A : Type) : Type := Model -> Result A.

Definition ret {A} (a : A) : M A := fun m => Done a m [].

Definition bind {A B} (c : M A) (k : A -> M B) : M B :=
  fun m =>
    match c m with
    | Done a m1 l1 =>
        match k a m1 with
        | Done b m2 l2 => Done b m2 (l1 ++ l2)
        | Failed f => Failed f
        end
    | Failed f => Failed f
    end.

Definition gets {A} (f : Model -> A) : M A := fun m => Done (f m) m [].
Definition modify (f : Model -> Model) : M unit := fun m => Done tt (f m) [].
Definition emit (e : Event) : M unit := fun m => Done tt m [e].
Definition fail {A} (f : Fault) : M A := fun _ => Failed f.

Notation "x <- c ;; k" := (bind c (fun x => k))
  (at level 61, c at next level, right associativity).
Notation "c ;;; k" := (bind c (fun _ => k))
  (at level 61, right associativity).

Definition set_mesh_group (g : option MeshGroup) (m : Model) : Model :=
  mkModel g (point_cloud m) (trans m) (valid_pick m) (picked_sample m)
          (valid_kdtree m) (kdtree m) (valid_vertex_kdtree m) (vertex_kdtree m).

Definition set_point_cloud (c : option PointCloud) (m : Model) : Model :=
  mkModel (mesh_group m) c (trans m) (valid_pick m) (picked_sample m)
          (valid_kdtree m) (kdtree m) (valid_vertex_kdtree m) (vertex_kdtree m).

Definition set_trans (t : option AffineTransform3) (m : Model) : Model :=
  mkModel (mesh_group m) (point_cloud m) t (valid_pick m) (picked_sample m)
          (valid_kdtree m) (kdtree m) (valid_vertex_kdtree m) (vertex_kdtree m).

Definition set_valid_pick (b : bool) (m : Model) : Model :=
  mkModel (mesh_group m) (point_cloud m) (trans m) b (picked_sample m)
          (valid_kdtree m) (kdtree m) (valid_vertex_kdtree m) (vertex_kdtree m).

Definition set_picked_sample (s : Sample) (m : Model) : Model :=
  mkModel (mesh_group m) (point_cloud m) (trans m) (valid_pick m) s
          (valid_kdtree m) (kdtree m) (valid_vertex_kdtree m) (vertex_kdtree m).

Definition set_valid_kdtree (b : bool) (m : Model) : Model :=
  mkModel (mesh_group m) (point_cloud m) (trans m) (valid_pick m) (picked_sample m)
          b (kdtree m) (valid_vertex_kdtree m) (vertex_kdtree m).

Definition set_kdtree (k : FaceKDTree) (m : Model) : Model :=
  mkModel (mesh_group m) (point_cloud m) (trans m) (valid_pick m) (picked_sample m)
          (valid_kdtree m) k (valid_vertex_kdtree m) (vertex_kdtree m).

Definition set_valid_vertex_kdtree (b : bool) (m : Model) : Model :=
  mkModel (mesh_group m) (point_cloud m) (trans m) (valid_pick m) (picked_sample m)
          (valid_kdtree m) (kdtree m) b (vertex_kdtree m).

Definition set_vertex_kdtree (k : VertexKDTree) (m : Model) : Model :=
  mkModel (mesh_group m) (point_cloud m) (trans m) (valid_pick m) (picked_sample m)
          (valid_kdtree m) (kdtree m) (valid_vertex_kdtree m) k.

(** A call that changes the face tree, and one for the vertex tree. *)
Definition on_kdtree (c : KdCall) (f : FaceKDTree -> FaceKDTree) : M unit :=
  modify (fun m => set_kdtree (f (kdtree m)) m) ;;; emit (Call FaceTree c).

Definition on_vertex_kdtree (c : KdCall) (f : VertexKDTree -> VertexKDTree) : M unit :=
  modify (fun m => set_vertex_kdtree (f (vertex_kdtree m)) m) ;;; emit (Call VertexTree c).

(** *** Model.cpp *)

Definition getName (m : Model) : string :=
  match mesh_group m with
  | Some g => group_getName g
  | None =>
      match point_cloud m with
      | Some c => cloud_getName c
      | None => "Untitled"%string
      end
  end.

Definition isEmpty (m : Model) : bool :=
  match mesh_group m with
  | Some g => group_isEmpty g
  | None => true
  end
  &&
  match point_cloud m with
  | Some c => cloud_isEmpty c
  | None => true
  end.

Definition hasTransform (m : Model) : bool :=
  match trans m with
  | Some _ => true
  | None => false
  end.

Definition setTransform (trans_ : AffineTransform3) : M unit :=
  modify (set_trans (Some trans_)) ;;;
  valid <- gets valid_kdtree ;;
  (if valid
   then on_kdtree (CallSetTransform trans_) (KDTreeN.setTransform trans_)
   else ret tt) ;;;
  vvalid <- gets valid_vertex_kdtree ;;
  (if vvalid
   then on_vertex_kdtree (CallSetTransform trans_) (KDTreeN.setTransform trans_)
   else ret tt).

Definition clearTransform : M unit :=
  modify (set_trans None) ;;;
  valid <- gets valid_kdtree ;;
  (if valid
   then on_kdtree CallClearTransform (@KDTreeN.clearTransform _ _ _)
   else ret tt) ;;;
  vvalid <- gets valid_vertex_kdtree ;;
  (if vvalid
   then on_vertex_kdtree CallClearTransform (@KDTreeN.clearTransform _ _ _)
   else ret tt).

Definition invalidateKDTree : M unit := modify (set_valid_kdtree false).

Definition invalidateVertexKDTree : M unit := modify (set_valid_vertex_kdtree false).

Definition invalidateAll : M unit := invalidateVertexKDTree ;;; invalidateKDTree.

Definition updateKDTree : M unit :=
  valid <- gets valid_kdtree ;;
  if valid then ret tt
  else
    on_kdtree (CallClear false) (KDTreeN.clear false) ;;;
    g <- gets mesh_group ;;
    match g with
    | Some mg =>
        on_kdtree CallAdd (KDTreeN.add (group_triangles mg)) ;;;
        on_kdtree CallInit (KDTreeN.init max_elems_per_leaf) ;;;
        t <- gets trans ;;
        match t with
        | Some tr => on_kdtree (CallSetTransform tr) (KDTreeN.setTransform tr)
        | None => ret tt
        end ;;;
        name <- gets getName ;;
        emit (Console (name ++ ": Updated kd-tree"))
    | None => ret tt
    end ;;;
    modify (set_valid_kdtree true).

(** [mesh_group->forEachMeshUntil(...)] dereferences [mesh_group] without
    a test. *)
Definition updateVertexKDTree : M unit :=
  valid <- gets valid_vertex_kdtree ;;
  if valid then ret tt
  else
    on_vertex_kdtree (CallClear false) (KDTreeN.clear false) ;;;
    g <- gets mesh_group ;;
    match g with
    | Some mg =>
        on_vertex_kdtree CallInitRange
                         (KDTreeN.init_range max_elems_per_leaf (group_vertices mg))
    | None => fail NullPointer
    end ;;;
    t <- gets trans ;;
    match t with
    | Some tr => on_vertex_kdtree (CallSetTransform tr) (KDTreeN.setTransform tr)
    | None => ret tt
    end ;;;
    modify (set_valid_vertex_kdtree true).

Definition getKDTree (recompute_if_invalid : bool) : M FaceKDTree :=
  (if recompute_if_invalid then updateKDTree else ret tt) ;;;
  gets kdtree.

Definition getVertexKDTree (recompute_if_invalid : bool) : M VertexKDTree :=
  (if recompute_if_invalid then updateVertexKDTree else ret tt) ;;;
  gets vertex_kdtree.

Definition rayIntersects (ray : Ray3) (max_time : Real) : M bool :=
  k <- getKDTree recompute_by_default ;;
  emit (Call FaceTree (CallRayIntersects ray max_time)) ;;;
  ret (KDTreeN.rayIntersects k ray max_time).

Definition rayIntersectionTime (ray : Ray3) (max_time : Real) : M Real :=
  k <- getKDTree recompute_by_default ;;
  emit (Call FaceTree (CallRayIntersectionTime ray max_time)) ;;;
  ret (KDTreeN.rayIntersectionTime k ray max_time).

Definition rayIntersection (ray : Ray3) (max_time : Real)
  : M RayStructureIntersection3 :=
  k <- getKDTree recompute_by_default ;;
  emit (Call FaceTree (CallRayStructureIntersection ray max_time)) ;;;
  ret (KDTreeN.rayStructureIntersection k ray max_time).

(** The three output pointers of [closestPoint]: [None] is a null
    pointer, [Some v] a location that holds [v]. *)
Record Outputs : Type := mkOutputs {
  min_dist : option Real;
  closest_pt : option Vector3;
  closest_pt_normal : option Vector3
}.

Definition closestPoint (query : Vector3) (distance_bound : Real)
           (out : Outputs) (accelerate_with_vertices : bool)
  : M (Z * Outputs) :=
  empty <- gets isEmpty ;;
  if negb empty then
    distance_bound <-
      (if accelerate_with_vertices then
         (* Tighten the bound as much as we can with a fast initial query
            on the set of vertices *)
         updateVertexKDTree ;;;
         vk <- gets vertex_kdtree ;;
         emit (Call VertexTree (CallClosestElement query distance_bound)) ;;;
         let '(vertex_index, fast_distance_bound, _) :=
           KDTreeN.closestElement vk query distance_bound 0 None in
         ret (if (0 <=? vertex_index)%Z then fast_distance_bound
              else distance_bound)
       else ret distance_bound) ;;
    updateKDTree ;;;
    k <- gets kdtree ;;
    emit (Call FaceTree (CallClosestElement query distance_bound)) ;;;
    let '(index, d, pt) :=
      KDTreeN.closestElement k query distance_bound 0 (closest_pt out) in
    if (0 <=? index)%Z then
      match closest_pt_normal out with
      | Some _ =>
          match nth_error (kd_elems k) (Z.to_nat index) with
          | Some tri =>
              ret (index,
                   mkOutputs (option_map (fun _ => d) (min_dist out)) pt
                             (Some (getNormal tri)))
          | None => fail OutOfRange
          end
      | None =>
          ret (index, mkOutputs (option_map (fun _ => d) (min_dist out)) pt None)
      end
    else ret ((-1)%Z, mkOutputs (min_dist out) pt (closest_pt_normal out))
  else ret ((-1)%Z, out).

Definition set_position (p : Vector3) (s : Sample) : Sample :=
  mkSample (type s) (label s) p (mesh s) (face_index s).

Definition set_mesh_face (me : Mesh) (fi : Z) (s : Sample) : Sample :=
  mkSample (type s) (label s) (position s) (Some me) fi.

Definition pick (ray : Ray3) : M Real :=
  isec <- rayIntersection ray default_max_time ;;
  it <-
    (if isValid isec then
       modify (fun m => set_picked_sample
                          (set_position (getPoint ray (getTime isec)) (picked_sample m)) m) ;;;
       ret (getElementIndex isec, getTime isec)
     else
       k <- gets kdtree ;;
       emit (Call FaceTree (CallClosestPair ray (-1) true)) ;;;
       match KDTreeN.closestPair k ray (-1) true with
       | Some cp =>
           let t := dot (vsub (getQueryPoint cp) (getOrigin ray))
                        (normalized (getDirection ray)) in
           if Qle_bool 0 t then
             modify (fun m => set_picked_sample
                                (set_position (getTargetPoint cp) (picked_sample m)) m) ;;;
             ret (getTargetIndex cp, t)
           else ret ((-1)%Z, t)
       | None => ret ((-1)%Z, -1)
       end) ;;
  (if (0 <=? fst it)%Z then
     k <- gets kdtree ;;
     match nth_error (kd_elems k) (Z.to_nat (fst it)) with
     | Some tri =>
         modify (fun m => set_picked_sample
                            (set_mesh_face (getMesh tri) (getMeshFaceIndex tri)
                                           (picked_sample m)) m) ;;;
         modify (set_valid_pick true) ;;;
         emit (PostEvent EVT_MODEL_NEEDS_REDRAW)
     | None => fail OutOfRange
     end
   else ret tt) ;;;
  ret (snd it).

Definition invalidatePick : M unit :=
  modify (set_valid_pick false) ;;;
  emit (PostEvent EVT_MODEL_NEEDS_REDRAW).

(** *** Loading and the life of a model *)

Definition clearMesh : M unit :=
  modify (fun m => set_mesh_group (option_map group_clear (mesh_group m)) m).

Definition clearPoints : M unit :=
  modify (fun m => set_point_cloud (option_map cloud_clear (point_cloud m)) m).

Definition clear : M unit := clearMesh ;;; clearPoints ;;; invalidateAll.

(** What the file system and the codecs answer to [load]: nothing usable
    (an empty path, no such file, or the path already loaded); a .pts file,
    with the point cloud that [PointCloud::load] leaves and its result; or
    another file, with the mesh group read from it, [None] when reading
    throws. *)
Inductive Loaded : Type :=
| Unavailable
| Points (c : PointCloud) (ok : bool)
| Meshes (g : option MeshGroup).

Definition load (path_ : string) (f : Loaded) : M bool :=
  match f with
  | Unavailable => ret false
  | Points c ok =>
      clear ;;;
      modify (set_point_cloud (Some c)) ;;;
      if ok then
        emit (PostEvent EVT_MODEL_PATH_CHANGED) ;;;
        emit (PostEvent EVT_MODEL_GEOMETRY_CHANGED) ;;;
        ret true
      else ret false
  | Meshes None => ret false
  | Meshes (Some new_mesh_group) =>
      invalidateAll ;;;
      modify (set_mesh_group (Some new_mesh_group)) ;;;
      clearPoints ;;;
      emit (Console ("Loaded model '" ++ path_ ++ "' with bounding box "
                       ++ group_bounds_toString new_mesh_group)) ;;;
      emit (PostEvent EVT_MODEL_PATH_CHANGED) ;;;
      emit (PostEvent EVT_MODEL_GEOMETRY_CHANGED) ;;;
      ret true
  end.

(** The constructor: both flags start true, both trees empty; then the
    initial file is loaded.  [sample] is a default-constructed [Sample]. *)
Definition construct (sample : Sample) (initial_mesh : string) (f : Loaded)
  : Result unit :=
  (load initial_mesh f ;;;
   modify (fun m => set_picked_sample
                      (mkSample "Picked" (label (picked_sample m))
                                (position (picked_sample m))
                                (mesh (picked_sample m))
                                (face_index (picked_sample m))) m))
    (mkModel None None None false sample true KDTreeN.empty true KDTreeN.empty).

(** The methods above, as a caller can invoke them. *)
Inductive Method : Type :=
| DoLoad (path_ : string) (f : Loaded)
| DoClear
| DoSetTransform (t : AffineTransform3)
| DoClearTransform
| DoInvalidateAll
| DoInvalidateKDTree
| DoInvalidateVertexKDTree
| DoUpdateKDTree
| DoUpdateVertexKDTree
| DoRayIntersects (ray : Ray3) (max_time : Real)
| DoRayIntersectionTime (ray : Ray3) (max_time : Real)
| DoRayIntersection (ray : Ray3) (max_time : Real)
| DoClosestPoint (query : Vector3) (distance_bound : Real) (out : Outputs)
                 (accelerate_with_vertices : bool)
| DoPick (ray : Ray3)
| DoInvalidatePick.

Definition exec (c : Method) : M unit :=
  match c with
  | DoLoad p f => load p f ;;; ret tt
  | DoClear => clear
  | DoSetTransform t => setTransform t
  | DoClearTransform => clearTransform
  | DoInvalidateAll => invalidateAll
  | DoInvalidateKDTree => invalidateKDTree
  | DoInvalidateVertexKDTree => invalidateVertexKDTree
  | DoUpdateKDTree => updateKDTree
  | DoUpdateVertexKDTree => updateVertexKDTree
  | DoRayIntersects r t => rayIntersects r t ;;; ret tt
  | DoRayIntersectionTime r t => rayIntersectionTime r t ;;; ret tt
  | DoRayIntersection r t => rayIntersection r t ;;; ret tt
  | DoClosestPoint q b o a => closestPoint q b o a ;;; ret tt
  | DoPick r => pick r ;;; ret tt
  | DoInvalidatePick => invalidatePick
  end.

(** States a model can be in: built by the constructor, then changed by
    method calls that return. *)
Inductive reachable : Model -> Prop :=
| reach_construct sample initial_mesh f m log :
    construct sample initial_mesh f = Done tt m log -> reachable m
| reach_exec c m m' log :
    reachable m -> exec c m = Done tt m' log -> reachable m'.

(** *** Notions used to state the properties *)

Definition is_rebuild_of (w : Which) (e : Event) : bool :=
  match e, w with
  | Call FaceTree (CallClear _), FaceTree => true
  | Call VertexTree (CallClear _), VertexTree => true
  | _, _ => false
  end.

(** Number of rebuilds of a tree in a trace; each rebuild opens with the
    call [clear(false)]. *)
Definition rebuilds (w : Which) (log : list Event) : nat :=
  length (filter (is_rebuild_of w) log).

(** The closest-pair queries of a trace, with their arguments. *)
Fixpoint closest_pair_calls (log : list Event) : list (Ray3 * Real * bool) :=
  match log with
  | [] => []
  | Call _ (CallClosestPair r d b) :: rest => (r, d, b) :: closest_pair_calls rest
  | _ :: rest => closest_pair_calls rest
  end.

(** A flagged-valid tree stores the model's current transform. *)
Definition transform_synced (m : Model) : Prop :=
  (valid_kdtree m = true -> kd_trans (kdtree m) = trans m)
  /\ (valid_vertex_kdtree m = true -> kd_trans (vertex_kdtree m) = trans m).

(** A flagged-valid tree is a hierarchy over its primitives. *)
Definition trees_built (m : Model) : Prop :=
  (valid_kdtree m = true ->
   hierarchy_of (kd_elems (kdtree m)) (kd_root (kdtree m)))
  /\ (valid_vertex_kdtree m = true ->
      hierarchy_of (kd_elems (vertex_kdtree m)) (kd_root (vertex_kdtree m))).

(** A result without its trace. *)
Definition outcome {A} (r : Result A) : (A * Model) + Fault :=
  match r with
  | Done a m _ => inl (a, m)
  | Failed f => inr f
  end.

(** [n] invalidations of the face tree in a row. *)
Fixpoint invalidations (n : nat) : M unit :=
  match n with
  | O => ret tt
  | S n' => invalidateKDTree ;;; invalidations n'
  end.

(** Everything but the stored transforms is the same in [m] and [m']:
    geometry, pick state, both flags, and the primitives and hierarchy of
    both trees. *)
Definition only_transform_changed (m m' : Model) : Prop :=
  mesh_group m' = mesh_group m
  /\ point_cloud m' = point_cloud m
  /\ valid_pick m' = valid_pick m
  /\ picked_sample m' = picked_sample m
  /\ valid_kdtree m' = valid_kdtree m
  /\ valid_vertex_kdtree m' = valid_vertex_kdtree m
  /\ kd_elems (kdtree m') = kd_elems (kdtree m)
  /\ kd_root (kdtree m') = kd_root (kdtree m)
  /\ kd_elems (vertex_kdtree m') = kd_elems (vertex_kdtree m)
  /\ kd_root (vertex_kdtree m') = kd_root (vertex_kdtree m).

(** A query that checks the flag of the face tree first: it returns, the
    flag is true afterwards, the tree was rebuilt once if the flag was false
    and not at all if it was true, in which case the tree is untouched. *)
Definition lazily_rebuilds {A} (q : M A) (m : Model) : Prop :=
  exists a m' log,
    q m = Done a m' log
    /\ valid_kdtree m' = true
    /\ rebuilds FaceTree log = (if valid_kdtree m then 0 else 1)%nat
    /\ (valid_kdtree m = true -> kdtree m' = kdtree m).

(** The same for a ray query, which in addition answers from the tree as it
    is after the check, the query call being the last event. *)
Definition lazily_answers {A} (q : M A) (call : KdCall)
           (answer : FaceKDTree -> A) (m : Model) : Prop :=
  exists m' pre,
    q m = Done (answer (kdtree m')) m' (pre ++ [Call FaceTree call])
    /\ valid_kdtree m' = true
    /\ rebuilds FaceTree pre = (if valid_kdtree m then 0 else 1)%nat
    /\ (valid_kdtree m = true -> kdtree m' = kdtree m).

(** The query point as the trees see it, in object space. *)
Definition object_query (m : Model) (query : Vector3) : Vector3 :=
  match trans m with
  | Some t => inverse_point t query
  | None => query
  end.

(** Every anchor has a primitive at least as near to the query: each mesh
    vertex is matched by a triangle of the mesh at no greater distance. *)
Definition anchored (g : MeshGroup) (q : Vector3) : Prop :=
  forall v, In v (group_vertices g) ->
            exists t, In t (group_triangles g) /\ distance t q <= distance v q.

(** No tree keeps a transform that the model has dropped. *)
Definition no_stale_transform (m : Model) : Prop :=
  trans m = None ->
  kd_trans (kdtree m) = None /\ kd_trans (vertex_kdtree m) = None.

(** A flagged-valid face tree indexes the triangles of the mesh group, a
    flagged-valid vertex tree its vertices. *)
Definition trees_current (m : Model) : Prop :=
  (valid_kdtree m = true ->
   kd_elems (kdtree m) = match mesh_group m with
                         | Some g => group_triangles g
                         | None => []
                         end)
  /\ (valid_vertex_kdtree m = true ->
      kd_elems (vertex_kdtree m) = match mesh_group m with
                                   | Some g => group_vertices g
                                   | None => []
                                   end).

End Model.

Arguments Failed {Vector3 Ray3 AffineTransform3 Box MeshGroup PointCloud Mesh
                  MeshVertex Triangle A} f.

End Browse3D.

(** ** Facts about the order on [Real] *)

Lemma Qlt_bool_iff (a b : Q) : Qlt_bool a b = true <-> a < b.
Proof.
  unfold Qlt_bool. rewrite negb_true_iff.
  split.
  - intros H. apply Qnot_le_lt. intros Hle.
    apply Qle_bool_iff in Hle. congruence.
  - intros H. destruct (Qle_bool b a) eqn:E; [|reflexivity].
    apply Qle_bool_iff in E. exfalso. exact (Qlt_not_le _ _ H E).
Qed.

Lemma Qle_bool_false (a b : Q) : Qle_bool a b = false <-> b < a.
Proof.
  rewrite <- Qlt_bool_iff. unfold Qlt_bool.
  destruct (Qle_bool a b); simpl; intuition congruence.
Qed.

Lemma Qlt_bool_false (a b : Q) : Qlt_bool a b = false <-> b <= a.
Proof.
  unfold Qlt_bool. rewrite negb_false_iff. apply Qle_bool_iff.
Qed.

Lemma Qle_bool_reflect (a b : Q) : reflect (a <= b) (Qle_bool a b).
Proof.
  destruct (Qle_bool a b) eqn:E; constructor.
  - now apply Qle_bool_iff.
  - apply Qle_bool_false in E. now apply Qlt_not_le.
Qed.

Lemma Qlt_bool_reflect (a b : Q) : reflect (a < b) (Qlt_bool a b).
Proof.
  destruct (Qlt_bool a b) eqn:E; constructor.
  - now apply Qlt_bool_iff.
  - apply Qlt_bool_false in E. now apply Qle_not_lt.
Qed.

Lemma within_b_iff (v : Real) (limit : option Real) :
  KDTreeN.within_b v limit = true <-> KDTreeN.within v limit.
Proof.
  destruct limit as [l|]; simpl; [apply Qle_bool_iff | tauto].
Qed.

(** Case analysis on the comparisons of a goal, for [lra]. *)
Ltac qcases :=
  repeat match goal with
    | |- context [Qlt_bool ?a ?b] => destruct (Qlt_bool_reflect a b)
    | |- context [Qle_bool ?a ?b] => destruct (Qle_bool_reflect a b)
    | H : context [Qlt_bool ?a ?b] |- _ => destruct (Qlt_bool_reflect a b)
    | H : context [Qle_bool ?a ?b] |- _ => destruct (Qle_bool_reflect a b)
    end.

(** ** A concrete geometry: everything on the x-axis

    Points are their x-coordinate, a triangle is degenerate with all corners
    on the axis (the segment between two of them), a ray starts at a point
    and runs right or left, a transform is a translation.  Distances and hit
    times on the axis are rational, so the Euclidean metric is exact here. *)

Module Line.
Import KDTreeN Browse3D.

Definition Vector3 : Type := Q.

Record Ray3 : Type := mkRay { origin : Q; rightward : bool }.

Definition AffineTransform3 : Type := Q.

Definition Box : Type := option (Q * Q).

Definition MeshVertex : Type := Q.

Record Triangle : Type := mkTriangle { corner_a : Q; corner_b : Q; face : Z }.

Record MeshGroup : Type := mkMeshGroup {
  name : string;
  vertices : list MeshVertex;
  triangles : list Triangle
}.

Definition PointCloud : Type := list Q.

Definition Mesh : Type := unit.

Definition merge_box (a b : Box) : Box :=
  match a, b with
  | None, _ => b
  | _, None => a
  | Some (l1, h1), Some (l2, h2) => Some (Qmin l1 l2, Qmax h1 h2)
  end.

Definition contains_box (a b : Box) : Prop :=
  match b with
  | None => True
  | Some (l2, h2) =>
      match a with
      | None => False
      | Some (l1, h1) => l1 <= l2 /\ h2 <= h1
      end
  end.

Definition low (t : Triangle) : Q := Qmin (corner_a t) (corner_b t).
Definition high (t : Triangle) : Q := Qmax (corner_a t) (corner_b t).

(** Distance from [q] to the interval from [l] to [h]. *)
Definition interval_distance (l h q : Q) : Q :=
  if Qlt_bool q l then l - q
  else if Qlt_bool h q then q - h
  else 0.

Definition clamp (l h q : Q) : Q :=
  if Qlt_bool q l then l else if Qlt_bool h q then h else q.

(** Distance from a ray to the interval from [l] to [h]. *)
Definition ray_interval_distance (l h : Q) (r : Ray3) : Q :=
  if rightward r
  then (if Qlt_bool h (origin r) then origin r - h else 0)
  else (if Qlt_bool (origin r) l then l - origin r else 0).

Definition ray_interval_points (l h : Q) (r : Ray3) : Q * Q :=
  if rightward r
  then (if Qlt_bool h (origin r) then (origin r, h)
        else (Qmax (origin r) l, Qmax (origin r) l))
  else (if Qlt_bool (origin r) l then (origin r, l)
        else (Qmin (origin r) h, Qmin (origin r) h)).

(** Time at which a ray of unit speed enters the interval; -1 for a miss. *)
Definition interval_hit_time (l h : Q) (r : Ray3) : Q :=
  if rightward r
  then (if Qlt_bool h (origin r) then -1
        else if Qlt_bool (origin r) l then l - origin r else 0)
  else (if Qlt_bool (origin r) l then -1
        else if Qlt_bool h (origin r) then origin r - h else 0).

Definition box_lower (b : Box) (q : Q) : Q :=
  match b with
  | Some (l, h) => interval_distance l h q
  | None => 0
  end.

Definition box_ray_lower (b : Box) (r : Ray3) : Q :=
  match b with
  | Some (l, h) => ray_interval_distance l h r
  | None => 0
  end.

Definition box_ray_hit (b : Box) (r : Ray3) (limit : option Real) : bool :=
  match b with
  | Some (l, h) =>
      Qle_bool 0 (interval_hit_time l h r)
      && within_b (interval_hit_time l h r) limit
  | None => false
  end.

Lemma low_le_high (t : Triangle) : low t <= high t.
Proof.
  unfold low, high.
  apply Qle_trans with (corner_a t); [apply Q.le_min_l | apply Q.le_max_l].
Qed.

Lemma contains_box_refl (b : Box) : contains_box b b.
Proof. destruct b as [[l h]|]; simpl; [split; apply Qle_refl | exact I]. Qed.

Lemma contains_box_trans (a b c : Box) :
  contains_box a b -> contains_box b c -> contains_box a c.
Proof.
  destruct a as [[l1 h1]|], b as [[l2 h2]|], c as [[l3 h3]|]; simpl;
    try tauto.
  intros [? ?] [? ?]. split; lra.
Qed.

Lemma merge_box_l (a b : Box) : contains_box (merge_box a b) a.
Proof.
  destruct a as [[l1 h1]|], b as [[l2 h2]|]; simpl; try tauto;
    try (split; apply Qle_refl).
  split; [apply Q.le_min_l | apply Q.le_max_l].
Qed.

Lemma merge_box_r (a b : Box) : contains_box (merge_box a b) b.
Proof.
  destruct a as [[l1 h1]|], b as [[l2 h2]|]; simpl; try tauto;
    try (split; apply Qle_refl).
  split; [apply Q.le_min_r | apply Q.le_max_r].
Qed.

#[export] Instance line_volume : BoundingVolume Box :=
  {| null_box := None;
     merge := merge_box;
     contains := contains_box;
     contains_refl := contains_box_refl;
     contains_trans := contains_box_trans;
     merge_contains_l := merge_box_l;
     merge_contains_r := merge_box_r |}.

#[export] Instance triangle_adapter : PrimitiveAdapter Triangle Box :=
  {| elem_bounds := fun t => Some (low t, high t);
     elem_centroid := fun t axis =>
       match axis with
       | O => (corner_a t + corner_b t) * (1 # 2)
       | S _ => 0
       end |}.

#[export] Instance vertex_adapter : PrimitiveAdapter MeshVertex Box :=
  {| elem_bounds := fun v => Some (v, v);
     elem_centroid := fun v axis =>
       match axis with
       | O => v
       | S _ => 0
       end |}.

Lemma interval_distance_nonneg (l h q : Q) : 0 <= interval_distance l h q.
Proof. unfold interval_distance. qcases; lra. Qed.

Lemma interval_distance_mono (l1 h1 l2 h2 q : Q) :
  l1 <= l2 -> h2 <= h1 -> l2 <= h2 ->
  interval_distance l1 h1 q <= interval_distance l2 h2 q.
Proof. intros. unfold interval_distance. qcases; lra. Qed.

Lemma ray_interval_distance_nonneg (l h : Q) (r : Ray3) :
  0 <= ray_interval_distance l h r.
Proof. unfold ray_interval_distance. destruct (rightward r); qcases; lra. Qed.

Lemma ray_interval_distance_mono (l1 h1 l2 h2 : Q) (r : Ray3) :
  l1 <= l2 -> h2 <= h1 ->
  ray_interval_distance l1 h1 r <= ray_interval_distance l2 h2 r.
Proof.
  intros. unfold ray_interval_distance. destruct (rightward r); qcases; lra.
Qed.

Lemma interval_hit_mono (l1 h1 l2 h2 : Q) (r : Ray3) :
  l1 <= l2 -> h2 <= h1 -> 0 <= interval_hit_time l2 h2 r ->
  0 <= interval_hit_time l1 h1 r
  /\ interval_hit_time l1 h1 r <= interval_hit_time l2 h2 r.
Proof.
  unfold interval_hit_time. intros H1 H2.
  destruct (rightward r); qcases; intros; split; lra.
Qed.

Lemma box_lower_sound_triangle (b : Box) (e : Triangle) (q : Vector3) :
  contains_box b (Some (low e, high e)) ->
  box_lower b q <= interval_distance (low e) (high e) q.
Proof.
  destruct b as [[l h]|]; simpl; [|tauto].
  intros [? ?]. apply interval_distance_mono; auto using low_le_high.
Qed.

Lemma box_lower_sound_vertex (b : Box) (v : MeshVertex) (q : Vector3) :
  contains_box b (Some (v, v)) -> box_lower b q <= interval_distance v v q.
Proof.
  destruct b as [[l h]|]; simpl; [|tauto].
  intros [? ?]. apply interval_distance_mono; auto using Qle_refl.
Qed.

Lemma box_ray_lower_sound (b : Box) (e : Triangle) (r : Ray3) :
  contains_box b (Some (low e, high e)) ->
  box_ray_lower b r <= ray_interval_distance (low e) (high e) r.
Proof.
  destruct b as [[l h]|]; simpl; [|tauto].
  intros [? ?]. now apply ray_interval_distance_mono.
Qed.

Lemma box_ray_hit_sound (b : Box) (e : Triangle) (r : Ray3) (limit : option Real) :
  contains_box b (Some (low e, high e)) ->
  0 <= interval_hit_time (low e) (high e) r ->
  within (interval_hit_time (low e) (high e) r) limit ->
  box_ray_hit b r limit = true.
Proof.
  destruct b as [[l h]|]; simpl; [|tauto].
  intros [Hl Hh] Hhit Hin.
  destruct (interval_hit_mono r Hl Hh Hhit) as [H0 Hle].
  apply andb_true_iff; split.
  - now apply Qle_bool_iff.
  - apply within_b_iff. destruct limit as [t|]; simpl in *; [lra | exact I].
Qed.

#[export] Instance triangle_point_metric : Metric Triangle Box Vector3 Vector3 :=
  {| distance := fun e q => interval_distance (low e) (high e) q;
     closest_points := fun e q => (q, clamp (low e) (high e) q);
     lower_bound := box_lower;
     distance_nonneg := fun e q => interval_distance_nonneg (low e) (high e) q;
     lower_bound_sound := box_lower_sound_triangle |}.

#[export] Instance vertex_point_metric : Metric MeshVertex Box Vector3 Vector3 :=
  {| distance := fun v q => interval_distance v v q;
     closest_points := fun v q => (q, v);
     lower_bound := box_lower;
     distance_nonneg := fun v q => interval_distance_nonneg v v q;
     lower_bound_sound := box_lower_sound_vertex |}.

#[export] Instance triangle_ray_metric : Metric Triangle Box Ray3 Vector3 :=
  {| distance := fun e r => ray_interval_distance (low e) (high e) r;
     closest_points := fun e r => ray_interval_points (low e) (high e) r;
     lower_bound := box_ray_lower;
     distance_nonneg := fun e r => ray_interval_distance_nonneg (low e) (high e) r;
     lower_bound_sound := box_ray_lower_sound |}.

#[export] Instance triangle_ray_tester : RayIntersectionTester Triangle Box Ray3 :=
  {| hit_time := fun e r => interval_hit_time (low e) (high e) r;
     box_hit := box_ray_hit;
     box_hit_sound := box_ray_hit_sound |}.

#[export] Instance line_transform : TransformOps AffineTransform3 Vector3 Ray3 :=
  {| apply_point := fun t p => p + t;
     inverse_point := fun t p => p - t;
     inverse_ray := fun t r => mkRay (origin r - t) (rightward r) |}.

Definition direction (r : Ray3) : Vector3 := if rightward r then 1 else -1.

#[export] Instance line_rays : RayOps Vector3 Ray3 :=
  {| getOrigin := origin;
     getDirection := direction;
     getPoint := fun r t => origin r + t * direction r;
     vsub := Qminus;
     dot := Qmult;
     normalized := fun v => v |}.

#[export] Instance line_meshes
  : MeshOps MeshGroup PointCloud Mesh MeshVertex Triangle Vector3 :=
  {| group_getName := name;
     group_isEmpty := fun g =>
       match vertices g, triangles g with
       | [], [] => true
       | _, _ => false
       end;
     group_clear := fun g => mkMeshGroup (name g) [] [];
     group_bounds_toString := fun _ => "[box]"%string;
     group_vertices := vertices;
     group_triangles := triangles;
     cloud_getName := fun _ => "Points"%string;
     cloud_isEmpty := fun c => match c with [] => true | _ => false end;
     cloud_clear := fun _ => [];
     getNormal := fun _ => 0;
     getMesh := fun _ => tt;
     getMeshFaceIndex := face |}.

(** The model over this geometry, with buckets of at most two primitives
    and unbounded rays by default. *)
Definition LineModel : Type :=
  @Model Vector3 AffineTransform3 Box MeshGroup PointCloud Mesh MeshVertex Triangle.

Definition a_sample : @Sample Vector3 Mesh :=
  mkSample "" "" 0 None (-1).

End Line.

(** ** The traversal is a linear scan in traversal order *)

Module KDTreeFacts.
Import KDTreeN.

(** [exceeds v limit]: the value lies strictly beyond the limit. *)
Definition exceeds (v : Real) (limit : option Real) : Prop :=
  match limit with
  | Some l => l < v
  | None => False
  end.

Section EngineFacts.
Context {Elem Box : Type} {BV : BoundingVolume Box} {PA : PrimitiveAdapter Elem Box}.
Variable elems : list Elem.
Variable key : Elem -> option Real.
Variable beyond : Box -> option Real -> bool.
Variable lo_first : Box -> Box -> bool.

(** The contract between the pruning test and the keys. *)
Hypothesis beyond_sound : forall b limit e v,
  beyond b limit = true -> contains b (elem_bounds e) -> key e = Some v ->
  exceeds v limit.

Lemma accepts_exceeds (v : Real) (b : Best) :
  exceeds v (best_value b) -> accepts v b = false.
Proof.
  unfold exceeds, accepts. destruct (best_value b) as [l|]; [|tauto].
  intros H. destruct (best_index b).
  - apply Qlt_bool_false. lra.
  - apply Qle_bool_false. exact H.
Qed.

Lemma scan_nil (b : Best) : scan elems key [] b = b.
Proof. reflexivity. Qed.

Lemma scan_cons (i : nat) (l : list nat) (b : Best) :
  scan elems key (i :: l) b = scan elems key l (offer elems key b i).
Proof. reflexivity. Qed.

Lemma scan_app (l1 l2 : list nat) (b : Best) :
  scan elems key (l1 ++ l2) b = scan elems key l2 (scan elems key l1 b).
Proof. unfold scan. apply fold_left_app. Qed.

Lemma scan_all_exceed (l : list nat) (b : Best) :
  (forall i e v, In i l -> nth_error elems i = Some e -> key e = Some v ->
                 exceeds v (best_value b)) ->
  scan elems key l b = b.
Proof.
  induction l as [|i l IH]; intros H; [reflexivity|].
  rewrite scan_cons.
  assert (Hoffer : offer elems key b i = b).
  { unfold offer. destruct (nth_error elems i) as [e|] eqn:He; [|reflexivity].
    destruct (key e) as [v|] eqn:Hk; [|reflexivity].
    rewrite accepts_exceeds; [reflexivity|].
    apply (H i e v); simpl; auto. }
  rewrite Hoffer. apply IH. intros j e v Hj. apply H. simpl; auto.
Qed.

Lemma order_indices (n : Node Box) :
  Permutation (order lo_first n) (indices n).
Proof.
  induction n as [b bucket | b axis split lo IHlo hi IHhi]; simpl.
  - apply Permutation_refl.
  - destruct (lo_first (node_bounds lo) (node_bounds hi)).
    + now apply Permutation_app.
    + eapply Permutation_trans; [apply Permutation_app_comm|].
      now apply Permutation_app.
Qed.

Lemma sound_root (n : Node Box) (i : nat) (e : Elem) :
  sound elems n -> In i (indices n) -> nth_error elems i = Some e ->
  contains (node_bounds n) (elem_bounds e).
Proof. destruct n; simpl; intros [H _]; apply H. Qed.

(** Pruning never changes the answer: the traversal returns what a scan of
    all primitives, in traversal order, returns. *)
Lemma visit_scan (n : Node Box) :
  sound elems n ->
  forall b, visit elems key beyond lo_first n b
            = scan elems key (order lo_first n) b.
Proof.
  induction n as [bx bucket | bx axis split lo IHlo hi IHhi]; intros Hs b.
  - simpl. destruct (beyond bx (best_value b)) eqn:Hb; [|reflexivity].
    symmetry. apply scan_all_exceed. intros i e v Hi He Hk.
    eapply beyond_sound; [exact Hb | | exact Hk].
    apply (@sound_root (Leaf bx bucket) i e Hs Hi He).
  - cbn [visit node_bounds].
    destruct (beyond bx (best_value b)) eqn:Hb.
    + symmetry. apply scan_all_exceed. intros i e v Hi He Hk.
      eapply beyond_sound; [exact Hb | | exact Hk].
      apply (@sound_root (Internal bx axis split lo hi) i e Hs); [|exact He].
      apply (Permutation_in _ (order_indices _)). exact Hi.
    + destruct Hs as [_ [Hlo Hhi]]. cbn [order].
      destruct (lo_first (node_bounds lo) (node_bounds hi));
        rewrite scan_app.
      * rewrite (IHlo Hlo). apply (IHhi Hhi).
      * rewrite (IHhi Hhi). apply (IHlo Hlo).
Qed.
End EngineFacts.

(** *** What a scan returns *)

Section ScanFacts.
Context {Elem : Type}.
Variable elems : list Elem.
Variable key : Elem -> option Real.

(** The running best after the primitives [seen]: the first of the least
    keys within the bound, or nothing when no key is within the bound. *)
Definition best_inv (bound : option Real) (seen : list nat) (b : Best) : Prop :=
  match best_index b with
  | Some i =>
      exists e v,
        In i seen /\ nth_error elems i = Some e /\ key e = Some v
        /\ best_value b = Some v /\ within v bound
        /\ forall j e' v', In j seen -> nth_error elems j = Some e' ->
                           key e' = Some v' -> v <= v'
  | None =>
      best_value b = bound
      /\ forall j e' v', In j seen -> nth_error elems j = Some e' ->
                         key e' = Some v' -> ~ within v' bound
  end.

Lemma best_inv_start (bound : option Real) : best_inv bound [] (start bound).
Proof. split; [reflexivity | intros j e' v' []]. Qed.

Lemma offer_inv (bound : option Real) (seen : list nat) (b : Best) (i : nat) :
  best_inv bound seen b -> best_inv bound (seen ++ [i]) (offer elems key b i).
Proof.
  unfold best_inv, offer. intros Hb.
  destruct (nth_error elems i) as [e|] eqn:He.
  2:{ destruct (best_index b) as [i0|].
      - destruct Hb as (e0 & v0 & Hin & Hn & Hk & Hv & Hw & Hmin).
        exists e0, v0. repeat split; auto using in_or_app.
        intros j e' v' Hj. apply in_app_or in Hj as [Hj | [<- | []]]; eauto.
        congruence.
      - destruct Hb as [Hv Hnone]. split; [exact Hv|].
        intros j e' v' Hj. apply in_app_or in Hj as [Hj | [<- | []]]; eauto.
        congruence. }
  destruct (key e) as [v|] eqn:Hk.
  2:{ destruct (best_index b) as [i0|].
      - destruct Hb as (e0 & v0 & Hin & Hn & Hk0 & Hv & Hw & Hmin).
        exists e0, v0. repeat split; auto using in_or_app.
        intros j e' v' Hj. apply in_app_or in Hj as [Hj | [<- | []]]; eauto.
        congruence.
      - destruct Hb as [Hv Hnone]. split; [exact Hv|].
        intros j e' v' Hj. apply in_app_or in Hj as [Hj | [<- | []]]; eauto.
        congruence. }
  unfold accepts.
  destruct (best_index b) as [i0|] eqn:Hi0.
  - destruct Hb as (e0 & v0 & Hin & Hn & Hk0 & Hv & Hw & Hmin).
    rewrite Hv. destruct (Qlt_bool_reflect v v0) as [Hlt | Hge]; simpl.
    + exists e, v.
      split; [apply in_or_app; right; apply in_eq|].
      split; [exact He|]. split; [exact Hk|]. split; [reflexivity|].
      split.
      * destruct bound as [l|]; simpl in *; [lra | exact I].
      * intros j e' v' Hj Hn' Hk'.
        apply in_app_or in Hj as [Hj | [<- | []]].
        -- specialize (Hmin j e' v' Hj Hn' Hk'). lra.
        -- assert (e' = e) by congruence. subst e'.
           assert (v' = v) by congruence. subst v'. apply Qle_refl.
    + rewrite Hi0. exists e0, v0. repeat split; auto using in_or_app.
      intros j e' v' Hj Hn' Hk'.
      apply in_app_or in Hj as [Hj | [<- | []]]; eauto.
      assert (e' = e) by congruence. subst e'.
      assert (v' = v) by congruence. subst v'. lra.
  - destruct Hb as [Hv Hnone]. rewrite Hv.
    assert (Hacc : forall l, bound = Some l -> Qle_bool v l = true ->
                             within v bound).
    { intros l -> H. simpl. now apply Qle_bool_iff. }
    assert (Hnew : within v bound ->
                   exists e1 v1,
                     In i (seen ++ [i]) /\ nth_error elems i = Some e1
                     /\ key e1 = Some v1 /\ Some v = Some v1 /\ within v1 bound
                     /\ forall j e' v', In j (seen ++ [i]) ->
                                        nth_error elems j = Some e' ->
                                        key e' = Some v' -> v1 <= v').
    { intros Hw. exists e, v.
      split; [apply in_or_app; right; apply in_eq|].
      split; [exact He|]. split; [exact Hk|]. split; [reflexivity|].
      split; [exact Hw|].
      - intros j e' v' Hj Hn' Hk'.
        apply in_app_or in Hj as [Hj | [<- | []]].
        + destruct bound as [l|]; simpl in *.
          * specialize (Hnone j e' v' Hj Hn' Hk'). lra.
          * exfalso. exact (Hnone j e' v' Hj Hn' Hk' I).
        + assert (e' = e) by congruence. subst e'.
          assert (v' = v) by congruence. subst v'. apply Qle_refl. }
    destruct bound as [l|] eqn:Hbound.
    + destruct (Qle_bool_reflect v l) as [Hle | Hgt]; simpl.
      * apply Hnew. exact Hle.
      * rewrite Hi0. split; [exact Hv|].
        intros j e' v' Hj Hn' Hk'.
        apply in_app_or in Hj as [Hj | [<- | []]]; eauto.
        assert (e' = e) by congruence. subst e'.
        assert (v' = v) by congruence. subst v'. exact Hgt.
    + simpl. apply Hnew. exact I.
Qed.

Lemma scan_inv (bound : option Real) (l seen : list nat) (b : Best) :
  best_inv bound seen b -> best_inv bound (seen ++ l) (scan elems key l b).
Proof.
  revert seen b. induction l as [|i l IH]; intros seen b Hb.
  - now rewrite app_nil_r.
  - change (scan elems key (i :: l) b)
      with (scan elems key l (offer elems key b i)).
    replace (seen ++ i :: l) with ((seen ++ [i]) ++ l)
      by (rewrite <- app_assoc; reflexivity).
    apply IH. now apply offer_inv.
Qed.

Lemma scan_spec (bound : option Real) (l : list nat) :
  best_inv bound l (scan elems key l (start bound)).
Proof. apply (@scan_inv bound l [] (start bound)), best_inv_start. Qed.

(** How a scan under a bound [B] and the same scan under a tighter bound
    [B'] can differ while they run. *)
Definition tighter (B : option Real) (B' : Real) (b1 b2 : Best) : Prop :=
  (b1 = b2 /\ best_index b1 <> None)
  \/ (b1 = start B /\ b2 = start (Some B'))
  \/ (exists i v, b1 = mkBest (Some i) (Some v) /\ B' < v
                  /\ b2 = start (Some B')).

Lemma offer_found (b : Best) (i : nat) :
  best_index b <> None -> best_index (offer elems key b i) <> None.
Proof.
  unfold offer. intros H.
  destruct (nth_error elems i) as [e|]; [|exact H].
  destruct (key e) as [v|]; [|exact H].
  destruct (accepts v b); [simpl; congruence | exact H].
Qed.

Lemma offer_tighter (B : option Real) (B' : Real) (b1 b2 : Best) (i : nat) :
  within B' B -> tighter B B' b1 b2 ->
  tighter B B' (offer elems key b1 i) (offer elems key b2 i).
Proof.
  intros HB [[-> Hf] | [[-> ->] | (i0 & v0 & -> & Hlt & ->)]].
  - left. split; [reflexivity | now apply offer_found].
  - unfold offer. destruct (nth_error elems i) as [e|]; [|right; left; auto].
    destruct (key e) as [v|]; [|right; left; auto].
    unfold accepts, start; simpl.
    destruct (Qle_bool_reflect v B') as [Hle | Hgt].
    + assert (Hacc : match B with Some l => Qle_bool v l | None => true end = true).
      { destruct B as [l|]; [|reflexivity]. simpl in HB.
        apply Qle_bool_iff. lra. }
      rewrite Hacc. left. split; [reflexivity | simpl; congruence].
    + destruct (match B with Some l => Qle_bool v l | None => true end).
      * right; right. exists i, v. repeat split. lra.
      * right; left. auto.
  - unfold offer. destruct (nth_error elems i) as [e|];
      [|right; right; exists i0, v0; auto].
    destruct (key e) as [v|]; [|right; right; exists i0, v0; auto].
    unfold accepts, start; simpl.
    destruct (Qle_bool_reflect v B') as [Hle | Hgt].
    + destruct (Qlt_bool_reflect v v0) as [_ | Hn]; [|exfalso; lra].
      left. split; [reflexivity | simpl; congruence].
    + destruct (Qlt_bool v v0).
      * right; right. exists i, v. repeat split. lra.
      * right; right. exists i0, v0. auto.
Qed.

Lemma scan_tighter (B : option Real) (B' : Real) (l : list nat) (b1 b2 : Best) :
  within B' B -> tighter B B' b1 b2 ->
  tighter B B' (scan elems key l b1) (scan elems key l b2).
Proof.
  intros HB. revert b1 b2. induction l as [|i l IH]; intros b1 b2 H.
  - exact H.
  - apply IH. now apply offer_tighter.
Qed.

(** Tightening the bound to a value that the best candidate still meets
    changes nothing. *)
Lemma scan_tighten (B : option Real) (B' : Real) (l : list nat) :
  within B' B ->
  (forall i v, scan elems key l (start B) = mkBest (Some i) (Some v) -> v <= B') ->
  (best_index (scan elems key l (start B)) <> None ->
   scan elems key l (start (Some B')) = scan elems key l (start B))
  /\ (best_index (scan elems key l (start B)) = None ->
      best_index (scan elems key l (start (Some B'))) = None).
Proof.
  intros HB Hmeet.
  assert (H0 : tighter B B' (start B) (start (Some B'))) by (right; left; auto).
  destruct (@scan_tighter B B' l _ _ HB H0) as [[Heq Hf] | [[E1 E2] | (i & v & E1 & Hlt & E2)]].
  - split; [intros _; now symmetry | intros Hn; contradiction].
  - rewrite E1, E2. split; [simpl; congruence | reflexivity].
  - specialize (Hmeet i v E1). exfalso. lra.
Qed.
End ScanFacts.

(** *** The builder yields a hierarchy *)

Section BuilderFacts.
Context {Elem Box : Type} {BV : BoundingVolume Box} {PA : PrimitiveAdapter Elem Box}.
Variable leaf_threshold : nat.
Variable elems : list Elem.

Lemma insert_along_perm (axis i : nat) (l : list nat) :
  Permutation (insert_along elems axis i l) (i :: l).
Proof.
  induction l as [|j r IH]; simpl; [apply Permutation_refl|].
  destruct (Qle_bool (coord elems axis i) (coord elems axis j)).
  - apply Permutation_refl.
  - eapply Permutation_trans; [apply perm_skip, IH | apply perm_swap].
Qed.

Lemma sort_along_perm (axis : nat) (l : list nat) :
  Permutation (sort_along elems axis l) l.
Proof.
  induction l as [|i r IH]; simpl; [apply Permutation_refl|].
  eapply Permutation_trans; [apply insert_along_perm | now apply perm_skip].
Qed.

Lemma bounds_of_contains (idxs : list nat) (i : nat) (e : Elem) :
  In i idxs -> nth_error elems i = Some e ->
  contains (bounds_of elems idxs) (elem_bounds e).
Proof.
  induction idxs as [|j r IH]; intros Hin He; [destruct Hin|].
  simpl. destruct Hin as [-> | Hin].
  - rewrite He. apply merge_contains_l.
  - specialize (IH Hin He).
    destruct (nth_error elems j) as [ej|]; [|exact IH].
    eapply contains_trans; [apply merge_contains_r | exact IH].
Qed.

Lemma build_node_indices (fuel : nat) :
  forall idxs,
    Permutation (indices (build_node leaf_threshold elems fuel idxs)) idxs.
Proof.
  induction fuel as [|fuel IH]; intros idxs; simpl; [apply Permutation_refl|].
  destruct (length idxs <=? leaf_threshold)%nat; simpl;
    [apply Permutation_refl|].
  eapply Permutation_trans; [apply Permutation_app; apply IH|].
  rewrite firstn_skipn. apply sort_along_perm.
Qed.

Lemma build_node_sound (fuel : nat) :
  forall idxs, sound elems (build_node leaf_threshold elems fuel idxs).
Proof.
  induction fuel as [|fuel IH]; intros idxs; simpl.
  - split; [apply bounds_of_contains | exact I].
  - destruct (length idxs <=? leaf_threshold)%nat; simpl.
    + split; [apply bounds_of_contains | exact I].
    + split; [|split; apply IH].
      intros i e Hin He. apply in_app_or in Hin as [Hin | Hin].
      * eapply contains_trans; [apply merge_contains_l|].
        eapply sound_root; [apply IH | exact Hin | exact He].
      * eapply contains_trans; [apply merge_contains_r|].
        eapply sound_root; [apply IH | exact Hin | exact He].
Qed.

Lemma build_hierarchy : hierarchy_of elems (build leaf_threshold elems).
Proof.
  unfold build, hierarchy_of. destruct elems as [|e es] eqn:E; [reflexivity|].
  rewrite <- E. split; [apply build_node_sound | apply build_node_indices].
Qed.

(** No bucket is larger than the threshold. *)
Fixpoint bucket_bounded (n : Node Box) : Prop :=
  match n with
  | Leaf _ bucket => (length bucket <= leaf_threshold)%nat
  | Internal _ _ _ lo hi => bucket_bounded lo /\ bucket_bounded hi
  end.

(** The fuel never runs out: with a threshold of at least one, the number
    of primitives is fuel enough for every bucket to be within it. *)
Lemma build_node_buckets (fuel : nat) :
  (1 <= leaf_threshold)%nat ->
  forall idxs, (length idxs <= fuel)%nat ->
               bucket_bounded (build_node leaf_threshold elems fuel idxs).
Proof.
  intros Ht. induction fuel as [|fuel IH]; intros idxs Hlen;
    cbn [build_node bucket_bounded].
  - lia.
  - destruct (Nat.leb_spec (length idxs) leaf_threshold) as [Hle | Hgt];
      cbn [bucket_bounded]; [exact Hle|].
    assert (Hs : length (sort_along elems (widest_axis elems idxs) idxs)
                 = length idxs)
      by (apply Permutation_length, sort_along_perm).
    set (sorted := sort_along elems (widest_axis elems idxs) idxs) in *.
    assert (Hhalf : (1 <= length sorted / 2 < length sorted)%nat).
    { rewrite Hs. split.
      - apply Nat.div_le_lower_bound; lia.
      - apply Nat.div_lt; lia. }
    split; apply IH.
    + rewrite length_firstn. lia.
    + rewrite length_skipn. lia.
Qed.
End BuilderFacts.

(** *** The index found is the index of a primitive *)

Section RangeFacts.
Context {Elem Box : Type}.
Variable elems : list Elem.
Variable key : Elem -> option Real.
Variable beyond : Box -> option Real -> bool.
Variable lo_first : Box -> Box -> bool.

Definition in_range (b : Best) : Prop :=
  forall i, best_index b = Some i ->
            exists e v, nth_error elems i = Some e /\ key e = Some v
                        /\ best_value b = Some v.

Lemma offer_in_range (b : Best) (i : nat) :
  in_range b -> in_range (offer elems key b i).
Proof.
  unfold offer. intros Hb.
  destruct (nth_error elems i) as [e|] eqn:He; [|exact Hb].
  destruct (key e) as [v|] eqn:Hk; [|exact Hb].
  destruct (accepts v b); [|exact Hb].
  intros j Hj. simpl in Hj. injection Hj as <-. exists e, v. auto.
Qed.

Lemma scan_in_range (l : list nat) (b : Best) :
  in_range b -> in_range (scan elems key l b).
Proof.
  revert b. induction l as [|i l IH]; intros b Hb; [exact Hb|].
  apply IH, offer_in_range, Hb.
Qed.

Lemma visit_in_range (n : Node Box) :
  forall b, in_range b -> in_range (visit elems key beyond lo_first n b).
Proof.
  induction n as [bx bucket | bx axis split lo IHlo hi IHhi]; intros b Hb;
    cbn [visit node_bounds]; destruct (beyond bx (best_value b)); auto.
  - now apply scan_in_range.
  - destruct (lo_first (node_bounds lo) (node_bounds hi)); auto.
Qed.

Lemma query_in_range (root : option (Node Box)) (bound : option Real) :
  in_range (query elems key beyond lo_first root bound).
Proof.
  assert (H0 : in_range (start bound)) by (intros i Hi; discriminate).
  destruct root as [n|]; simpl; [now apply visit_in_range | exact H0].
Qed.
End RangeFacts.

(** *** Queries on a built tree *)

Section QueryFacts.
Context {Elem Box : Type} {BV : BoundingVolume Box} {PA : PrimitiveAdapter Elem Box}.
Variable elems : list Elem.
Variable key : Elem -> option Real.
Variable beyond : Box -> option Real -> bool.
Variable lo_first : Box -> Box -> bool.

Hypothesis beyond_sound : forall b limit e v,
  beyond b limit = true -> contains b (elem_bounds e) -> key e = Some v ->
  exceeds v limit.

(** The primitives in the order the traversal of [root] meets them. *)
Definition traversal (root : option (Node Box)) : list nat :=
  match root with
  | Some n => order lo_first n
  | None => []
  end.

Lemma traversal_all (root : option (Node Box)) :
  hierarchy_of elems root ->
  forall j, In j (traversal root) <-> (j < length elems)%nat.
Proof.
  destruct root as [n|]; simpl.
  - intros [_ Hperm] j. split; intros Hj.
    + apply (Permutation_in _ (order_indices lo_first n)) in Hj.
      apply (Permutation_in _ Hperm) in Hj. apply in_seq in Hj. lia.
    + apply (Permutation_in _ (Permutation_sym (order_indices lo_first n))).
      apply (Permutation_in _ (Permutation_sym Hperm)).
      apply in_seq. lia.
  - intros -> j. simpl. split; [tauto | lia].
Qed.

Lemma query_scan (root : option (Node Box)) (bound : option Real) :
  hierarchy_of elems root ->
  query elems key beyond lo_first root bound
  = scan elems key (traversal root) (start bound).
Proof.
  destruct root as [n|]; simpl; [|reflexivity].
  intros [Hs _]. now apply visit_scan.
Qed.

Lemma best_inv_ext (bound : option Real) (l l' : list nat) (b : Best) :
  (forall j, In j l -> In j l') -> (forall j, In j l' -> In j l) ->
  best_inv elems key bound l b -> best_inv elems key bound l' b.
Proof.
  unfold best_inv. intros H1 H2. destruct (best_index b) as [i|].
  - intros (e & v & Hin & Hn & Hk & Hv & Hw & Hmin).
    exists e, v. do 5 (split; [auto|]).
    intros j e' v' Hj. apply (Hmin j). auto.
  - intros [Hv Hnone]. split; [exact Hv|].
    intros j e' v' Hj. apply (Hnone j). auto.
Qed.

(** The answer of a query on a hierarchy: the least key within the bound,
    over all primitives. *)
Lemma query_best (root : option (Node Box)) (bound : option Real) :
  hierarchy_of elems root ->
  best_inv elems key bound (seq 0 (length elems))
           (query elems key beyond lo_first root bound).
Proof.
  intros Hh. rewrite (query_scan root bound Hh).
  pose proof (traversal_all root Hh) as Hall.
  apply (@best_inv_ext bound (traversal root)); [| |apply scan_spec].
  - intros j Hj. apply in_seq. apply Hall in Hj. lia.
  - intros j Hj. apply in_seq in Hj. apply Hall. lia.
Qed.

(** A traversal and the brute-force scan find a primitive or not together;
    when they do, the keys found are equal, and so are the indices unless
    another primitive has the same key. *)
Lemma query_brute_force (root : option (Node Box)) (bound : option Real) :
  hierarchy_of elems root ->
  let b := query elems key beyond lo_first root bound in
  let bf := brute_force elems key bound in
  (best_index b = None <-> best_index bf = None)
  /\ forall i, best_index b = Some i ->
       exists v j v',
         best_value b = Some v /\ best_index bf = Some j
         /\ best_value bf = Some v' /\ v == v'
         /\ ((forall j' e v'', j' <> i -> nth_error elems j' = Some e ->
                               key e = Some v'' -> ~ v'' == v) -> j = i).
Proof.
  intros Hh b bf.
  pose proof (query_best root bound Hh) as Hb. fold b in Hb.
  pose proof (scan_spec elems key bound (seq 0 (length elems))) as Hbf.
  fold (brute_force elems key bound) in Hbf. fold bf in Hbf.
  unfold best_inv in Hb, Hbf.
  destruct (best_index b) as [i|] eqn:Hi, (best_index bf) as [j|] eqn:Hj.
  - destruct Hb as (e & v & Hin & Hn & Hk & Hv & Hw & Hmin).
    destruct Hbf as (e' & v' & Hin' & Hn' & Hk' & Hv' & Hw' & Hmin').
    split; [split; discriminate|].
    intros i0 E. injection E as <-.
    exists v, j, v'. repeat (split; auto).
    + apply Qle_antisym; eauto.
    + intros Huniq. destruct (Nat.eq_dec j i) as [E|N]; [exact E|].
      exfalso. apply (Huniq j e' v' N Hn' Hk').
      apply Qle_antisym; eauto.
  - exfalso. destruct Hb as (e & v & Hin & Hn & Hk & Hv & Hw & Hmin).
    destruct Hbf as [_ Hnone]. exact (Hnone i e v Hin Hn Hk Hw).
  - exfalso. destruct Hbf as (e & v & Hin & Hn & Hk & Hv & Hw & Hmin).
    destruct Hb as [_ Hnone]. exact (Hnone j e v Hin Hn Hk Hw).
  - split; [tauto | discriminate].
Qed.

(** With a primitive known to lie within [B'], tightening the bound of a
    query from [B] to [B'] does not change what it finds. *)
Lemma query_tighten (root : option (Node Box)) (B : option Real) (B' : Real) :
  hierarchy_of elems root -> within B' B ->
  (exists j e v, nth_error elems j = Some e /\ key e = Some v /\ v <= B') ->
  let b := query elems key beyond lo_first root B in
  let b' := query elems key beyond lo_first root (Some B') in
  (best_index b <> None -> b' = b)
  /\ (best_index b = None -> best_index b' = None).
Proof.
  intros Hh HB (j & e & v & Hn & Hk & Hle) b b'.
  unfold b, b'. rewrite !(query_scan root _ Hh).
  apply scan_tighten; [exact HB|].
  intros i v0 Hscan.
  pose proof (scan_spec elems key B (traversal root)) as Hinv.
  rewrite Hscan in Hinv. unfold best_inv in Hinv. simpl in Hinv.
  destruct Hinv as (e0 & v1 & _ & _ & _ & Hv & _ & Hmin).
  injection Hv as <-.
  assert (Hj : In j (traversal root)).
  { apply (traversal_all root Hh). apply nth_error_Some. congruence. }
  specialize (Hmin j e v Hj Hn Hk). lra.
Qed.
End QueryFacts.

(** *** The metric and the ray tester meet the contract of the traversal *)

Section TreeFacts.
Context {Elem Box Transform Vector3 Ray3 : Type}
        {BV : BoundingVolume Box} {PA : PrimitiveAdapter Elem Box}
        {TO : TransformOps Transform Vector3 Ray3}.

Lemma dist_beyond_sound {Query : Type} {M : Metric Elem Box Query Vector3}
      (q : Query) (b : Box) (limit : option Real) (e : Elem) (v : Real) :
  dist_beyond q b limit = true -> contains b (elem_bounds e) ->
  dist_key q e = Some v -> exceeds v limit.
Proof.
  unfold dist_beyond, dist_key, exceeds. destruct limit as [l|]; [|discriminate].
  intros Hlt Hc E. injection E as <-.
  apply Qlt_bool_iff in Hlt.
  pose proof (lower_bound_sound b e q Hc). lra.
Qed.


(** A tree with a hierarchy over its primitives. *)
Definition built (k : KDTree Elem Box Transform) : Prop :=
  hierarchy_of (kd_elems k) (kd_root k).

Lemma bound_of_nonneg (d : Real) : 0 <= d -> bound_of d = Some d.
Proof.
  unfold bound_of. intros H.
  destruct (Qlt_bool_reflect d 0) as [Hlt|]; [exfalso; lra | reflexivity].
Qed.

(** [closestElement] under a bound tightened to the distance of some
    primitive returns what it returns under the original bound. *)
Lemma closestElement_tighten {M : Metric Elem Box Vector3 Vector3}
      (k : KDTree Elem Box Transform) (query : Vector3) (bound fd dist : Real)
      (cp : option Vector3) :
  built k -> 0 <= fd -> within fd (bound_of bound) ->
  (exists j e, nth_error (kd_elems k) j = Some e
               /\ distance e (object_point k query) <= fd) ->
  closestElement k query fd dist cp = closestElement k query bound dist cp.
Proof.
  intros Hb Hfd Hw (j & e & Hn & Hle).
  unfold closestElement, nearest. rewrite (@bound_of_nonneg fd Hfd).
  set (q := object_point k query) in *.
  destruct (@query_tighten Elem Box BV PA (kd_elems k) (dist_key q)
              (dist_beyond q) (closer_first q) (@dist_beyond_sound _ M q)
              (kd_root k) (bound_of bound) fd Hb Hw) as [Hsome Hnone].
  { exists j, e, (distance e q). auto. }
  destruct (best_index (KDTreeN.query (kd_elems k) (dist_key q) (dist_beyond q)
                              (closer_first q) (kd_root k) (bound_of bound)))
    as [i|] eqn:Hi.
  - rewrite Hsome by discriminate. reflexivity.
  - specialize (Hnone eq_refl). unfold pair_of. now rewrite Hnone, Hi.
Qed.

(** What [closestElement] finds on a built tree. *)
Lemma closestElement_spec {M : Metric Elem Box Vector3 Vector3}
      (k : KDTree Elem Box Transform) (query : Vector3) (bound dist : Real)
      (cp : option Vector3) :
  built k ->
  let q := object_point k query in
  let r := closestElement k query bound dist cp in
  let b := nearest k q bound in
  (best_index b = None /\ r = ((-1)%Z, dist, cp)
   /\ forall j e, nth_error (kd_elems k) j = Some e ->
                  ~ within (distance e q) (bound_of bound))
  \/ (exists i e,
         best_index b = Some i /\ best_value b = Some (distance e q)
         /\ nth_error (kd_elems k) i = Some e
         /\ r = (Z.of_nat i, distance e q,
                 option_map (fun _ => world_point k (snd (closest_points e q))) cp)
         /\ within (distance e q) (bound_of bound)
         /\ forall j e', nth_error (kd_elems k) j = Some e' ->
                         distance e q <= distance e' q).
Proof.
  intros Hb q r b.
  pose proof (@query_best Elem Box BV PA (kd_elems k) (dist_key q)
                (dist_beyond q) (closer_first q) (@dist_beyond_sound _ M q)
                (kd_root k) (bound_of bound) Hb) as Hinv.
  fold (nearest k q bound) in Hinv. fold b in Hinv.
  unfold r, closestElement, pair_of. fold q. fold b.
  unfold best_inv in Hinv.
  assert (Hseq : forall j (e : Elem), nth_error (kd_elems k) j = Some e ->
                           In j (seq 0 (length (kd_elems k)))).
  { intros j e Hj. apply in_seq. split; [lia|]. simpl.
    apply nth_error_Some. congruence. }
  destruct (best_index b) as [i|].
  - destruct Hinv as (e & v & _ & Hn & Hk & Hv & Hw & Hmin).
    unfold dist_key in Hk. injection Hk as <-.
    right. exists i, e. rewrite Hv, Hn. simpl.
    do 5 (split; [auto|]).
    intros j e' Hj. apply (Hmin j e'); [now apply (Hseq j e') | exact Hj | reflexivity].
  - destruct Hinv as [Hv Hnone]. left.
    split; [reflexivity|]. split; [reflexivity|].
    intros j e Hj. apply (Hnone j e); [now apply (Hseq j e) | exact Hj | reflexivity].
Qed.


(** [rayIntersects] answers whether some primitive is hit within the
    bound, so it agrees with the validity of the nearest hit. *)
Lemma any_hit_iff {RT : RayIntersectionTester Elem Box Ray3}
      (es : list Elem) (r : Ray3) (limit : option Real) (n : Node Box) :
  sound es n ->
  any_hit es r limit n = true
  <-> exists i, In i (indices n) /\ hits es r limit i = true.
Proof.
  assert (Hbox : forall (m : Node Box) i,
             sound es m -> In i (indices m) -> hits es r limit i = true ->
             box_hit (node_bounds m) r limit = true).
  { intros m i Hs Hi Hh. unfold hits in Hh.
    destruct (nth_error es i) as [e|] eqn:He; [|discriminate].
    apply andb_true_iff in Hh as [H0 Hw].
    apply Qle_bool_iff in H0. apply within_b_iff in Hw.
    apply (box_hit_sound _ e); [|assumption|assumption].
    eapply sound_root; eassumption. }
  induction n as [bx bucket | bx axis split lo IHlo hi IHhi]; intros Hs.
  - cbn [any_hit node_bounds indices]. split.
    + destruct (box_hit bx r limit); simpl; [|discriminate].
      intros H. apply existsb_exists in H. exact H.
    + intros (i & Hi & Hh).
      pose proof (Hbox (Leaf bx bucket) i Hs Hi Hh) as Hb.
      cbn [node_bounds] in Hb. rewrite Hb. simpl.
      apply existsb_exists. eauto.
  - cbn [any_hit node_bounds indices]. destruct Hs as [Hroot [Hlo Hhi]]. split.
    + destruct (box_hit bx r limit); simpl; [|discriminate].
      intros H. apply orb_true_iff in H as [H | H].
      * apply (IHlo Hlo) in H as (i & Hi & Hh). exists i.
        split; [apply in_or_app; now left | exact Hh].
      * apply (IHhi Hhi) in H as (i & Hi & Hh). exists i.
        split; [apply in_or_app; now right | exact Hh].
    + intros (i & Hi & Hh).
      pose proof (Hbox (Internal bx axis split lo hi) i
                       (conj Hroot (conj Hlo Hhi)) Hi Hh) as Hb.
      cbn [node_bounds] in Hb. rewrite Hb. simpl.
      apply orb_true_iff. apply in_app_or in Hi as [Hi | Hi].
      * left. apply (IHlo Hlo). eauto.
      * right. apply (IHhi Hhi). eauto.
Qed.

Lemma rayIntersects_spec {RT : RayIntersectionTester Elem Box Ray3}
      (k : KDTree Elem Box Transform) (ray : Ray3) (max_time : Real) :
  built k ->
  rayIntersects k ray max_time = true
  <-> exists j e, nth_error (kd_elems k) j = Some e
                  /\ 0 <= hit_time e (object_ray k ray)
                  /\ within (hit_time e (object_ray k ray)) (bound_of max_time).
Proof.
  unfold built, rayIntersects, hierarchy_of.
  destruct (kd_root k) as [n|].
  - intros [Hs Hperm]. rewrite (@any_hit_iff RT _ _ _ n Hs). unfold hits. split.
    + intros (i & _ & Hh).
      destruct (nth_error (kd_elems k) i) as [e|] eqn:He; [|discriminate].
      apply andb_true_iff in Hh as [H0 Hw].
      exists i, e. split; [exact He|].
      split; [now apply Qle_bool_iff | now apply within_b_iff].
    + intros (j & e & He & H0 & Hw). exists j. split.
      * apply (Permutation_in _ (Permutation_sym Hperm)).
        apply in_seq. split; [lia|]. simpl. apply nth_error_Some. congruence.
      * rewrite He. apply andb_true_iff.
        split; [now apply Qle_bool_iff | now apply within_b_iff].
  - intros Hnil. split; [discriminate|].
    intros (j & e & He & _). rewrite Hnil in He. destruct j; discriminate.
Qed.

Lemma built_init (leaf_threshold : nat) (k : KDTree Elem Box Transform) :
  built (init leaf_threshold k).
Proof. unfold built, init. simpl. apply build_hierarchy. Qed.

Lemma built_init_range (leaf_threshold : nat) (es : list Elem)
      (k : KDTree Elem Box Transform) :
  built (init_range leaf_threshold es k).
Proof. unfold built, init_range. simpl. apply build_hierarchy. Qed.

Lemma built_clear (d : bool) (k : KDTree Elem Box Transform) : built (clear d k).
Proof. reflexivity. Qed.

Lemma built_setTransform (t : Transform) (k : KDTree Elem Box Transform) :
  built k -> built (setTransform t k).
Proof. auto. Qed.
End TreeFacts.

End KDTreeFacts.

(** ** Properties of the model *)

Module ModelFacts.
Import KDTreeN KDTreeFacts Browse3D.

Section Facts.
Context {Vector3 Ray3 AffineTransform3 Box : Type}
        {MeshGroup PointCloud Mesh MeshVertex Triangle : Type}
        {MO : MeshOps MeshGroup PointCloud Mesh MeshVertex Triangle Vector3}
        {RO : RayOps Vector3 Ray3}
        {TO : TransformOps AffineTransform3 Vector3 Ray3}
        {BV : BoundingVolume Box}
        {PAT : PrimitiveAdapter Triangle Box}
        {PAV : PrimitiveAdapter MeshVertex Box}
        {MTP : Metric Triangle Box Vector3 Vector3}
        {MTR : Metric Triangle Box Ray3 Vector3}
        {RTT : RayIntersectionTester Triangle Box Ray3}
        {MVP : Metric MeshVertex Box Vector3 Vector3}.
Variable max_elems_per_leaf : nat.
Variable default_max_time : Real.

Abbreviation Model := (@Model Vector3 AffineTransform3 Box MeshGroup PointCloud
                          Mesh MeshVertex Triangle).
Abbreviation M := (@M Vector3 Ray3 AffineTransform3 Box MeshGroup PointCloud
                  Mesh MeshVertex Triangle).
Abbreviation updateKDTree := (@updateKDTree _ Ray3 _ _ _ _ _ _ _ _ _ _ max_elems_per_leaf).
Abbreviation updateVertexKDTree := (@updateVertexKDTree _ Ray3 _ _ _ _ _ _ _ _ _ _ max_elems_per_leaf).
Abbreviation closestPoint := (@closestPoint _ Ray3 _ _ _ _ _ _ _ _ _ _ _ _ _ _ max_elems_per_leaf).
Abbreviation rayIntersects := (@rayIntersects _ _ _ _ _ _ _ _ _ _ _ _ _ _ max_elems_per_leaf).
Abbreviation rayIntersectionTime := (@rayIntersectionTime _ _ _ _ _ _ _ _ _ _ _ _ _ _ max_elems_per_leaf).
Abbreviation rayIntersection := (@rayIntersection _ _ _ _ _ _ _ _ _ _ _ _ _ _ max_elems_per_leaf).
Abbreviation pick := (@pick _ _ _ _ _ _ _ _ _ _ _ _ _ _ _ _ max_elems_per_leaf default_max_time).
Abbreviation setTransform := (@Browse3D.setTransform _ Ray3 _ _ _ _ _ _ _).
Abbreviation clearTransform := (@Browse3D.clearTransform _ Ray3 _ _ _ _ _ _ _).
Abbreviation invalidations := (@Browse3D.invalidations _ Ray3 _ _ _ _ _ _ _).
Abbreviation invalidateKDTree := (@Browse3D.invalidateKDTree _ Ray3 _ _ _ _ _ _ _).
Abbreviation invalidateVertexKDTree := (@Browse3D.invalidateVertexKDTree _ Ray3 _ _ _ _ _ _ _).
Abbreviation invalidateAll := (@Browse3D.invalidateAll _ Ray3 _ _ _ _ _ _ _).
Abbreviation invalidatePick := (@Browse3D.invalidatePick _ Ray3 _ _ _ _ _ _ _).
Abbreviation reachable := (@Browse3D.reachable _ Ray3 _ _ _ _ _ _ _ _ _ _ _ _ _ _ _ _ _ max_elems_per_leaf default_max_time).
Abbreviation exec := (@Browse3D.exec _ Ray3 _ _ _ _ _ _ _ _ _ _ _ _ _ _ _ _ _ max_elems_per_leaf default_max_time).

Ltac unfold_monad :=
  unfold Browse3D.on_kdtree, Browse3D.on_vertex_kdtree, Browse3D.bind,
    Browse3D.ret, Browse3D.gets, Browse3D.modify, Browse3D.emit,
    Browse3D.fail in *.

(** *** Queries on an empty model *)

(** C4. A query against an empty model (no mesh group and no point cloud, or
    only empty ones) is not an error: for every query point, bound, output
    pointers and acceleration setting, [closestPoint] returns -1, leaves the
    outputs as they were, changes nothing in the model and calls nothing. *)
Theorem closestPoint_empty_model (m : Model) (query : Vector3) (bound : Real)
        (out : Outputs) (accelerate_with_vertices : bool) :
  isEmpty m = true ->
  closestPoint query bound out accelerate_with_vertices m
  = Done ((-1)%Z, out) m [].
Proof.
  intros Hempty. unfold Browse3D.closestPoint. unfold_monad.
  rewrite Hempty. reflexivity.
Qed.

(** *** The transform overlay *)

Lemma setTransform_run (m : Model) (T : AffineTransform3) :
  exists m' log,
    setTransform T m = Done tt m' log
    /\ only_transform_changed m m'
    /\ trans m' = Some T
    /\ rebuilds FaceTree log = 0%nat /\ rebuilds VertexTree log = 0%nat.
Proof.
  unfold Browse3D.setTransform. unfold_monad.
  destruct m as [mg pc tr vp ps vk k vvk vtx].
  destruct vk, vvk; simpl; do 2 eexists; (split; [reflexivity|]);
    unfold only_transform_changed; simpl; intuition.
Qed.

Lemma clearTransform_run (m : Model) :
  exists m' log,
    clearTransform m = Done tt m' log
    /\ only_transform_changed m m'
    /\ trans m' = None
    /\ rebuilds FaceTree log = 0%nat /\ rebuilds VertexTree log = 0%nat.
Proof.
  unfold Browse3D.clearTransform. unfold_monad.
  destruct m as [mg pc tr vp ps vk k vvk vtx].
  destruct vk, vvk; simpl; do 2 eexists; (split; [reflexivity|]);
    unfold only_transform_changed; simpl; intuition.
Qed.

(** C6. [setTransform] and [clearTransform] change only stored transforms:
    in every state they return, leave the geometry, the pick state, both
    validity flags and the primitives and hierarchy of both kd-trees as they
    were, and rebuild nothing. *)
Theorem setTransform_clearTransform_frame (m : Model) (T : AffineTransform3) :
  (exists m' log,
      setTransform T m = Done tt m' log
      /\ only_transform_changed m m'
      /\ trans m' = Some T
      /\ rebuilds FaceTree log = 0%nat /\ rebuilds VertexTree log = 0%nat)
  /\ (exists m' log,
         clearTransform m = Done tt m' log
         /\ only_transform_changed m m'
         /\ trans m' = None
         /\ rebuilds FaceTree log = 0%nat /\ rebuilds VertexTree log = 0%nat).
Proof.
  split; [apply setTransform_run | apply clearTransform_run].
Qed.

Lemma clear_after_set (m : Model) (T : AffineTransform3) :
  exists m' log1 log2,
    Browse3D.bind (setTransform T) (fun _ => clearTransform) m = Done tt m' log1
    /\ clearTransform m = Done tt m' log2
    /\ (trans m = None -> transform_synced m -> m' = m).
Proof.
  unfold Browse3D.setTransform, Browse3D.clearTransform, transform_synced.
  unfold_monad.
  destruct m as [mg pc tr vp ps vk [ke kr kt] vvk [ve vr vt]].
  destruct vk, vvk; simpl; do 3 eexists;
    (split; [reflexivity|]); (split; [reflexivity|]);
    intros -> [Hf Hv]; rewrite ?(Hf eq_refl), ?(Hv eq_refl); reflexivity.
Qed.

(** C7. [setTransform(T)] followed by [clearTransform()] leaves the model as
    [clearTransform()] alone leaves it, so that no query can tell whether a
    transform was set in between; on a model with no transform set, the two
    calls give the model back as it was, and every query run after them
    returns the same answer, or the same fault, and leaves the same state as
    the query run on the model itself. *)
Theorem transform_round_trip (A : Type) (q : M A) (m : Model)
        (T : AffineTransform3) :
  outcome (Browse3D.bind (setTransform T)
                         (fun _ => Browse3D.bind clearTransform (fun _ => q)) m)
  = outcome (Browse3D.bind clearTransform (fun _ => q) m)
  /\ (trans m = None -> transform_synced m ->
      outcome (Browse3D.bind (setTransform T)
                             (fun _ => Browse3D.bind clearTransform (fun _ => q)) m)
      = outcome (q m)).
Proof.
  destruct (clear_after_set m T) as (m' & log1 & log2 & Hrun & Hclear & Hsame).
  revert Hrun. unfold Browse3D.bind. rewrite Hclear.
  destruct (setTransform T m) as [[] m1 l1 | f]; [|discriminate].
  destruct (clearTransform m1) as [[] m2 l2 | f]; [|discriminate].
  intros E. injection E as -> _. split.
  - destruct (q m') as [a m3 l3 | f]; reflexivity.
  - intros Ht Hs. rewrite (Hsame Ht Hs).
    destruct (q m) as [a m3 l3 | f]; reflexivity.
Qed.

(** *** Lazy rebuild *)

(** The face tree after a rebuild, and the model after [updateKDTree]. *)
Definition rebuilt_face (m : Model) : FaceKDTree :=
  match mesh_group m with
  | Some g =>
      let k := KDTreeN.init max_elems_per_leaf
                 (KDTreeN.add (group_triangles g) (KDTreeN.clear false (kdtree m))) in
      match trans m with
      | Some t => KDTreeN.setTransform t k
      | None => k
      end
  | None => KDTreeN.clear false (kdtree m)
  end.

Definition face_updated (m : Model) : Model :=
  if valid_kdtree m then m
  else set_valid_kdtree true (set_kdtree (rebuilt_face m) m).

(** The vertex tree after a rebuild from the mesh group [g]. *)
Definition rebuilt_vertex (g : MeshGroup) (m : Model) : VertexKDTree :=
  let k := KDTreeN.init_range max_elems_per_leaf (group_vertices g)
             (KDTreeN.clear false (vertex_kdtree m)) in
  match trans m with
  | Some t => KDTreeN.setTransform t k
  | None => k
  end.

Definition vertex_updated (g : MeshGroup) (m : Model) : Model :=
  if valid_vertex_kdtree m then m
  else set_valid_vertex_kdtree true (set_vertex_kdtree (rebuilt_vertex g m) m).

Lemma updateKDTree_run (m : Model) :
  exists log,
    updateKDTree m = Done tt (face_updated m) log
    /\ rebuilds FaceTree log = (if valid_kdtree m then 0 else 1)%nat
    /\ rebuilds VertexTree log = 0%nat
    /\ closest_pair_calls log = [].
Proof.
  unfold Browse3D.updateKDTree, face_updated, rebuilt_face. unfold_monad.
  destruct m as [mg pc tr vp ps vk k vvk vtx].
  destruct vk; simpl; [eexists; repeat split|].
  destruct mg as [g|]; simpl; [|eexists; repeat split].
  destruct tr as [t|]; simpl; eexists; repeat split.
Qed.

Lemma updateVertexKDTree_run (m : Model) (g : MeshGroup) :
  mesh_group m = Some g ->
  exists log,
    updateVertexKDTree m = Done tt (vertex_updated g m) log
    /\ rebuilds VertexTree log = (if valid_vertex_kdtree m then 0 else 1)%nat
    /\ rebuilds FaceTree log = 0%nat
    /\ closest_pair_calls log = [].
Proof.
  unfold Browse3D.updateVertexKDTree, vertex_updated, rebuilt_vertex.
  unfold_monad.
  destruct m as [mg pc tr vp ps vk k vvk vtx]. simpl. intros ->.
  destruct vvk; simpl; [eexists; repeat split|].
  destruct tr as [t|]; simpl; eexists; repeat split.
Qed.

Lemma updateVertexKDTree_valid (m : Model) :
  valid_vertex_kdtree m = true -> updateVertexKDTree m = Done tt m [].
Proof.
  unfold Browse3D.updateVertexKDTree. unfold_monad. intros ->. reflexivity.
Qed.

Lemma updateVertexKDTree_null (m : Model) :
  valid_vertex_kdtree m = false -> mesh_group m = None ->
  updateVertexKDTree m = Failed NullPointer.
Proof.
  unfold Browse3D.updateVertexKDTree. unfold_monad.
  destruct m as [mg pc tr vp ps vk k vvk vtx]. simpl. intros -> ->.
  reflexivity.
Qed.

Lemma face_updated_valid (m : Model) : valid_kdtree (face_updated m) = true.
Proof. unfold face_updated. destruct (valid_kdtree m) eqn:E; [exact E | reflexivity]. Qed.

Lemma face_updated_same (m : Model) :
  valid_kdtree m = true -> face_updated m = m.
Proof. unfold face_updated. now intros ->. Qed.

Lemma rebuilds_app (w : Which) (l1 l2 : list (@Event Vector3 Ray3 AffineTransform3)) :
  rebuilds w (l1 ++ l2) = (rebuilds w l1 + rebuilds w l2)%nat.
Proof. unfold rebuilds. now rewrite filter_app, length_app. Qed.

Lemma rebuilds_cons (w : Which) (e : @Event Vector3 Ray3 AffineTransform3)
      (l : list (@Event Vector3 Ray3 AffineTransform3)) :
  rebuilds w (e :: l)
  = ((if is_rebuild_of w e then 1 else 0) + rebuilds w l)%nat.
Proof. unfold rebuilds. simpl. destruct (is_rebuild_of w e); reflexivity. Qed.

Lemma closest_pair_calls_app (l1 l2 : list (@Event Vector3 Ray3 AffineTransform3)) :
  closest_pair_calls (l1 ++ l2) = closest_pair_calls l1 ++ closest_pair_calls l2.
Proof.
  induction l1 as [|e l1 IH]; [reflexivity|].
  simpl. destruct e as [w c | msg | ev]; try exact IH.
  destruct c; try exact IH. simpl. now rewrite IH.
Qed.

Lemma rayIntersects_run (m : Model) (ray : Ray3) (max_time : Real) :
  exists pre,
    rayIntersects ray max_time m
    = Done (KDTreeN.rayIntersects (kdtree (face_updated m)) ray max_time)
           (face_updated m)
           (pre ++ [Call FaceTree (CallRayIntersects ray max_time)])
    /\ rebuilds FaceTree pre = (if valid_kdtree m then 0 else 1)%nat
    /\ rebuilds VertexTree pre = 0%nat
    /\ closest_pair_calls pre = [].
Proof.
  destruct (updateKDTree_run m) as (log & Hrun & Hlog).
  exists log. split; [|exact Hlog].
  unfold Browse3D.rayIntersects, Browse3D.getKDTree, recompute_by_default.
  unfold_monad. rewrite Hrun. simpl. now rewrite app_nil_r.
Qed.

Lemma rayIntersectionTime_run (m : Model) (ray : Ray3) (max_time : Real) :
  exists pre,
    rayIntersectionTime ray max_time m
    = Done (KDTreeN.rayIntersectionTime (kdtree (face_updated m)) ray max_time)
           (face_updated m)
           (pre ++ [Call FaceTree (CallRayIntersectionTime ray max_time)])
    /\ rebuilds FaceTree pre = (if valid_kdtree m then 0 else 1)%nat
    /\ rebuilds VertexTree pre = 0%nat
    /\ closest_pair_calls pre = [].
Proof.
  destruct (updateKDTree_run m) as (log & Hrun & Hlog).
  exists log. split; [|exact Hlog].
  unfold Browse3D.rayIntersectionTime, Browse3D.getKDTree, recompute_by_default.
  unfold_monad. rewrite Hrun. simpl. now rewrite app_nil_r.
Qed.

Lemma rayIntersection_run (m : Model) (ray : Ray3) (max_time : Real) :
  exists pre,
    rayIntersection ray max_time m
    = Done (KDTreeN.rayStructureIntersection (kdtree (face_updated m)) ray max_time)
           (face_updated m)
           (pre ++ [Call FaceTree (CallRayStructureIntersection ray max_time)])
    /\ rebuilds FaceTree pre = (if valid_kdtree m then 0 else 1)%nat
    /\ rebuilds VertexTree pre = 0%nat
    /\ closest_pair_calls pre = [].
Proof.
  destruct (updateKDTree_run m) as (log & Hrun & Hlog).
  exists log. split; [|exact Hlog].
  unfold Browse3D.rayIntersection, Browse3D.getKDTree, recompute_by_default.
  unfold_monad. rewrite Hrun. simpl. now rewrite app_nil_r.
Qed.

(** What [closestPoint] returns once the face tree [k] is up to date and
    the bound is settled. *)
Definition answer_of (k : FaceKDTree) (query : Vector3) (bound : Real)
           (out : Outputs) : Z * Outputs :=
  let '(index, d, pt) := KDTreeN.closestElement k query bound 0 (closest_pt out) in
  if (0 <=? index)%Z then
    (index,
     mkOutputs (option_map (fun _ => d) (min_dist out)) pt
               (match closest_pt_normal out with
                | Some _ => option_map getNormal
                                       (nth_error (kd_elems k) (Z.to_nat index))
                | None => None
                end))
  else ((-1)%Z, mkOutputs (min_dist out) pt (closest_pt_normal out)).

(** The bound after the fast query on the vertex tree [vk]. *)
Definition tightened (vk : VertexKDTree) (query : Vector3) (bound : Real) : Real :=
  let '(vertex_index, fast_distance_bound, _) :=
    KDTreeN.closestElement vk query bound 0 None in
  if (0 <=? vertex_index)%Z then fast_distance_bound else bound.

Lemma pair_of_index {Elem Query : Type} {PA : PrimitiveAdapter Elem Box}
      {Mq : Metric Elem Box Query Vector3}
      (k : KDTree Elem Box AffineTransform3) (q : Query) (b : Best)
      (p : NeighborPair Vector3) :
  pair_of k q b = Some p ->
  exists i e, getTargetIndex p = Z.of_nat i
              /\ nth_error (kd_elems k) i = Some e
              /\ best_index b = Some i
              /\ best_value b = Some (getDistance p).
Proof.
  unfold pair_of. destruct (best_index b) as [i|]; [|discriminate].
  destruct (best_value b) as [d|]; [|discriminate].
  destruct (nth_error (kd_elems k) i) as [e|] eqn:He; [|discriminate].
  intros E. injection E as <-. exists i, e. simpl. auto.
Qed.

Lemma closestElement_index {Elem : Type} {PA : PrimitiveAdapter Elem Box}
      {Mq : Metric Elem Box Vector3 Vector3}
      (k : KDTree Elem Box AffineTransform3) (query : Vector3)
      (bound dist : Real) (cp : option Vector3) :
  (0 <=? fst (fst (KDTreeN.closestElement k query bound dist cp)))%Z = true ->
  exists e,
    nth_error (kd_elems k)
              (Z.to_nat (fst (fst (KDTreeN.closestElement k query bound dist cp))))
    = Some e.
Proof.
  unfold KDTreeN.closestElement.
  destruct (pair_of k (object_point k query)
                    (nearest k (object_point k query) bound)) as [p|] eqn:Hp.
  - destruct (pair_of_index _ _ _ Hp) as (i & e & Hi & He & _).
    simpl. rewrite Hi, Nat2Z.id. eauto.
  - simpl. discriminate.
Qed.

Lemma closestPoint_plain_run (m : Model) (query : Vector3) (bound : Real)
      (out : Outputs) :
  isEmpty m = false ->
  exists pre,
    closestPoint query bound out false m
    = Done (answer_of (kdtree (face_updated m)) query bound out)
           (face_updated m)
           (pre ++ [Call FaceTree (CallClosestElement query bound)])
    /\ rebuilds FaceTree pre = (if valid_kdtree m then 0 else 1)%nat
    /\ rebuilds VertexTree pre = 0%nat.
Proof.
  intros Hempty.
  destruct (updateKDTree_run m) as (log & Hrun & Hf & Hv & _).
  exists log. split; [|split; assumption].
  unfold Browse3D.closestPoint, answer_of. unfold_monad.
  rewrite Hempty. simpl. rewrite Hrun. simpl.
  pose proof (closestElement_index (kdtree (face_updated m)) query bound 0
                                   (closest_pt out)) as Hidx.
  destruct (KDTreeN.closestElement (kdtree (face_updated m)) query bound 0
                                   (closest_pt out)) as [[index d] pt].
  simpl in Hidx.
  destruct (0 <=? index)%Z.
  2:{ simpl. now rewrite ?app_nil_r. }
  destruct (Hidx eq_refl) as [e He]. rewrite He.
  destruct (closest_pt_normal out); simpl; now rewrite ?app_nil_r.
Qed.

Lemma face_of_vertex_updated (g : MeshGroup) (m : Model) :
  face_updated (vertex_updated g m)
  = (if valid_vertex_kdtree m then face_updated m
     else set_valid_vertex_kdtree true
            (set_vertex_kdtree (rebuilt_vertex g m) (face_updated m))).
Proof.
  unfold face_updated, vertex_updated, rebuilt_face.
  destruct m as [mg pc tr vp ps vk k vvk vtx]. simpl.
  destruct vvk, vk; reflexivity.
Qed.

Lemma kdtree_face_of_vertex_updated (g : MeshGroup) (m : Model) :
  kdtree (face_updated (vertex_updated g m)) = kdtree (face_updated m).
Proof.
  rewrite face_of_vertex_updated. destruct (valid_vertex_kdtree m); reflexivity.
Qed.

Lemma closestPoint_accel_run (m : Model) (g : MeshGroup) (query : Vector3)
      (bound : Real) (out : Outputs) :
  isEmpty m = false -> mesh_group m = Some g ->
  exists pre1 pre2,
    closestPoint query bound out true m
    = Done (answer_of (kdtree (face_updated m)) query
                      (tightened (vertex_kdtree (vertex_updated g m)) query bound)
                      out)
           (face_updated (vertex_updated g m))
           (pre1 ++ Call VertexTree (CallClosestElement query bound)
                 :: pre2
                 ++ [Call FaceTree
                          (CallClosestElement
                             query
                             (tightened (vertex_kdtree (vertex_updated g m))
                                        query bound))])
    /\ rebuilds FaceTree pre1 = 0%nat
    /\ rebuilds FaceTree pre2 = (if valid_kdtree m then 0 else 1)%nat.
Proof.
  intros Hempty Hg.
  destruct (updateVertexKDTree_run m Hg) as (log1 & Hrun1 & _ & Hf1 & _).
  destruct (updateKDTree_run (vertex_updated g m)) as (log2 & Hrun2 & Hf2 & _).
  exists log1, log2. split; [|split; [exact Hf1|]].
  2:{ rewrite Hf2. unfold vertex_updated.
      destruct (valid_vertex_kdtree m); reflexivity. }
  rewrite <- (kdtree_face_of_vertex_updated g m).
  unfold Browse3D.closestPoint, answer_of, tightened. unfold_monad.
  rewrite Hempty. simpl. rewrite Hrun1. simpl.
  destruct (KDTreeN.closestElement (vertex_kdtree (vertex_updated g m)) query
                                   bound 0 None) as [[vi fd] vpt].
  set (bound' := if (0 <=? vi)%Z then fd else bound).
  rewrite Hrun2. simpl.
  pose proof (closestElement_index
                (kdtree (face_updated (vertex_updated g m))) query bound' 0
                (closest_pt out)) as Hidx.
  destruct (KDTreeN.closestElement
              (kdtree (face_updated (vertex_updated g m))) query bound' 0
              (closest_pt out)) as [[index d] pt].
  simpl in Hidx.
  destruct (0 <=? index)%Z.
  - destruct (Hidx eq_refl) as [e He]. rewrite He.
    destruct (closest_pt_normal out); simpl;
      rewrite ?app_nil_r, <- ?app_assoc; reflexivity.
  - simpl. rewrite ?app_nil_r, <- ?app_assoc. reflexivity.
Qed.

(** *** Picking *)

Abbreviation projection cp ray :=
  (dot (vsub (getQueryPoint cp) (getOrigin ray)) (normalized (getDirection ray))).

(** The sample recorded for a pick of triangle [tri] at [p]. *)
Definition picked (tri : Triangle) (p : Vector3) (s : @Sample Vector3 Mesh)
  : @Sample Vector3 Mesh :=
  mkSample (type s) (label s) p (Some (getMesh tri)) (getMeshFaceIndex tri).

Lemma rayStructureIntersection_index (k : FaceKDTree) (ray : Ray3) (max_time : Real) :
  isValid (KDTreeN.rayStructureIntersection k ray max_time) = true ->
  exists i e,
    getElementIndex (KDTreeN.rayStructureIntersection k ray max_time) = Z.of_nat i
    /\ nth_error (kd_elems k) i = Some e.
Proof.
  unfold KDTreeN.rayStructureIntersection.
  pose proof (query_in_range (kd_elems k) (ray_key (object_ray k ray))
                             (ray_beyond (object_ray k ray)) lo_then_hi
                             (kd_root k) (bound_of max_time)) as Hr.
  destruct (query (kd_elems k) (ray_key (object_ray k ray))
                  (ray_beyond (object_ray k ray)) lo_then_hi (kd_root k)
                  (bound_of max_time)) as [[i|] [t|]]; simpl; try discriminate.
  intros _. destruct (Hr i eq_refl) as (e & v & He & _). eauto.
Qed.

(** [pick] when the ray hits a primitive. *)
Lemma pick_hit (m : Model) (ray : Ray3) :
  let m1 := face_updated m in
  let isec := KDTreeN.rayStructureIntersection (kdtree m1) ray default_max_time in
  isValid isec = true ->
  exists tri pre,
    nth_error (kd_elems (kdtree m1)) (Z.to_nat (getElementIndex isec)) = Some tri
    /\ pick ray m
       = Done (getTime isec)
              (set_valid_pick true
                 (set_picked_sample
                    (picked tri (getPoint ray (getTime isec)) (picked_sample m1)) m1))
              (pre ++ [Call FaceTree (CallRayStructureIntersection ray default_max_time);
                       PostEvent EVT_MODEL_NEEDS_REDRAW])
    /\ closest_pair_calls pre = [].
Proof.
  intros m1 isec Hvalid.
  destruct (rayIntersection_run m ray default_max_time) as (pre & Hrun & _ & _ & Hcp).
  destruct (rayStructureIntersection_index _ _ _ Hvalid) as (i & tri & Hi & Htri).
  fold m1 in Hrun. fold isec in Hrun, Hi.
  exists tri, pre. split; [now rewrite Hi, Nat2Z.id|]. split; [|exact Hcp].
  unfold Browse3D.pick. unfold Browse3D.bind at 1. rewrite Hrun.
  unfold_monad. rewrite Hvalid. simpl. rewrite Hi.
  replace (0 <=? Z.of_nat i)%Z with true
    by (symmetry; apply Z.leb_le; lia).
  assert (Hk : kdtree
                 (set_picked_sample
                    (set_position (getPoint ray (getTime isec)) (picked_sample m1)) m1)
               = kdtree m1) by reflexivity.
  rewrite Hk, Nat2Z.id, Htri. simpl.
  rewrite <- app_assoc. reflexivity.
Qed.

(** [pick] when the ray hits nothing. *)
Lemma pick_miss (m : Model) (ray : Ray3) :
  let m1 := face_updated m in
  let isec := KDTreeN.rayStructureIntersection (kdtree m1) ray default_max_time in
  isValid isec = false ->
  exists pre,
    closest_pair_calls pre = []
    /\ match KDTreeN.closestPair (kdtree m1) ray (-1) true with
       | Some cp =>
           if Qle_bool 0 (projection cp ray) then
             exists tri,
               nth_error (kd_elems (kdtree m1)) (Z.to_nat (getTargetIndex cp))
               = Some tri
               /\ pick ray m
                  = Done (projection cp ray)
                         (set_valid_pick true
                            (set_picked_sample
                               (picked tri (getTargetPoint cp) (picked_sample m1)) m1))
                         (pre ++ [Call FaceTree
                                       (CallRayStructureIntersection ray default_max_time);
                                  Call FaceTree (CallClosestPair ray (-1) true);
                                  PostEvent EVT_MODEL_NEEDS_REDRAW])
           else
             pick ray m
             = Done (projection cp ray) m1
                    (pre ++ [Call FaceTree
                                  (CallRayStructureIntersection ray default_max_time);
                             Call FaceTree (CallClosestPair ray (-1) true)])
       | None =>
           pick ray m
           = Done (-1) m1
                  (pre ++ [Call FaceTree
                                (CallRayStructureIntersection ray default_max_time);
                           Call FaceTree (CallClosestPair ray (-1) true)])
       end.
Proof.
  intros m1 isec Hinvalid.
  destruct (rayIntersection_run m ray default_max_time) as (pre & Hrun & _ & _ & Hcp).
  fold m1 in Hrun. fold isec in Hrun.
  exists pre. split; [exact Hcp|].
  assert (Hlog : forall l : list (@Event Vector3 Ray3 AffineTransform3),
             (pre ++ [Call FaceTree
                           (CallRayStructureIntersection ray default_max_time)])
               ++ Call FaceTree (CallClosestPair ray (-1) true) :: l
             = pre ++ Call FaceTree
                           (CallRayStructureIntersection ray default_max_time)
                   :: Call FaceTree (CallClosestPair ray (-1) true) :: l)
    by (intros l; now rewrite <- app_assoc).
  destruct (KDTreeN.closestPair (kdtree m1) ray (-1) true) as [cp|] eqn:Hpair.
  - destruct (Qle_bool 0 (projection cp ray)) eqn:Ht.
    + pose proof Hpair as Hpair'. unfold KDTreeN.closestPair in Hpair'.
      destruct (true && KDTreeN.rayIntersects (kdtree m1) ray (-1));
        [discriminate|].
      destruct (pair_of_index _ _ _ Hpair') as (i & tri & Hi & Htri & _).
      exists tri. split; [now rewrite Hi, Nat2Z.id|].
      unfold Browse3D.pick. unfold Browse3D.bind at 1. rewrite Hrun.
      unfold_monad. rewrite Hinvalid. simpl. rewrite Hpair. simpl.
      rewrite Ht. simpl. rewrite Hi.
      replace (0 <=? Z.of_nat i)%Z with true
        by (symmetry; apply Z.leb_le; lia).
      assert (Hk : kdtree
                     (set_picked_sample
                        (set_position (getTargetPoint cp) (picked_sample m1)) m1)
                   = kdtree m1) by reflexivity.
      rewrite Hk, Nat2Z.id, Htri. simpl. now rewrite Hlog.
    + unfold Browse3D.pick. unfold Browse3D.bind at 1. rewrite Hrun.
      unfold_monad. rewrite Hinvalid. simpl. rewrite Hpair. simpl.
      rewrite Ht. simpl. now rewrite Hlog.
  - unfold Browse3D.pick. unfold Browse3D.bind at 1. rewrite Hrun.
    unfold_monad. rewrite Hinvalid. simpl. rewrite Hpair. simpl.
    now rewrite Hlog.
Qed.

Lemma face_updated_pick_state (m : Model) :
  valid_pick (face_updated m) = valid_pick m
  /\ picked_sample (face_updated m) = picked_sample m.
Proof. unfold face_updated. destruct (valid_kdtree m); split; reflexivity. Qed.

(** C5. [pick] consults the closest-pair query only when the exact ray
    intersection is invalid, and then once, with the arguments (ray, -1,
    true); when the intersection is valid, [pick] returns its hit time,
    records the triangle at its element index, and never calls
    [closestPair]. *)
Theorem pick_closestPair_only_on_miss (m : Model) (ray : Ray3) :
  exists isec m1 log1 t m' log,
    rayIntersection ray default_max_time m = Done isec m1 log1
    /\ pick ray m = Done t m' log
    /\ (isValid isec = true ->
        t = getTime isec
        /\ closest_pair_calls log = []
        /\ exists tri,
            nth_error (kd_elems (kdtree m1)) (Z.to_nat (getElementIndex isec))
            = Some tri
            /\ picked_sample m'
               = picked tri (getPoint ray (getTime isec)) (picked_sample m)
            /\ valid_pick m' = true)
    /\ (isValid isec = false ->
        closest_pair_calls log = [(ray, -1, true)]).
Proof.
  destruct (rayIntersection_run m ray default_max_time) as (pre0 & Hrun & _).
  set (m1 := face_updated m) in *.
  set (isec := KDTreeN.rayStructureIntersection (kdtree m1) ray default_max_time) in *.
  destruct (isValid isec) eqn:Hvalid.
  - destruct (pick_hit m ray Hvalid) as (tri & pre & Htri & Hpick & Hcp).
    do 6 eexists. split; [exact Hrun|]. split; [exact Hpick|].
    split; [|intros Hx; congruence]. intros _.
    split; [reflexivity|]. split.
    + rewrite closest_pair_calls_app, Hcp. reflexivity.
    + exists tri. split; [exact Htri|]. simpl.
      destruct (face_updated_pick_state m) as [_ ->]. split; reflexivity.
  - destruct (pick_miss m ray Hvalid) as (pre & Hcp & Hpick).
    fold m1 in Hpick.
    assert (Hcalls : forall l : list (@Event Vector3 Ray3 AffineTransform3),
               closest_pair_calls l = [] ->
               closest_pair_calls
                 (pre ++ Call FaceTree
                              (CallRayStructureIntersection ray default_max_time)
                      :: Call FaceTree (CallClosestPair ray (-1) true) :: l)
               = [(ray, -1, true)]).
    { intros l Hl. rewrite closest_pair_calls_app, Hcp. simpl. now rewrite Hl. }
    destruct (KDTreeN.closestPair (kdtree m1) ray (-1) true) as [cp|].
    + destruct (Qle_bool 0 (projection cp ray)).
      * destruct Hpick as (tri & _ & Hpick).
        do 6 eexists. split; [exact Hrun|]. split; [exact Hpick|].
        split; [intros Hx; congruence|]. intros _. now apply Hcalls.
      * do 6 eexists. split; [exact Hrun|]. split; [exact Hpick|].
        split; [intros Hx; congruence|]. intros _. now apply Hcalls.
    + do 6 eexists. split; [exact Hrun|]. split; [exact Hpick|].
      split; [intros Hx; congruence|]. intros _. now apply Hcalls.
Qed.

(** C10. [pick] always returns and never turns [valid_pick] off, which
    [invalidatePick] does.  When [pick] finds no primitive (the exact
    intersection is invalid and the closest pair is invalid or projects to a
    negative time on the ray), it returns a negative time and leaves
    [valid_pick] and [picked_sample] as they were. *)
Theorem pick_nothing_found (m : Model) (ray : Ray3) :
  exists isec m1 log1 t m' log,
    rayIntersection ray default_max_time m = Done isec m1 log1
    /\ pick ray m = Done t m' log
    /\ (valid_pick m = true -> valid_pick m' = true)
    /\ (isValid isec = false ->
        match KDTreeN.closestPair (kdtree m1) ray (-1) true with
        | Some cp => projection cp ray < 0
        | None => True
        end ->
        t < 0 /\ valid_pick m' = valid_pick m
        /\ picked_sample m' = picked_sample m)
    /\ invalidatePick m
       = Done tt (set_valid_pick false m) [PostEvent EVT_MODEL_NEEDS_REDRAW].
Proof.
  cut (exists isec m1 log1 t m' log,
          rayIntersection ray default_max_time m = Done isec m1 log1
          /\ pick ray m = Done t m' log
          /\ (valid_pick m = true -> valid_pick m' = true)
          /\ (isValid isec = false ->
              match KDTreeN.closestPair (kdtree m1) ray (-1) true with
              | Some cp => projection cp ray < 0
              | None => True
              end ->
              t < 0 /\ valid_pick m' = valid_pick m
              /\ picked_sample m' = picked_sample m)).
  { intros (isec & m1 & log1 & t & m' & log & H1 & H2 & H3 & H4).
    exists isec, m1, log1, t, m', log. repeat (split; [assumption|]).
    reflexivity. }
  destruct (rayIntersection_run m ray default_max_time) as (pre0 & Hrun & _).
  destruct (face_updated_pick_state m) as [Hvp Hps].
  set (m1 := face_updated m) in *.
  set (isec := KDTreeN.rayStructureIntersection (kdtree m1) ray default_max_time) in *.
  destruct (isValid isec) eqn:Hvalid.
  - destruct (pick_hit m ray Hvalid) as (tri & pre & Htri & Hpick & Hcp).
    do 6 eexists. split; [exact Hrun|]. split; [exact Hpick|].
    split; [reflexivity | intros Hx; congruence].
  - destruct (pick_miss m ray Hvalid) as (pre & Hcp & Hpick).
    fold m1 in Hpick.
    destruct (KDTreeN.closestPair (kdtree m1) ray (-1) true) as [cp|] eqn:Hpair.
    + destruct (Qle_bool_reflect 0 (projection cp ray)) as [Hge | Hlt].
      * destruct Hpick as (tri & _ & Hpick).
        do 6 eexists. split; [exact Hrun|]. split; [exact Hpick|].
        split; [reflexivity|]. rewrite Hpair. intros _ Hneg. exfalso. lra.
      * do 6 eexists. split; [exact Hrun|]. split; [exact Hpick|].
        split; [now rewrite Hvp|]. rewrite Hpair. intros _ Hneg. auto.
    + do 6 eexists. split; [exact Hrun|]. split; [exact Hpick|].
      split; [now rewrite Hvp|]. intros _ _.
      split; [reflexivity | auto].
Qed.

(** *** Queries check the flag first *)

Lemma invalidations_run (n : nat) (m : Model) :
  (1 <= n)%nat ->
  invalidations n m = Done tt (set_valid_kdtree false m) [].
Proof.
  intros Hn. destruct n as [|n]; [lia|]. clear Hn.
  revert m. induction n as [|n IH]; intros m.
  - reflexivity.
  - change (invalidations (S (S n)) m)
      with (Browse3D.bind invalidateKDTree
                          (fun _ => invalidations (S n)) m).
    unfold Browse3D.bind, Browse3D.invalidateKDTree, Browse3D.modify.
    rewrite IH. destruct m; reflexivity.
Qed.

(** C3 (as amended).  The ray queries check the flag of the face tree first
    in every state, and so does [closestPoint] on a model that is not empty
    (with acceleration: one that has a mesh group): with the flag false the
    tree is rebuilt once, the flag set, and the answer taken from the rebuilt
    tree; with the flag true nothing is rebuilt and the tree is untouched.
    Any number of invalidations before a query thus costs one rebuild, at the
    next query, and none at the query after. *)
Theorem queries_rebuild_lazily (m : Model) (ray : Ray3) (max_time : Real) :
  lazily_answers (rayIntersects ray max_time) (CallRayIntersects ray max_time)
                 (fun k => KDTreeN.rayIntersects k ray max_time) m
  /\ lazily_answers (rayIntersectionTime ray max_time)
                    (CallRayIntersectionTime ray max_time)
                    (fun k => KDTreeN.rayIntersectionTime k ray max_time) m
  /\ lazily_answers (rayIntersection ray max_time)
                    (CallRayStructureIntersection ray max_time)
                    (fun k => KDTreeN.rayStructureIntersection k ray max_time) m
  /\ (forall query bound out accelerate_with_vertices,
         isEmpty m = false ->
         (accelerate_with_vertices = true -> mesh_group m <> None) ->
         lazily_rebuilds (closestPoint query bound out accelerate_with_vertices) m)
  /\ (forall n, (1 <= n)%nat ->
        exists m0 isec1 m1 log1 isec2 m2 log2,
          invalidations n m = Done tt m0 []
          /\ valid_kdtree m0 = false
          /\ rayIntersection ray max_time m0 = Done isec1 m1 log1
          /\ rebuilds FaceTree log1 = 1%nat
          /\ rayIntersection ray max_time m1 = Done isec2 m2 log2
          /\ rebuilds FaceTree log2 = 0%nat).
Proof.
  assert (Hlast : forall (pre : list (@Event Vector3 Ray3 AffineTransform3)) c,
             (forall b, c <> CallClear b) ->
             rebuilds FaceTree (pre ++ [Call FaceTree c]) = rebuilds FaceTree pre).
  { intros pre c Hc. rewrite rebuilds_app. unfold rebuilds at 2. simpl.
    destruct c; simpl; try lia. exfalso. now apply (Hc deallocate_all_memory). }
  split; [|split; [|split; [|split]]].
  - destruct (rayIntersects_run m ray max_time) as (pre & Hrun & Hf & _).
    exists (face_updated m), pre.
    split; [exact Hrun|]. split; [apply face_updated_valid|].
    split; [exact Hf|]. intros Hv. now rewrite face_updated_same.
  - destruct (rayIntersectionTime_run m ray max_time) as (pre & Hrun & Hf & _).
    exists (face_updated m), pre.
    split; [exact Hrun|]. split; [apply face_updated_valid|].
    split; [exact Hf|]. intros Hv. now rewrite face_updated_same.
  - destruct (rayIntersection_run m ray max_time) as (pre & Hrun & Hf & _).
    exists (face_updated m), pre.
    split; [exact Hrun|]. split; [apply face_updated_valid|].
    split; [exact Hf|]. intros Hv. now rewrite face_updated_same.
  - intros query bound out acc Hne Hacc. destruct acc.
    + destruct (mesh_group m) as [g|] eqn:Hg; [|now exfalso; apply Hacc].
      destruct (@closestPoint_accel_run m g query bound out Hne Hg)
        as (pre1 & pre2 & Hrun & Hf1 & Hf2).
      do 3 eexists. split; [exact Hrun|].
      split; [apply face_updated_valid|]. split.
      * rewrite rebuilds_app, Hf1, rebuilds_cons. cbn [is_rebuild_of plus].
        rewrite Hlast by discriminate. exact Hf2.
      * intros Hv. rewrite kdtree_face_of_vertex_updated.
        now rewrite face_updated_same.
    + destruct (@closestPoint_plain_run m query bound out Hne) as (pre & Hrun & Hf & _).
      do 3 eexists. split; [exact Hrun|].
      split; [apply face_updated_valid|]. split.
      * rewrite Hlast by discriminate. exact Hf.
      * intros Hv. now rewrite face_updated_same.
  - intros n Hn.
    destruct (rayIntersection_run (set_valid_kdtree false m) ray max_time)
      as (pre1 & Hrun1 & Hf1 & _).
    destruct (rayIntersection_run (face_updated (set_valid_kdtree false m))
                                  ray max_time)
      as (pre2 & Hrun2 & Hf2 & _).
    do 7 eexists. split; [now apply invalidations_run|].
    split; [reflexivity|]. split; [exact Hrun1|].
    split; [rewrite Hlast by discriminate; exact Hf1|].
    split; [exact Hrun2|].
    rewrite Hlast by discriminate. rewrite Hf2.
    now rewrite face_updated_valid.
Qed.

(** *** Transforms of flagged-valid trees *)

(** C9 (as amended).  The invariant that a flagged-valid tree stores the
    model's transform is preserved by [setTransform] and [clearTransform],
    which forward the change to a tree exactly when its flag is true, and by
    the invalidate operations.  [updateKDTree] and [updateVertexKDTree] leave
    a flagged-valid tree alone; on a model with a mesh group and a transform
    they return with the flag true and the model's transform stored in the
    tree, the invariant preserved. *)
Theorem transform_synced_preserved (m : Model) :
  transform_synced m ->
  (forall T,
      exists m' log,
        setTransform T m = Done tt m' log
        /\ transform_synced m'
        /\ kdtree m' = (if valid_kdtree m
                        then KDTreeN.setTransform T (kdtree m) else kdtree m)
        /\ vertex_kdtree m' = (if valid_vertex_kdtree m
                               then KDTreeN.setTransform T (vertex_kdtree m)
                               else vertex_kdtree m))
  /\ (exists m' log,
         clearTransform m = Done tt m' log
         /\ transform_synced m'
         /\ kdtree m' = (if valid_kdtree m
                         then KDTreeN.clearTransform (kdtree m) else kdtree m)
         /\ vertex_kdtree m' = (if valid_vertex_kdtree m
                                then KDTreeN.clearTransform (vertex_kdtree m)
                                else vertex_kdtree m))
  /\ (exists m', invalidateKDTree m = Done tt m' [] /\ transform_synced m')
  /\ (exists m', invalidateVertexKDTree m = Done tt m' [] /\ transform_synced m')
  /\ (exists m', invalidateAll m = Done tt m' [] /\ transform_synced m')
  /\ (valid_kdtree m = true -> updateKDTree m = Done tt m [])
  /\ (valid_vertex_kdtree m = true -> updateVertexKDTree m = Done tt m [])
  /\ (forall g t,
         mesh_group m = Some g -> trans m = Some t ->
         (exists m' log,
             updateKDTree m = Done tt m' log
             /\ valid_kdtree m' = true
             /\ kd_trans (kdtree m') = Some t
             /\ transform_synced m')
         /\ (exists m' log,
                updateVertexKDTree m = Done tt m' log
                /\ valid_vertex_kdtree m' = true
                /\ kd_trans (vertex_kdtree m') = Some t
                /\ transform_synced m')).
Proof.
  unfold transform_synced.
  destruct m as [mg pc tr vp ps vk k vvk vtx]. simpl. intros [Hf Hv].
  repeat apply conj.
  - intros T. unfold Browse3D.setTransform. unfold_monad.
    destruct vk, vvk; simpl; do 2 eexists;
      (split; [reflexivity|]); simpl; intuition congruence.
  - unfold Browse3D.clearTransform. unfold_monad.
    destruct vk, vvk; simpl; do 2 eexists;
      (split; [reflexivity|]); simpl; intuition congruence.
  - eexists. split; [reflexivity|]. simpl. intuition congruence.
  - eexists. split; [reflexivity|]. simpl. intuition congruence.
  - eexists. split; [reflexivity|]. simpl. intuition congruence.
  - intros ->. reflexivity.
  - intros ->. reflexivity.
  - intros g t -> ->. split.
    + unfold Browse3D.updateKDTree. unfold_monad.
      destruct vk; simpl; do 2 eexists; (split; [reflexivity|]); simpl;
        intuition congruence.
    + unfold Browse3D.updateVertexKDTree. unfold_monad.
      destruct vvk; simpl; do 2 eexists; (split; [reflexivity|]); simpl;
        intuition congruence.
Qed.

(** *** A missing mesh group *)

Lemma not_empty_cloud (m : Model) :
  isEmpty m = false -> mesh_group m = None -> point_cloud m <> None.
Proof.
  unfold isEmpty. intros He Hg. rewrite Hg in He. simpl in He.
  destruct (point_cloud m); [discriminate | discriminate He].
Qed.

Lemma closestPoint_null (m : Model) (query : Vector3) (bound : Real)
      (out : Outputs) :
  isEmpty m = false -> mesh_group m = None -> valid_vertex_kdtree m = false ->
  closestPoint query bound out true m = Failed NullPointer.
Proof.
  intros He Hg Hv. unfold Browse3D.closestPoint.
  unfold Browse3D.bind at 1. unfold Browse3D.gets at 1. rewrite He. simpl.
  unfold Browse3D.bind at 1. unfold Browse3D.bind at 1.
  now rewrite (updateVertexKDTree_null m Hv Hg).
Qed.

(** *** Trees after an update *)

Lemma face_updated_built (m : Model) :
  (valid_kdtree m = true -> built (kdtree m)) -> built (kdtree (face_updated m)).
Proof.
  unfold face_updated. intros Hb.
  destruct (valid_kdtree m); [now apply Hb|].
  simpl. unfold rebuilt_face.
  destruct (mesh_group m) as [g|]; [|apply built_clear].
  destruct (trans m) as [t|]; [apply built_setTransform|]; apply built_init.
Qed.

Lemma face_updated_elems (m : Model) :
  valid_kdtree m = false ->
  kd_elems (kdtree (face_updated m))
  = match mesh_group m with
    | Some g => group_triangles g
    | None => []
    end.
Proof.
  unfold face_updated. intros ->. simpl. unfold rebuilt_face.
  destruct (mesh_group m) as [g|]; [|reflexivity].
  destruct (trans m) as [t|]; reflexivity.
Qed.

Lemma face_updated_trans (g : MeshGroup) (m : Model) :
  mesh_group m = Some g -> transform_synced m -> no_stale_transform m ->
  kd_trans (kdtree (face_updated m)) = trans m.
Proof.
  unfold face_updated, transform_synced, no_stale_transform.
  intros Hg [Hs _] Hn. destruct (valid_kdtree m); [now apply Hs|].
  simpl. unfold rebuilt_face. rewrite Hg.
  destruct (trans m) as [t|]; simpl; [reflexivity | now apply Hn].
Qed.

Lemma vertex_updated_trans (g : MeshGroup) (m : Model) :
  transform_synced m -> no_stale_transform m ->
  kd_trans (vertex_kdtree (vertex_updated g m)) = trans m.
Proof.
  unfold vertex_updated, transform_synced, no_stale_transform.
  intros [_ Hs] Hn. destruct (valid_vertex_kdtree m); [now apply Hs|].
  simpl. unfold rebuilt_vertex.
  destruct (trans m) as [t|]; simpl; try reflexivity; now apply Hn.
Qed.

Lemma vertex_updated_built (g : MeshGroup) (m : Model) :
  (valid_vertex_kdtree m = true -> built (vertex_kdtree m)) ->
  built (vertex_kdtree (vertex_updated g m)).
Proof.
  unfold vertex_updated. intros Hb.
  destruct (valid_vertex_kdtree m); [now apply Hb|].
  simpl. unfold rebuilt_vertex.
  destruct (trans m) as [t|]; [apply built_setTransform|]; apply built_init_range.
Qed.

Lemma face_updated_current (g : MeshGroup) (m : Model) :
  mesh_group m = Some g -> trees_current m ->
  kd_elems (kdtree (face_updated m)) = group_triangles g.
Proof.
  intros Hg [Hc _]. destruct (valid_kdtree m) eqn:Hv.
  - rewrite (face_updated_same m Hv), (Hc eq_refl), Hg. reflexivity.
  - rewrite (face_updated_elems m Hv), Hg. reflexivity.
Qed.

Lemma vertex_updated_current (g : MeshGroup) (m : Model) :
  mesh_group m = Some g -> trees_current m ->
  kd_elems (vertex_kdtree (vertex_updated g m)) = group_vertices g.
Proof.
  intros Hg [_ Hc]. unfold vertex_updated.
  destruct (valid_vertex_kdtree m) eqn:Hv.
  - rewrite (Hc eq_refl), Hg. reflexivity.
  - simpl. unfold rebuilt_vertex. destruct (trans m); reflexivity.
Qed.

Lemma object_point_query {Elem : Type} (k : KDTree Elem Box AffineTransform3)
      (m : Model) (query : Vector3) :
  kd_trans k = trans m -> object_point k query = object_query m query.
Proof. unfold object_point, object_query. now intros ->. Qed.

(** *** States a model can reach *)

(** What holds of every model a caller can have: a flagged-valid tree is a
    hierarchy over the triangles, or the vertices, of the current mesh group;
    and a model whose only geometry is a point cloud has never had its vertex
    tree rebuilt. *)
Definition sane (m : Model) : Prop :=
  trees_built m /\ trees_current m
  /\ (mesh_group m = None -> point_cloud m <> None ->
      valid_vertex_kdtree m = false).

(** Geometry, flags, primitives and hierarchies are the same in both. *)
Definition same_trees (m m' : Model) : Prop :=
  mesh_group m' = mesh_group m
  /\ point_cloud m' = point_cloud m
  /\ valid_kdtree m' = valid_kdtree m
  /\ valid_vertex_kdtree m' = valid_vertex_kdtree m
  /\ kd_elems (kdtree m') = kd_elems (kdtree m)
  /\ kd_root (kdtree m') = kd_root (kdtree m)
  /\ kd_elems (vertex_kdtree m') = kd_elems (vertex_kdtree m)
  /\ kd_root (vertex_kdtree m') = kd_root (vertex_kdtree m).

Lemma same_trees_refl (m : Model) : same_trees m m.
Proof. repeat split. Qed.

Lemma same_trees_sane (m m' : Model) : same_trees m m' -> sane m -> sane m'.
Proof.
  unfold same_trees, sane, trees_built, trees_current.
  intros (Hg & Hc & Hv & Hw & He & Hr & Hve & Hvr).
  rewrite Hg, Hc, Hv, Hw, He, Hr, Hve, Hvr. auto.
Qed.

Lemma invalid_sane (m : Model) :
  valid_kdtree m = false -> valid_vertex_kdtree m = false -> sane m.
Proof.
  unfold sane, trees_built, trees_current. intros -> ->.
  repeat split; try discriminate; auto.
Qed.

Lemma face_updated_sane (m : Model) : sane m -> sane (face_updated m).
Proof.
  intros Hs. destruct (valid_kdtree m) eqn:Hv.
  - now rewrite (face_updated_same m Hv).
  - destruct Hs as ([_ Hbv] & [_ Hcv] & Hcloud).
    pose proof (face_updated_built m) as Hb.
    pose proof (face_updated_elems m Hv) as He.
    unfold face_updated in *. rewrite Hv in *. simpl in *.
    repeat split; simpl; auto.
    intros _. apply Hb. discriminate.
Qed.

Lemma vertex_updated_sane (g : MeshGroup) (m : Model) :
  mesh_group m = Some g -> sane m -> sane (vertex_updated g m).
Proof.
  intros Hg Hs. unfold vertex_updated.
  destruct (valid_vertex_kdtree m) eqn:Hv; [exact Hs|].
  destruct Hs as ([Hbf _] & [Hcf _] & _).
  repeat split; simpl; auto.
  - intros _. unfold rebuilt_vertex.
    destruct (trans m); [apply built_setTransform|]; apply built_init_range.
  - intros _. rewrite Hg. unfold rebuilt_vertex. destruct (trans m); reflexivity.
  - rewrite Hg. discriminate.
Qed.

Lemma pick_trees (m m' : Model) (ray : Ray3) (t : Real)
      (log : list (@Event Vector3 Ray3 AffineTransform3)) :
  pick ray m = Done t m' log -> same_trees (face_updated m) m'.
Proof.
  destruct (isValid (KDTreeN.rayStructureIntersection
                       (kdtree (face_updated m)) ray default_max_time)) eqn:Hvalid.
  - destruct (pick_hit m ray Hvalid) as (tri & pre & _ & Hpick & _).
    rewrite Hpick. intros E. injection E as _ <- _. repeat split.
  - destruct (pick_miss m ray Hvalid) as (pre & _ & Hpick).
    destruct (KDTreeN.closestPair (kdtree (face_updated m)) ray (-1) true) as [cp|].
    + destruct (Qle_bool 0 (projection cp ray)).
      * destruct Hpick as (tri & _ & Hpick).
        rewrite Hpick. intros E. injection E as _ <- _. repeat split.
      * rewrite Hpick. intros E. injection E as _ <- _. repeat split.
    + rewrite Hpick. intros E. injection E as _ <- _. repeat split.
Qed.

Lemma load_sane (path_ : string) (f : Loaded) (m m' : Model) (b : bool)
      (log : list (@Event Vector3 Ray3 AffineTransform3)) :
  sane m -> load path_ f m = Done b m' log -> sane m'.
Proof.
  intros Hm.
  destruct f as [|c ok|[g|]]; unfold load, Browse3D.clear, clearMesh,
    clearPoints, Browse3D.invalidateAll, Browse3D.invalidateKDTree,
    Browse3D.invalidateVertexKDTree; unfold_monad; simpl.
  - intros E. injection E as _ <- _. exact Hm.
  - destruct ok; simpl; intros E; injection E as _ <- _;
      now apply invalid_sane.
  - intros E. injection E as _ <- _. now apply invalid_sane.
  - intros E. injection E as _ <- _. exact Hm.
Qed.

Lemma invalidate_sane (m : Model) (face vertex : bool) :
  sane m ->
  sane (set_valid_kdtree (valid_kdtree m && face)
          (set_valid_vertex_kdtree (valid_vertex_kdtree m && vertex) m)).
Proof.
  unfold sane, trees_built, trees_current.
  destruct m as [mg pc tr vp ps vk k vvk vtx]. simpl.
  intros ([Hbf Hbv] & [Hcf Hcv] & Hcloud).
  repeat split; intros H; try apply andb_true_iff in H as [H _]; auto.
  intros Hpc. rewrite (Hcloud H Hpc). reflexivity.
Qed.

Lemma exec_sane (c : Method) (m m' : Model)
      (log : list (@Event Vector3 Ray3 AffineTransform3)) :
  sane m -> exec c m = Done tt m' log -> sane m'.
Proof.
  intros Hm.
  destruct c as [path_ f | | t | | | | | |
                 | ray max_time | ray max_time | ray max_time
                 | q distance_bound out accelerate_with_vertices | ray | ];
    cbn [Browse3D.exec].
  - (* load *)
    unfold Browse3D.bind.
    destruct (load path_ f m) as [b m1 l1|] eqn:Hload; [|discriminate].
    unfold Browse3D.ret. intros E. injection E as <- _.
    eapply load_sane; eassumption.
  - (* clear *)
    unfold Browse3D.clear, clearMesh, clearPoints, Browse3D.invalidateAll,
      Browse3D.invalidateKDTree, Browse3D.invalidateVertexKDTree.
    unfold_monad. intros E. injection E as <- _. now apply invalid_sane.
  - (* setTransform *)
    destruct (setTransform_run m t) as (m1 & l1 & Hrun & Hfr & _).
    rewrite Hrun. intros E. injection E as <- _.
    apply (@same_trees_sane m); [|exact Hm].
    unfold only_transform_changed in Hfr. unfold same_trees. tauto.
  - (* clearTransform *)
    destruct (clearTransform_run m) as (m1 & l1 & Hrun & Hfr & _).
    rewrite Hrun. intros E. injection E as <- _.
    apply (@same_trees_sane m); [|exact Hm].
    unfold only_transform_changed in Hfr. unfold same_trees. tauto.
  - (* invalidateAll *)
    intros E. injection E as <- _. now apply invalid_sane.
  - (* invalidateKDTree *)
    intros E. injection E as <- _.
    pose proof (invalidate_sane false true Hm) as H.
    rewrite andb_false_r, andb_true_r in H.
    destruct m; exact H.
  - (* invalidateVertexKDTree *)
    intros E. injection E as <- _.
    pose proof (invalidate_sane true false Hm) as H.
    rewrite andb_false_r, andb_true_r in H.
    destruct m; exact H.
  - (* updateKDTree *)
    destruct (updateKDTree_run m) as (l1 & Hrun & _).
    rewrite Hrun. intros E. injection E as <- _.
    now apply face_updated_sane.
  - (* updateVertexKDTree *)
    destruct (valid_vertex_kdtree m) eqn:Hv.
    + rewrite (updateVertexKDTree_valid m Hv).
      intros E. injection E as <- _. exact Hm.
    + destruct (mesh_group m) as [g|] eqn:Hg.
      * destruct (updateVertexKDTree_run m Hg) as (l1 & Hrun & _).
        rewrite Hrun. intros E. injection E as <- _.
        now apply vertex_updated_sane.
      * rewrite (updateVertexKDTree_null m Hv Hg). discriminate.
  - (* rayIntersects *)
    destruct (rayIntersects_run m ray max_time) as (pre & Hrun & _).
    unfold Browse3D.bind. rewrite Hrun. unfold Browse3D.ret.
    intros E. injection E as <- _. now apply face_updated_sane.
  - (* rayIntersectionTime *)
    destruct (rayIntersectionTime_run m ray max_time) as (pre & Hrun & _).
    unfold Browse3D.bind. rewrite Hrun. unfold Browse3D.ret.
    intros E. injection E as <- _. now apply face_updated_sane.
  - (* rayIntersection *)
    destruct (rayIntersection_run m ray max_time) as (pre & Hrun & _).
    unfold Browse3D.bind. rewrite Hrun. unfold Browse3D.ret.
    intros E. injection E as <- _. now apply face_updated_sane.
  - (* closestPoint *)
    unfold Browse3D.bind.
    destruct (isEmpty m) eqn:He.
    + unfold Browse3D.closestPoint. unfold_monad. rewrite He. simpl.
      intros E. injection E as <- _. exact Hm.
    + destruct accelerate_with_vertices.
      * destruct (mesh_group m) as [g|] eqn:Hg.
        -- destruct (@closestPoint_accel_run m g q distance_bound out He Hg)
             as (pre1 & pre2 & Hrun & _).
           rewrite Hrun. unfold Browse3D.ret. intros E. injection E as <- _.
           now apply face_updated_sane, vertex_updated_sane.
        -- destruct Hm as (_ & _ & Hcloud).
           rewrite (@closestPoint_null m q distance_bound out He Hg
                                       (Hcloud Hg (@not_empty_cloud m He Hg))).
           discriminate.
      * destruct (@closestPoint_plain_run m q distance_bound out He)
          as (pre & Hrun & _).
        rewrite Hrun. unfold Browse3D.ret. intros E. injection E as <- _.
        now apply face_updated_sane.
  - (* pick *)
    unfold Browse3D.bind.
    destruct (pick ray m) as [t m1 l1|] eqn:Hpick; [|discriminate].
    unfold Browse3D.ret. intros E. injection E as <- _.
    apply (@same_trees_sane (face_updated m));
      [exact (@pick_trees m m1 ray t l1 Hpick) | now apply face_updated_sane].
  - (* invalidatePick *)
    intros E. injection E as <- _.
    apply (@same_trees_sane m); [repeat split | exact Hm].
Qed.

Lemma reachable_sane (m : Model) : reachable m -> sane m.
Proof.
  induction 1 as [sample initial_mesh f m log Hc | c m m' log _ IH Hstep].
  - revert Hc. unfold construct. unfold Browse3D.bind at 1.
    destruct (load initial_mesh f _) as [b m1 l1|] eqn:Hload; [|discriminate].
    unfold Browse3D.modify. intros E. injection E as <- _.
    apply (@same_trees_sane m1); [repeat split|].
    eapply load_sane; [|exact Hload].
    repeat split; simpl; try reflexivity; intros; try discriminate.
    now contradiction.
  - eapply exec_sane; eassumption.
Qed.

(** *** The vertex-accelerated path and the mesh group *)

(** C8. A non-null [mesh_group] is a precondition of the vertex-accelerated
    path.  On a reachable model that is not empty and has no mesh group (its
    only geometry is a point cloud), [closestPoint] with
    [accelerate_with_vertices] dereferences the null [mesh_group] in
    [updateVertexKDTree]; with a mesh group it returns.  [updateKDTree], which
    tests [mesh_group], returns in every state, while [updateVertexKDTree]
    faults whenever it has to rebuild without a mesh group. *)
Theorem vertex_path_needs_mesh_group :
  (forall (m : Model) query bound out,
      reachable m -> mesh_group m = None -> isEmpty m = false ->
      closestPoint query bound out true m = Failed NullPointer)
  /\ (forall (m : Model) query bound out,
         mesh_group m <> None ->
         exists r m' log, closestPoint query bound out true m = Done r m' log)
  /\ (forall m : Model, exists m' log, updateKDTree m = Done tt m' log)
  /\ (forall m : Model,
         valid_vertex_kdtree m = false -> mesh_group m = None ->
         updateVertexKDTree m = Failed NullPointer).
Proof.
  split; [|split; [|split]].
  - intros m query bound out Hr Hg He.
    apply closestPoint_null; [exact He | exact Hg |].
    destruct (reachable_sane Hr) as (_ & _ & Hcloud).
    apply (Hcloud Hg). now apply not_empty_cloud.
  - intros m query bound out Hg.
    destruct (isEmpty m) eqn:He.
    + do 3 eexists. unfold Browse3D.closestPoint. unfold_monad.
      rewrite He. reflexivity.
    + destruct (mesh_group m) as [g|] eqn:Hmg; [|contradiction].
      destruct (@closestPoint_accel_run m g query bound out He Hmg)
        as (pre1 & pre2 & Hrun & _).
      do 3 eexists. exact Hrun.
  - intros m. destruct (updateKDTree_run m) as (log & Hrun & _).
    do 2 eexists. exact Hrun.
  - intros m. apply updateVertexKDTree_null.
Qed.

(** *** Ray queries return the nearest hit *)


(** *** The two-tier query *)

(** The bound tightened by the vertex tree gives the answer of the original
    bound, when every vertex has a triangle at least as near. *)
Lemma tightened_answer (m : Model) (g : MeshGroup) (query : Vector3)
      (bound : Real) (out : Outputs) :
  mesh_group m = Some g ->
  trees_built m -> trees_current m ->
  transform_synced m -> no_stale_transform m ->
  anchored g (object_query m query) ->
  answer_of (kdtree (face_updated m)) query
            (tightened (vertex_kdtree (vertex_updated g m)) query bound) out
  = answer_of (kdtree (face_updated m)) query bound out.
Proof.
  intros Hg [Hbf Hbv] Hcur Hsync Hstale Hanch.
  set (kf := kdtree (face_updated m)).
  set (vk := vertex_kdtree (vertex_updated g m)).
  assert (Hqf : object_point kf query = object_query m query)
    by (apply object_point_query, (@face_updated_trans g); assumption).
  assert (Hqv : object_point vk query = object_query m query)
    by (apply object_point_query, vertex_updated_trans; assumption).
  assert (Hkf : built kf) by (apply face_updated_built, Hbf).
  assert (Hvk : built vk) by (apply vertex_updated_built, Hbv).
  unfold tightened.
  destruct (closestElement_spec vk query bound 0 None Hvk)
    as [(_ & Hr & _) | (i & v & _ & _ & Hn & Hr & Hw & _)]; rewrite Hr.
  - reflexivity.
  - replace (0 <=? Z.of_nat i)%Z with true
      by (symmetry; apply Z.leb_le; lia).
    rewrite Hqv in *.
    destruct (Hanch v) as (t & Ht & Hle).
    { unfold vk in Hn. rewrite (vertex_updated_current Hg Hcur) in Hn.
      eapply nth_error_In, Hn. }
    assert (Hin : In t (kd_elems kf))
      by (unfold kf; now rewrite (face_updated_current Hg Hcur)).
    apply In_nth_error in Hin as [j Hj].
    unfold answer_of.
    rewrite (@closestElement_tighten _ _ _ _ _ _ _ _ _ kf query bound
               (distance v (object_query m query)) 0 (closest_pt out) Hkf).
    + reflexivity.
    + apply distance_nonneg.
    + exact Hw.
    + exists j, t. rewrite Hqf. auto.
Qed.

Lemma start_in_range {Elem : Type} (elems : list Elem)
      (key : Elem -> option Real) (bound : option Real) :
  in_range elems key (start bound).
Proof. intros i Hi. discriminate. Qed.

(** C1 (as amended).  On a model a caller can have, with a mesh group, whose
    trees hold no transform other than the model's, and every vertex of
    which has a triangle at least as near to the query (anchors lie on
    primitives), [closestPoint] with [accelerate_with_vertices] returns the
    index and the outputs that it returns without acceleration, and leaves
    the same face tree.  That answer agrees with a brute-force scan of the
    triangles in index order: both find nothing within the bound, or both
    find a triangle, at equal distances, the minimum over all triangles, and
    at the same index unless another triangle is at that distance. *)
Theorem accelerated_closestPoint_agrees (m : Model) (g : MeshGroup)
        (query : Vector3) (bound : Real) (out : Outputs) :
  reachable m -> mesh_group m = Some g -> isEmpty m = false ->
  transform_synced m -> no_stale_transform m ->
  anchored g (object_query m query) ->
  exists r m1 log1 m2 log2,
    closestPoint query bound out true m = Done r m1 log1
    /\ closestPoint query bound out false m = Done r m2 log2
    /\ kdtree m1 = kdtree m2
    /\ kd_elems (kdtree m2) = group_triangles g
    /\ let q := object_query m query in
       let bf := brute_force (group_triangles g) (dist_key q) (bound_of bound) in
       (fst r = (-1)%Z /\ snd r = out /\ best_index bf = None)
       \/ (exists i e j e',
              fst r = Z.of_nat i
              /\ nth_error (group_triangles g) i = Some e
              /\ min_dist (snd r) = option_map (fun _ => distance e q) (min_dist out)
              /\ within (distance e q) (bound_of bound)
              /\ (forall j' e'', nth_error (group_triangles g) j' = Some e'' ->
                                 distance e q <= distance e'' q)
              /\ best_index bf = Some j
              /\ nth_error (group_triangles g) j = Some e'
              /\ best_value bf = Some (distance e' q)
              /\ distance e q == distance e' q
              /\ ((forall j' e'', j' <> i ->
                                  nth_error (group_triangles g) j' = Some e'' ->
                                  ~ distance e'' q == distance e q) ->
                  j = i)).
Proof.
  intros Hreach Hg He Hsync Hstale Hanch.
  destruct (reachable_sane Hreach) as (Hbuilt & Hcur & _).
  destruct (@closestPoint_accel_run m g query bound out He Hg)
    as (pre1 & pre2 & Hrun1 & _).
  destruct (@closestPoint_plain_run m query bound out He) as (pre & Hrun2 & _).
  rewrite (tightened_answer query bound out Hg Hbuilt Hcur Hsync Hstale Hanch)
    in Hrun1.
  do 5 eexists. split; [exact Hrun1|]. split; [exact Hrun2|].
  split; [apply kdtree_face_of_vertex_updated|].
  pose proof (face_updated_current Hg Hcur) as Helems.
  split; [exact Helems|].
  set (kf := kdtree (face_updated m)) in *.
  assert (Hqf : object_point kf query = object_query m query)
    by (apply object_point_query, (@face_updated_trans g); assumption).
  assert (Hkf : built kf) by (apply face_updated_built, Hbuilt).
  intros q bf.
  destruct (@query_brute_force Triangle Box BV PAT (kd_elems kf) (dist_key q)
              (dist_beyond q)
              (@closer_first Triangle Box Vector3 BV PAT Vector3 MTP q)
              (@dist_beyond_sound _ _ _ _ _ _ MTP q)
              (kd_root kf) (bound_of bound) Hkf) as [Hnone Hsome].
  pose proof (@scan_in_range _ (kd_elems kf) (dist_key q)
                             (seq 0 (length (kd_elems kf))) _
                             (@start_in_range _ (kd_elems kf) (dist_key q)
                                              (bound_of bound)))
    as Hrange.
  fold (brute_force (kd_elems kf) (dist_key q) (bound_of bound)) in Hrange.
  assert (Hbf : brute_force (kd_elems kf) (dist_key q) (bound_of bound) = bf)
    by (unfold bf; now rewrite Helems).
  rewrite Hbf in Hnone, Hsome, Hrange.
  unfold answer_of.
  destruct (closestElement_spec kf query bound 0 (closest_pt out) Hkf)
    as [(Hb & Hr & _) | (i & e & Hb & Hv & Hn & Hr & Hw & Hmin)];
    rewrite Hr; rewrite Hqf in *; fold q in Hb.
  - left. simpl. split; [reflexivity|].
    split; [destruct out; reflexivity|].
    apply Hnone. exact Hb.
  - right. fold q in Hv, Hw, Hmin.
    replace (0 <=? Z.of_nat i)%Z with true
      by (symmetry; apply Z.leb_le; lia).
    destruct (Hsome i Hb) as (v & j & v' & Hv1 & Hj & Hv' & Heq & Huniq).
    destruct (Hrange j Hj) as (e' & v'' & Hn' & Hk' & Hv'').
    unfold dist_key in Hk'. injection Hk' as <-.
    assert (v = distance e q) by (unfold nearest in Hv; congruence). subst v.
    assert (v' = distance e' q) by congruence. subst v'.
    rewrite Helems in Hn, Hn', Hmin.
    exists i, e, j, e'. simpl.
    do 9 (split; [auto|]).
    intros Hu. apply Huniq. intros j' e'' v'' Hne Hn'' Hk''.
    unfold dist_key in Hk''. injection Hk'' as <-.
    apply (Hu j' e''); [exact Hne|]. now rewrite <- Helems.
Qed.

(** *** What loading and the queries leave alone *)

(** Everything but the two trees and their flags is the same in [m] and
    [m'], and a tree flagged valid in [m] is still flagged valid and is the
    same tree in [m']. *)
Definition caches_only (m m' : Model) : Prop :=
  mesh_group m' = mesh_group m
  /\ point_cloud m' = point_cloud m
  /\ trans m' = trans m
  /\ valid_pick m' = valid_pick m
  /\ picked_sample m' = picked_sample m
  /\ (valid_kdtree m = true -> valid_kdtree m' = true /\ kdtree m' = kdtree m)
  /\ (valid_vertex_kdtree m = true ->
      valid_vertex_kdtree m' = true /\ vertex_kdtree m' = vertex_kdtree m).

Lemma caches_only_refl (m : Model) : caches_only m m.
Proof. unfold caches_only. repeat split; auto. Qed.

Lemma caches_only_face_updated (m : Model) : caches_only m (face_updated m).
Proof.
  unfold face_updated. destruct m as [mg pc tr vp ps vk k vvk vtx]. simpl.
  destruct vk; unfold caches_only; simpl; repeat split; auto; discriminate.
Qed.

Lemma caches_only_vertex_updated (g : MeshGroup) (m : Model) :
  caches_only m (vertex_updated g m).
Proof.
  unfold vertex_updated. destruct m as [mg pc tr vp ps vk k vvk vtx]. simpl.
  destruct vvk; unfold caches_only; simpl; repeat split; auto; discriminate.
Qed.

Lemma caches_only_trans (m1 m2 m3 : Model) :
  caches_only m1 m2 -> caches_only m2 m3 -> caches_only m1 m3.
Proof.
  unfold caches_only.
  intros (A1 & A2 & A3 & A4 & A5 & A6 & A7) (B1 & B2 & B3 & B4 & B5 & B6 & B7).
  repeat split; try congruence.
  - destruct (A6 H) as [Hv _]. now destruct (B6 Hv).
  - destruct (A6 H) as [Hv Hk]. destruct (B6 Hv) as [_ Hk']. congruence.
  - destruct (A7 H) as [Hv _]. now destruct (B7 Hv).
  - destruct (A7 H) as [Hv Hk]. destruct (B7 Hv) as [_ Hk']. congruence.
Qed.

Lemma closestPoint_caches_only (m m' : Model) (query : Vector3) (bound : Real)
      (out : Outputs) (accelerate_with_vertices : bool) (a : Z * Outputs)
      (log : list (@Event Vector3 Ray3 AffineTransform3)) :
  closestPoint query bound out accelerate_with_vertices m = Done a m' log ->
  caches_only m m'.
Proof.
  destruct (isEmpty m) eqn:He.
  - unfold Browse3D.closestPoint. unfold_monad. rewrite He. simpl.
    intros E. injection E as _ <- _. apply caches_only_refl.
  - destruct accelerate_with_vertices.
    + destruct (mesh_group m) as [g|] eqn:Hg.
      * destruct (@closestPoint_accel_run m g query bound out He Hg)
          as (pre1 & pre2 & Hrun & _).
        rewrite Hrun. intros E. injection E as _ <- _.
        eapply caches_only_trans;
          [apply caches_only_vertex_updated | apply caches_only_face_updated].
      * destruct (valid_vertex_kdtree m) eqn:Hv.
        -- unfold Browse3D.closestPoint. unfold Browse3D.bind at 1.
           unfold Browse3D.gets at 1. rewrite He. cbn [negb].
           unfold Browse3D.bind at 1. unfold Browse3D.bind at 1.
           rewrite (updateVertexKDTree_valid m Hv).
           unfold Browse3D.bind at 1. unfold Browse3D.gets at 1.
           unfold Browse3D.bind at 1. unfold Browse3D.emit at 1.
           destruct (KDTreeN.closestElement (vertex_kdtree m) query bound 0 None)
             as [[vertex_index fast] vpt].
           unfold Browse3D.ret at 1. cbn [app].
           unfold Browse3D.bind at 1.
           destruct (updateKDTree_run m) as (l1 & Hrun & _). rewrite Hrun.
           unfold_monad.
           match goal with
           | |- context [KDTreeN.closestElement (kdtree (face_updated m)) ?q ?b ?d ?p] =>
               destruct (KDTreeN.closestElement (kdtree (face_updated m)) q b d p)
                 as [[index d'] pt]
           end.
           destruct (0 <=? index)%Z; simpl.
           ++ destruct (closest_pt_normal out);
                [destruct (nth_error (kd_elems (kdtree (face_updated m)))
                                     (Z.to_nat index)); [|discriminate]|];
                intros E; injection E as _ <- _; apply caches_only_face_updated.
           ++ intros E. injection E as _ <- _. apply caches_only_face_updated.
        -- unfold Browse3D.closestPoint. unfold Browse3D.bind at 1.
           unfold Browse3D.gets at 1. rewrite He. cbn [negb].
           unfold Browse3D.bind at 1. unfold Browse3D.bind at 1.
           rewrite (updateVertexKDTree_null m Hv Hg). discriminate.
    + destruct (@closestPoint_plain_run m query bound out He) as (pre & Hrun & _).
      rewrite Hrun. intros E. injection E as _ <- _.
      apply caches_only_face_updated.
Qed.

(** X20 (Model::rayIntersects, rayIntersectionTime, rayIntersection,
    closestPoint, updateKDTree, updateVertexKDTree): the methods declared
    const change nothing but the two trees and their flags: whenever one of
    them returns, the geometry, the transform and the pick are as before,
    and a tree that was flagged valid is still flagged valid and
    untouched. *)
Theorem const_methods_change_only_the_trees (m m' : Model)
        (log : list (@Event Vector3 Ray3 AffineTransform3)) :
  (forall ray max_time b,
      rayIntersects ray max_time m = Done b m' log -> caches_only m m')
  /\ (forall ray max_time t,
         rayIntersectionTime ray max_time m = Done t m' log -> caches_only m m')
  /\ (forall ray max_time isec,
         rayIntersection ray max_time m = Done isec m' log -> caches_only m m')
  /\ (forall query bound out accelerate_with_vertices a,
         closestPoint query bound out accelerate_with_vertices m = Done a m' log ->
         caches_only m m')
  /\ (updateKDTree m = Done tt m' log -> caches_only m m')
  /\ (updateVertexKDTree m = Done tt m' log -> caches_only m m').
Proof.
  split; [|split; [|split; [|split; [|split]]]].
  - intros ray max_time b.
    destruct (rayIntersects_run m ray max_time) as (pre & Hrun & _).
    rewrite Hrun. intros E. injection E as _ <- _. apply caches_only_face_updated.
  - intros ray max_time t.
    destruct (rayIntersectionTime_run m ray max_time) as (pre & Hrun & _).
    rewrite Hrun. intros E. injection E as _ <- _. apply caches_only_face_updated.
  - intros ray max_time isec.
    destruct (rayIntersection_run m ray max_time) as (pre & Hrun & _).
    rewrite Hrun. intros E. injection E as _ <- _. apply caches_only_face_updated.
  - intros query bound out accelerate_with_vertices a.
    apply closestPoint_caches_only.
  - destruct (updateKDTree_run m) as (l1 & Hrun & _).
    rewrite Hrun. intros E. injection E as <- _. apply caches_only_face_updated.
  - destruct (valid_vertex_kdtree m) eqn:Hv.
    + rewrite (updateVertexKDTree_valid m Hv).
      intros E. injection E as <- _. apply caches_only_refl.
    + destruct (mesh_group m) as [g|] eqn:Hg.
      * destruct (updateVertexKDTree_run m Hg) as (l1 & Hrun & _).
        rewrite Hrun. intros E. injection E as <- _.
        apply caches_only_vertex_updated.
      * rewrite (updateVertexKDTree_null m Hv Hg). discriminate.
Qed.

Lemma load_keeps_pick (path_ : string) (f : Loaded) (m : Model) :
  exists ok m' log,
    (load path_ f : M bool) m = Done ok m' log
    /\ picked_sample m' = picked_sample m.
Proof.
  destruct f as [|c read|[g|]]; unfold load, Browse3D.clear, clearMesh,
    clearPoints, Browse3D.invalidateAll, Browse3D.invalidateKDTree,
    Browse3D.invalidateVertexKDTree; unfold_monad; simpl;
    try destruct read; simpl; do 3 eexists; split; reflexivity.
Qed.


Lemma exec_picked_type (c : Method) (m m' : Model)
      (log : list (@Event Vector3 Ray3 AffineTransform3)) :
  exec c m = Done tt m' log ->
  type (picked_sample m') = type (picked_sample m).
Proof.
  assert (Hc : forall m1, caches_only m m1 ->
                          type (picked_sample m1) = type (picked_sample m)).
  { intros m1 (_ & _ & _ & _ & Hps & _). now rewrite Hps. }
  destruct c as [path_ f | | t | | | | | |
                 | ray max_time | ray max_time | ray max_time
                 | q distance_bound out accelerate_with_vertices | ray | ];
    cbn [Browse3D.exec].
  - destruct (load_keeps_pick path_ f m) as (ok & m1 & l1 & Hrun & Hps).
    unfold Browse3D.bind. rewrite Hrun. unfold Browse3D.ret.
    intros E. injection E as <- _. now rewrite Hps.
  - unfold Browse3D.clear, clearMesh, clearPoints, Browse3D.invalidateAll,
      Browse3D.invalidateKDTree, Browse3D.invalidateVertexKDTree.
    unfold_monad. intros E. injection E as <- _. reflexivity.
  - destruct (setTransform_run m t) as (m1 & l1 & Hrun & Hfr & _).
    rewrite Hrun. intros E. injection E as <- _.
    destruct Hfr as (_ & _ & _ & Hps & _). now rewrite Hps.
  - destruct (clearTransform_run m) as (m1 & l1 & Hrun & Hfr & _).
    rewrite Hrun. intros E. injection E as <- _.
    destruct Hfr as (_ & _ & _ & Hps & _). now rewrite Hps.
  - intros E. injection E as <- _. reflexivity.
  - intros E. injection E as <- _. reflexivity.
  - intros E. injection E as <- _. reflexivity.
  - destruct (updateKDTree_run m) as (l1 & Hrun & _).
    rewrite Hrun. intros E. injection E as <- _.
    apply Hc, caches_only_face_updated.
  - destruct (valid_vertex_kdtree m) eqn:Hv.
    + rewrite (updateVertexKDTree_valid m Hv). intros E. now injection E as <- _.
    + destruct (mesh_group m) as [g|] eqn:Hg.
      * destruct (updateVertexKDTree_run m Hg) as (l1 & Hrun & _).
        rewrite Hrun. intros E. injection E as <- _.
        apply Hc, caches_only_vertex_updated.
      * rewrite (updateVertexKDTree_null m Hv Hg). discriminate.
  - destruct (rayIntersects_run m ray max_time) as (pre & Hrun & _).
    unfold Browse3D.bind. rewrite Hrun. unfold Browse3D.ret.
    intros E. injection E as <- _. apply Hc, caches_only_face_updated.
  - destruct (rayIntersectionTime_run m ray max_time) as (pre & Hrun & _).
    unfold Browse3D.bind. rewrite Hrun. unfold Browse3D.ret.
    intros E. injection E as <- _. apply Hc, caches_only_face_updated.
  - destruct (rayIntersection_run m ray max_time) as (pre & Hrun & _).
    unfold Browse3D.bind. rewrite Hrun. unfold Browse3D.ret.
    intros E. injection E as <- _. apply Hc, caches_only_face_updated.
  - unfold Browse3D.bind.
    destruct (closestPoint q distance_bound out accelerate_with_vertices m)
      as [a m1 l1|] eqn:Hq; [|discriminate].
    unfold Browse3D.ret. intros E. injection E as <- _.
    apply Hc. eapply closestPoint_caches_only. exact Hq.
  - unfold Browse3D.bind.
    destruct (pick ray m) as [t m1 l1|] eqn:Hpick; [|discriminate].
    unfold Browse3D.ret. intros E. injection E as <- _.
    pose proof (face_updated_pick_state m) as [_ Hps].
    destruct (isValid (KDTreeN.rayStructureIntersection
                         (kdtree (face_updated m)) ray default_max_time)) eqn:Hvalid.
    + destruct (pick_hit m ray Hvalid) as (tri & pre & _ & Hrun & _).
      rewrite Hrun in Hpick. injection Hpick as _ <- _. simpl. now rewrite Hps.
    + destruct (pick_miss m ray Hvalid) as (pre & _ & Hrun).
      destruct (KDTreeN.closestPair (kdtree (face_updated m)) ray (-1) true) as [cp|].
      * destruct (Qle_bool 0 (projection cp ray)).
        -- destruct Hrun as (tri & _ & Hrun).
           rewrite Hrun in Hpick. injection Hpick as _ <- _. simpl. now rewrite Hps.
        -- rewrite Hrun in Hpick. injection Hpick as _ <- _. now rewrite Hps.
      * rewrite Hrun in Hpick. injection Hpick as _ <- _. now rewrite Hps.
  - intros E. injection E as <- _. reflexivity.
Qed.

(** X22 (Model::Model, Model::pick): in every state a model can reach, the
    picked sample has the type "Picked" that the constructor gives it: no
    method changes it, [pick] rewrites only the position, the mesh and the
    face index. *)
Theorem picked_sample_type_is_Picked (m : Model) :
  reachable m -> type (picked_sample m) = "Picked"%string.
Proof.
  induction 1 as [sample initial_mesh f m log Hc | c m m' log _ IH Hstep].
  - revert Hc. unfold construct. unfold Browse3D.bind at 1.
    destruct (load initial_mesh f _) as [b m1 l1|] eqn:Hload; [|discriminate].
    unfold Browse3D.modify. intros E. injection E as <- _. reflexivity.
  - rewrite (exec_picked_type _ _ Hstep). exact IH.
Qed.

End Facts.
End ModelFacts.

(** ** The properties on the line *)

Module LineChecks.
Import KDTreeN KDTreeFacts Browse3D ModelFacts Line.

Abbreviation LineM :=
  (@M Vector3 Ray3 AffineTransform3 Box MeshGroup PointCloud Mesh MeshVertex
      Triangle).

(** Buckets hold at most two primitives; rays are unbounded by default. *)
Definition leaf : nat := 2.
Definition no_limit : Real := -1.

Definition line_reachable : LineModel -> Prop :=
  @reachable Vector3 Ray3 AffineTransform3 Box MeshGroup PointCloud Mesh
             MeshVertex Triangle _ _ _ _ _ _ _ _ _ _ leaf no_limit.

(** The sample of a model that has picked nothing yet. *)
Definition no_pick : @Sample Vector3 Mesh := mkSample "Picked" "" 0 None (-1).

Definition all_outputs : @Outputs Vector3 := mkOutputs (Some 0) (Some 0) (Some 0).

(** A mesh with one triangle between 10 and 12 whose vertices are its
    corners. *)
Definition segment_mesh : MeshGroup :=
  mkMeshGroup "segment" [10; 12] [mkTriangle 10 12 7].

(** The same mesh with one more vertex, at 0, that no triangle uses. *)
Definition loose_vertex_mesh : MeshGroup :=
  mkMeshGroup "loose" [0; 10; 12] [mkTriangle 10 12 7].

(** A model just constructed from a mesh file: both trees flagged invalid. *)
Definition loaded (g : MeshGroup) : LineModel :=
  mkModel (Some g) None None false no_pick false KDTreeN.empty false KDTreeN.empty.

(** A model constructed with no file, after [invalidateKDTree]. *)
Definition empty_invalidated : LineModel :=
  mkModel None None None false no_pick false KDTreeN.empty true KDTreeN.empty.

(** The same after [setTransform] with the translation by 1: the vertex
    tree, flagged valid, took the transform; the face tree did not. *)
Definition empty_translated : LineModel :=
  mkModel None None (Some 1) false no_pick false KDTreeN.empty true
          (mkKDTree [] None (Some 1)).

(** A model constructed from a point file with two points. *)
Definition cloud_only : LineModel :=
  mkModel None (Some [3; 4]) None false no_pick false KDTreeN.empty false
          KDTreeN.empty.

Lemma loaded_reachable (g : MeshGroup) : line_reachable (loaded g).
Proof.
  apply (@reach_construct _ _ _ _ _ _ _ _ _ _ _ _ _ _ _ _ _ _ _ leaf no_limit
           a_sample "mesh.obj" (Meshes (Some g)) (loaded g)
           [Console ("Loaded model 'mesh.obj' with bounding box [box]");
            PostEvent EVT_MODEL_PATH_CHANGED;
            PostEvent EVT_MODEL_GEOMETRY_CHANGED]).
  reflexivity.
Qed.

Lemma empty_invalidated_reachable : line_reachable empty_invalidated.
Proof.
  apply (@reach_exec _ _ _ _ _ _ _ _ _ _ _ _ _ _ _ _ _ _ _ leaf no_limit
           DoInvalidateKDTree
           (mkModel None None None false no_pick true KDTreeN.empty true
                    KDTreeN.empty)
           empty_invalidated []).
  - apply (@reach_construct _ _ _ _ _ _ _ _ _ _ _ _ _ _ _ _ _ _ _ leaf no_limit
             a_sample "" Unavailable _ []).
    reflexivity.
  - reflexivity.
Qed.

Lemma empty_translated_reachable : line_reachable empty_translated.
Proof.
  apply (@reach_exec _ _ _ _ _ _ _ _ _ _ _ _ _ _ _ _ _ _ _ leaf no_limit
           (DoSetTransform 1) empty_invalidated empty_translated
           [Call VertexTree (CallSetTransform 1)]).
  - apply empty_invalidated_reachable.
  - reflexivity.
Qed.

Lemma cloud_only_reachable : line_reachable cloud_only.
Proof.
  apply (@reach_construct _ _ _ _ _ _ _ _ _ _ _ _ _ _ _ _ _ _ _ leaf no_limit
           a_sample "points.pts" (Points [3; 4] true) cloud_only
           [PostEvent EVT_MODEL_PATH_CHANGED;
            PostEvent EVT_MODEL_GEOMETRY_CHANGED]).
  reflexivity.
Qed.

(** *** Where the claims as first stated fail *)

(** C1, as first stated, fails on a mesh with a vertex that no triangle
    uses.  The query point 1 is nearest to the loose vertex at 0, at distance
    1; the bound 100 is tightened to 1 and the triangle, at distance 9, is
    no longer found: the accelerated query returns -1 where the query without
    acceleration and the brute-force scan return triangle 0. *)
Lemma accelerated_closestPoint_loose_vertex :
  line_reachable (loaded loose_vertex_mesh)
  /\ exists m1 log1 m2 log2,
      (closestPoint leaf 1 100 all_outputs true : LineM _)
        (loaded loose_vertex_mesh)
      = Done ((-1)%Z, all_outputs) m1 log1
      /\ (closestPoint leaf 1 100 all_outputs false : LineM _)
           (loaded loose_vertex_mesh)
         = Done (0%Z, mkOutputs (Some 9) (Some 10) (Some 0)) m2 log2
      /\ brute_force (triangles loose_vertex_mesh) (dist_key (1 : Vector3))
                     (bound_of 100)
         = mkBest (Some 0%nat) (Some 9).
Proof.
  split; [apply loaded_reachable|].
  do 4 eexists. split; [reflexivity|]. split; reflexivity.
Qed.

(** C3, as first stated, fails for [closestPoint] on an empty model: it
    returns before looking at the flag, so an invalid tree is not rebuilt and
    the flag stays false. *)
Lemma closestPoint_empty_skips_rebuild :
  line_reachable empty_invalidated
  /\ valid_kdtree empty_invalidated = false
  /\ (closestPoint leaf 1 100 all_outputs false : LineM _) empty_invalidated
     = Done ((-1)%Z, all_outputs) empty_invalidated []
  /\ ~ lazily_rebuilds (closestPoint leaf 1 100 all_outputs false : LineM _)
                       empty_invalidated.
Proof.
  split; [apply empty_invalidated_reachable|].
  split; [reflexivity|]. split; [reflexivity|].
  intros (a & m' & log & Hrun & Hvalid & _).
  change (Done ((-1)%Z, all_outputs) empty_invalidated [] = Done a m' log)
    in Hrun.
  injection Hrun as _ <- _. discriminate Hvalid.
Qed.

(** C9, as first stated, fails for [updateKDTree] on a model without a mesh
    group: the transform is re-applied only inside the test of [mesh_group],
    so the face tree is flagged valid without the model's transform. *)
Lemma updateKDTree_without_mesh_drops_transform :
  line_reachable empty_translated
  /\ transform_synced empty_translated
  /\ exists m',
      (updateKDTree leaf : LineM unit) empty_translated
      = Done tt m' [Call FaceTree (CallClear false)]
      /\ valid_kdtree m' = true
      /\ trans m' = Some 1
      /\ kd_trans (kdtree m') = None
      /\ ~ transform_synced m'.
Proof.
  split; [apply empty_translated_reachable|].
  split; [split; [discriminate | reflexivity]|].
  eexists. split; [reflexivity|].
  split; [reflexivity|]. split; [reflexivity|]. split; [reflexivity|].
  intros [Hface _]. specialize (Hface eq_refl). discriminate Hface.
Qed.

(** *** The theorems at concrete models *)

(** The model with the one-triangle mesh after a first query: both the
    flags true, the face tree built. *)
Definition queried : LineModel :=
  match (closestPoint leaf 1 100 all_outputs true : LineM _) (loaded segment_mesh) with
  | Done _ m _ => m
  | Failed _ => loaded segment_mesh
  end.

Lemma queried_reachable : line_reachable queried.
Proof.
  unfold line_reachable.
  eapply (@reach_exec _ _ _ _ _ _ _ _ _ _ _ _ _ _ _ _ _ _ _ leaf no_limit
            (DoClosestPoint 1 100 all_outputs true) (loaded segment_mesh)).
  - apply loaded_reachable.
  - reflexivity.
Qed.

Lemma accelerated_closestPoint_witness :
  line_reachable queried
  /\ mesh_group queried = Some segment_mesh
  /\ isEmpty queried = false
  /\ transform_synced queried
  /\ no_stale_transform queried
  /\ anchored segment_mesh (object_query queried 1)
  /\ exists r m1 log1 m2 log2,
      (closestPoint leaf 1 100 all_outputs true : LineM _) queried
      = Done r m1 log1
      /\ (closestPoint leaf 1 100 all_outputs false : LineM _) queried
         = Done r m2 log2.
Proof.
  assert (Hsync : transform_synced queried) by (split; intros _; reflexivity).
  assert (Hstale : no_stale_transform queried)
    by (intros _; split; reflexivity).
  assert (Hanch : anchored segment_mesh (object_query queried 1)).
  { intros v [<- | [<- | []]]; exists (mkTriangle 10 12 7);
      (split; [left; reflexivity | vm_compute; discriminate]). }
  split; [exact queried_reachable|].
  split; [reflexivity|]. split; [reflexivity|].
  split; [exact Hsync|]. split; [exact Hstale|]. split; [exact Hanch|].
  destruct (@accelerated_closestPoint_agrees
              Vector3 Ray3 AffineTransform3 Box MeshGroup PointCloud Mesh
              MeshVertex Triangle line_meshes line_rays line_transform
              line_volume triangle_adapter vertex_adapter
              triangle_point_metric triangle_ray_metric triangle_ray_tester
              vertex_point_metric leaf no_limit
              queried segment_mesh 1 100 all_outputs
              queried_reachable eq_refl eq_refl Hsync Hstale Hanch)
    as (r & m1 & log1 & m2 & log2 & H1 & H2 & _).
  exists r, m1, log1, m2, log2. split; [exact H1 | exact H2].
Defined.


(** The state a method call leaves. *)
Definition after (c : Method) (m : LineModel) : LineModel :=
  match (exec leaf no_limit c : LineM unit) m with
  | Done _ m' _ => m'
  | Failed _ => m
  end.

(** The queried model after [setTransform] with the translation by -9,
    [invalidateVertexKDTree] and [clearTransform]: the model has no
    transform, the invalid vertex tree still holds the translation. *)
Definition stale : LineModel :=
  after DoClearTransform
        (after DoInvalidateVertexKDTree (after (DoSetTransform (-9)) queried)).

Lemma stale_reachable : line_reachable stale.
Proof.
  unfold line_reachable.
  eapply (@reach_exec _ _ _ _ _ _ _ _ _ _ _ _ _ _ _ _ _ _ _ leaf no_limit
            DoClearTransform
            (after DoInvalidateVertexKDTree (after (DoSetTransform (-9)) queried)));
    [|reflexivity].
  eapply (@reach_exec _ _ _ _ _ _ _ _ _ _ _ _ _ _ _ _ _ _ _ leaf no_limit
            DoInvalidateVertexKDTree (after (DoSetTransform (-9)) queried));
    [|reflexivity].
  eapply (@reach_exec _ _ _ _ _ _ _ _ _ _ _ _ _ _ _ _ _ _ _ leaf no_limit
            (DoSetTransform (-9)) queried);
    [|reflexivity].
  apply queried_reachable.
Qed.

(** Why the amended C1 asks that no tree keeps a transform the model has
    dropped: [updateVertexKDTree] re-applies a transform only when the model
    has one, and the index as modelled keeps its transform through [clear].
    In [stale] every vertex is a corner of the triangle, yet the rebuilt
    vertex tree sees the query point 1 at 10, finds a vertex at distance 0,
    and the face tree, asked within 0, misses the triangle at distance 9. *)
Lemma accelerated_closestPoint_stale_transform :
  line_reachable stale
  /\ transform_synced stale
  /\ ~ no_stale_transform stale
  /\ anchored segment_mesh (object_query stale 1)
  /\ exists m1 log1 m2 log2,
      (closestPoint leaf 1 100 all_outputs true : LineM _) stale
      = Done ((-1)%Z, all_outputs) m1 log1
      /\ (closestPoint leaf 1 100 all_outputs false : LineM _) stale
         = Done (0%Z, mkOutputs (Some 9) (Some 10) (Some 0)) m2 log2
      /\ valid_vertex_kdtree m1 = true
      /\ kd_trans (vertex_kdtree m1) = Some (-9)
      /\ trans m1 = None.
Proof.
  split; [apply stale_reachable|].
  split; [split; [intros _; reflexivity | intros Hv; discriminate Hv]|].
  split.
  { intros H. destruct (H eq_refl) as [_ Hv]. discriminate Hv. }
  split.
  { intros v [<- | [<- | []]]; exists (mkTriangle 10 12 7);
      (split; [left; reflexivity | vm_compute; discriminate]). }
  do 4 eexists. split; [reflexivity|]. split; [reflexivity|].
  repeat split.
Qed.

Lemma queries_rebuild_lazily_witness :
  exists isec m' log,
    (rayIntersection leaf (mkRay 1 true) 20 : LineM _) (loaded segment_mesh)
    = Done isec m' log
    /\ valid_kdtree m' = true
    /\ rebuilds FaceTree log = 1%nat.
Proof.
  destruct (@queries_rebuild_lazily
              Vector3 Ray3 AffineTransform3 Box MeshGroup PointCloud Mesh
              MeshVertex Triangle line_meshes line_transform line_volume
              triangle_adapter vertex_adapter triangle_point_metric
              triangle_ray_tester vertex_point_metric leaf
              (loaded segment_mesh) (mkRay 1 true) 20)
    as (_ & _ & (m' & pre & Hrun & Hvalid & Hpre & _) & _).
  do 3 eexists. split; [exact Hrun|]. split; [exact Hvalid|].
  unfold rebuilds in *. rewrite filter_app, length_app, Hpre. reflexivity.
Defined.

Lemma pick_hit_witness :
  exists t m' log,
    (pick leaf no_limit (mkRay 1 true) : LineM _) queried = Done t m' log
    /\ t = 9
    /\ closest_pair_calls log = [].
Proof.
  destruct (@pick_closestPair_only_on_miss
              Vector3 Ray3 AffineTransform3 Box MeshGroup PointCloud Mesh
              MeshVertex Triangle line_meshes line_rays line_transform
              line_volume triangle_adapter triangle_ray_metric
              triangle_ray_tester leaf no_limit queried (mkRay 1 true))
    as (isec & m1 & log1 & t & m' & log & Hrun & Hpick & Hhit & _).
  assert (Hisec : isec = mkRayStructureIntersection3 true 9 0)
    by (injection Hrun as <- _ _; reflexivity).
  subst isec. destruct (Hhit eq_refl) as (Ht & Hcalls & _).
  exists t, m', log. split; [exact Hpick|]. split; [exact Ht | exact Hcalls].
Defined.

Lemma setTransform_frame_witness :
  exists m' log,
    (Browse3D.setTransform 5 : LineM unit) queried = Done tt m' log
    /\ only_transform_changed queried m'.
Proof.
  destruct (@setTransform_clearTransform_frame
              Vector3 Ray3 AffineTransform3 Box MeshGroup PointCloud Mesh
              MeshVertex Triangle queried 5)
    as [(m' & log & Hrun & Hframe & _) _].
  exists m', log. split; [exact Hrun | exact Hframe].
Defined.

Lemma pick_nothing_found_witness :
  exists t m' log,
    (pick leaf no_limit (mkRay 1 true) : LineM _) empty_invalidated
    = Done t m' log
    /\ t < 0
    /\ valid_pick m' = valid_pick empty_invalidated
    /\ picked_sample m' = picked_sample empty_invalidated.
Proof.
  destruct (@pick_nothing_found
              Vector3 Ray3 AffineTransform3 Box MeshGroup PointCloud Mesh
              MeshVertex Triangle line_meshes line_rays line_transform
              line_volume triangle_adapter triangle_ray_metric
              triangle_ray_tester leaf no_limit empty_invalidated
              (mkRay 1 true))
    as (isec & m1 & log1 & t & m' & log & Hrun & Hpick & _ & Hmiss & _).
  assert (E : isec = no_intersection
              /\ kdtree m1 = mkKDTree [] None None).
  { injection Hrun as <- <- _. split; reflexivity. }
  destruct E as [-> Hk]. rewrite Hk in Hmiss.
  exists t, m', log. split; [exact Hpick|]. exact (Hmiss eq_refl I).
Defined.

Lemma closestPoint_empty_model_witness :
  isEmpty empty_invalidated = true
  /\ (closestPoint leaf 1 100 all_outputs true : LineM _) empty_invalidated
     = Done ((-1)%Z, all_outputs) empty_invalidated [].
Proof.
  split; [reflexivity|].
  apply (@closestPoint_empty_model
           Vector3 Ray3 AffineTransform3 Box MeshGroup PointCloud Mesh
           MeshVertex Triangle line_meshes line_transform line_volume
           triangle_adapter vertex_adapter triangle_point_metric
           vertex_point_metric leaf empty_invalidated 1 100
           all_outputs true).
  reflexivity.
Defined.

Lemma transform_round_trip_witness :
  trans queried = None
  /\ transform_synced queried
  /\ outcome
       (Browse3D.bind
          (Browse3D.setTransform 5)
          (fun _ =>
             Browse3D.bind
               (@Browse3D.clearTransform _ _ _ _ _ _ _ _ _)
               (fun _ => (closestPoint leaf 1 100 all_outputs true : LineM _)))
          queried)
     = outcome ((closestPoint leaf 1 100 all_outputs true : LineM _) queried).
Proof.
  assert (Hs : transform_synced queried) by (split; intros _; reflexivity).
  split; [reflexivity|]. split; [exact Hs|].
  apply (proj2 (@transform_round_trip
                  Vector3 Ray3 AffineTransform3 Box MeshGroup PointCloud Mesh
                  MeshVertex Triangle _
                  (closestPoint leaf 1 100 all_outputs true : LineM _)
                  queried 5)
               eq_refl Hs).
Defined.

Lemma transform_synced_witness :
  transform_synced queried
  /\ exists m' log,
      (Browse3D.setTransform 5 : LineM unit) queried = Done tt m' log
      /\ transform_synced m'.
Proof.
  assert (Hs : transform_synced queried) by (split; intros _; reflexivity).
  split; [exact Hs|].
  destruct (@transform_synced_preserved
              Vector3 Ray3 AffineTransform3 Box MeshGroup PointCloud Mesh
              MeshVertex Triangle line_meshes line_volume triangle_adapter
              vertex_adapter leaf queried Hs)
    as [Hset _].
  destruct (Hset 5) as (m' & log & Hrun & Hs' & _).
  exists m', log. split; [exact Hrun | exact Hs'].
Defined.

Lemma vertex_path_witness :
  line_reachable cloud_only
  /\ mesh_group cloud_only = None
  /\ isEmpty cloud_only = false
  /\ (closestPoint leaf 1 100 all_outputs true : LineM _) cloud_only
     = Failed NullPointer.
Proof.
  split; [apply cloud_only_reachable|].
  split; [reflexivity|]. split; [reflexivity|].
  apply (proj1 (@vertex_path_needs_mesh_group
                  Vector3 Ray3 AffineTransform3 Box MeshGroup PointCloud Mesh
                  MeshVertex Triangle line_meshes line_rays line_transform
                  line_volume triangle_adapter vertex_adapter
                  triangle_point_metric triangle_ray_metric
                  triangle_ray_tester vertex_point_metric leaf no_limit)
               cloud_only 1 100 all_outputs).
  - apply cloud_only_reachable.
  - reflexivity.
  - reflexivity.
Defined.

End LineChecks.

(** ** Colours

    [ColorRGB] of ColorRGB.hpp: three channels and the arithmetic defined
    inline in the header. *)

Module ColorRGB.

Record ColorRGB : Type := mkColorRGB { r : Real; g : Real; b : Real }.

(** [std::max(a, b)] is [(a < b) ? b : a], [std::min(a, b)] is
    [(b < a) ? b : a]. *)
Definition std_max (x y : Real) : Real := if Qlt_bool x y then y else x.
Definition std_min (x y : Real) : Real := if Qlt_bool y x then y else x.

(** [operator+] and [operator+=]. *)
Definition plus (c rhs : ColorRGB) : ColorRGB :=
  mkColorRGB (r c + r rhs) (g c + g rhs) (b c + b rhs).

(** [operator-] and [operator-=]. *)
Definition minus (c rhs : ColorRGB) : ColorRGB :=
  mkColorRGB (r c - r rhs) (g c - g rhs) (b c - b rhs).

(** Multiplication by a scalar, as a member and with the scalar first. *)
Definition times (c : ColorRGB) (s : Real) : ColorRGB :=
  mkColorRGB (r c * s) (g c * s) (b c * s).

Definition scalar_times (s : Real) (c : ColorRGB) : ColorRGB := times c s.

(** Component-wise multiplication and division by another colour. *)
Definition times_color (c rhs : ColorRGB) : ColorRGB :=
  mkColorRGB (r c * r rhs) (g c * g rhs) (b c * b rhs).

Definition div_color (c rhs : ColorRGB) : ColorRGB :=
  mkColorRGB (r c / r rhs) (g c / g rhs) (b c / b rhs).

(** Division by a scalar. *)
Definition div (c : ColorRGB) (s : Real) : ColorRGB :=
  mkColorRGB (r c / s) (g c / s) (b c / s).

(** Negation. *)
Definition opp (c : ColorRGB) : ColorRGB := mkColorRGB (- r c) (- g c) (- b c).

Definition squaredNorm (c : ColorRGB) : Real := r c * r c + g c * g c + b c * b c.

(** [max] and [min] of two colours, per component. *)
Definition max_color (c rhs : ColorRGB) : ColorRGB :=
  mkColorRGB (std_max (r c) (r rhs)) (std_max (g c) (g rhs)) (std_max (b c) (b rhs)).

Definition min_color (c rhs : ColorRGB) : ColorRGB :=
  mkColorRGB (std_min (r c) (r rhs)) (std_min (g c) (g rhs)) (std_min (b c) (b rhs)).

(** The largest and the smallest component. *)
Definition max (c : ColorRGB) : Real := std_max (std_max (r c) (g c)) (b c).
Definition min (c : ColorRGB) : Real := std_min (std_min (r c) (g c)) (b c).

Definition bgr (c : ColorRGB) : ColorRGB := mkColorRGB (b c) (g c) (r c).

(** X24 (ColorRGB::max, ColorRGB::min): the largest component of a colour
    is at least each of its channels and is one of them, the smallest is
    at most each and is one of them, and the component-wise maximum and
    minimum of two colours bound both colours in every channel. *)
Theorem ColorRGB_min_max_bounds (c rhs : ColorRGB) :
  (r c <= max c /\ g c <= max c /\ b c <= max c
   /\ (max c = r c \/ max c = g c \/ max c = b c))
  /\ (min c <= r c /\ min c <= g c /\ min c <= b c
      /\ (min c = r c \/ min c = g c \/ min c = b c))
  /\ (r c <= r (max_color c rhs) /\ r rhs <= r (max_color c rhs)
      /\ g c <= g (max_color c rhs) /\ g rhs <= g (max_color c rhs)
      /\ b c <= b (max_color c rhs) /\ b rhs <= b (max_color c rhs))
  /\ (r (min_color c rhs) <= r c /\ r (min_color c rhs) <= r rhs
      /\ g (min_color c rhs) <= g c /\ g (min_color c rhs) <= g rhs
      /\ b (min_color c rhs) <= b c /\ b (min_color c rhs) <= b rhs).
Proof.
  unfold max, min, max_color, min_color, std_max, std_min. simpl.
  repeat split; qcases; auto; lra.
Qed.

End ColorRGB.

(** ** Log lines and exceptions *)

Module Diagnostics.

(** Pieces of a log line or of an exception text, in the order [<<] and
    [format] chain them. *)
Inductive Fragment : Type :=
| Text (s : string)
| Number (z : Z).

Inductive Level : Type := CONSOLE | WARNING | ERROR.

Inductive Exn : Type := Error (msg : list Fragment).

End Diagnostics.

(** ** Reading a whole file

    [FileSystem::readWholeFile] of FileSystem.cpp, over what the system
    answers to its calls. *)

Module FileSystem.
Import Diagnostics.

(** The answers of the system to one call of [readWholeFile]: whether the
    path is a regular file, the size [boost::filesystem::file_size]
    reports (an unsigned 64-bit number), whether [malloc] and [fopen]
    succeed, and the bytes [fread] stores in the buffer (it returns their
    number). *)
Record Answers : Type := mkAnswers {
  is_regular_file : bool;
  file_size : Z;
  malloc_succeeds : bool;
  fopen_succeeds : bool;
  fread_bytes : string
}.

(** What the call does to the system, in order. *)
Inductive Action : Type :=
| Malloc (size : Z)
| Free
| Fopen
| Fclose
| LogError (msg : list Fragment).

Definition fileExists (a : Answers) : bool := is_regular_file a.

(** [static_cast<int64>] of an unsigned 64-bit number. *)
Definition to_int64 (size : Z) : Z :=
  if (size <? 2 ^ 63)%Z then size else (size - 2 ^ 64)%Z.

Definition fileSize (a : Answers) : Z :=
  if (file_size a =? 2 ^ 64 - 1)%Z then (-1)%Z else to_int64 (file_size a).

(** The value returned, the string [ret] as the call leaves it, and the
    actions. *)
Definition readWholeFile (a : Answers) (path ret : string)
  : bool * string * list Action :=
  if negb (fileExists a) then
    (false, ret, [LogError [Text "FileSystem: File '"; Text path; Text "' not found"]])
  else
    let length := fileSize a in
    if (length <=? 0)%Z then (true, ""%string, [])
    else if negb (malloc_succeeds a) then
      (false, ret,
       [LogError [Text "FileSystem: Could not allocate buffer to hold ";
                  Number length; Text " bytes from file '"; Text path; Text "'"]])
    else if negb (fopen_succeeds a) then
      (false, ret,
       [Malloc length;
        LogError [Text "FileSystem: Couldn't open file '"; Text path;
                  Text "' for reading"]])
    else if negb (Z.of_nat (String.length (fread_bytes a)) =? length)%Z then
      (false, ret,
       [Malloc length; Fopen;
        LogError [Text "FileSystem: Error reading from file '"; Text path;
                  Text "'"]])
    else (true, fread_bytes a, [Malloc length; Fopen; Fclose; Free]).

(** How many buffers are still allocated and how many files still open
    after a sequence of actions. *)
Fixpoint held (log : list Action) : Z * Z :=
  match log with
  | [] => (0, 0)%Z
  | action :: rest =>
      let '(buffers, files) := held rest in
      match action with
      | Malloc _ => (buffers + 1, files)%Z
      | Free => (buffers - 1, files)%Z
      | Fopen => (buffers, files + 1)%Z
      | Fclose => (buffers, files - 1)%Z
      | LogError _ => (buffers, files)
      end
  end.

(** X23 (FileSystem::readWholeFile): a call that returns true holds no
    buffer and no open file afterwards and has set [ret] to the bytes
    read, as many as the size of the file, or to the empty string for a
    size that is not positive as a signed 64-bit number.  A call that
    returns false leaves [ret] as it was and logs an error; after a
    successful [malloc] it never frees the buffer, and after a short read
    it never closes the file either. *)
Theorem readWholeFile_releases_only_on_success (a : Answers) (path ret : string) :
  let '(ok, ret', log) := readWholeFile a path ret in
  if ok then
    held log = (0, 0)%Z
    /\ ((fileSize a <= 0)%Z /\ ret' = ""%string
        \/ (0 < fileSize a)%Z /\ ret' = fread_bytes a
           /\ Z.of_nat (String.length ret') = fileSize a)
  else
    ret' = ret
    /\ (exists msg, In (LogError msg) log)
    /\ (fileExists a = true -> (0 < fileSize a)%Z -> malloc_succeeds a = true ->
        fst (held log) = 1%Z
        /\ (fopen_succeeds a = true -> snd (held log) = 1%Z))
    /\ (fileExists a = false \/ malloc_succeeds a = false -> held log = (0, 0)%Z).
Proof.
  unfold readWholeFile.
  destruct (fileExists a); simpl.
  2:{ split; [reflexivity|]. split; [eexists; left; reflexivity|].
      split; [discriminate | reflexivity]. }
  destruct (Z.leb_spec (fileSize a) 0) as [Hle|Hpos].
  { split; [reflexivity|]. left. split; [exact Hle | reflexivity]. }
  destruct (malloc_succeeds a); simpl.
  2:{ split; [reflexivity|]. split; [eexists; left; reflexivity|].
      split; [discriminate | reflexivity]. }
  destruct (fopen_succeeds a); simpl.
  2:{ split; [reflexivity|]. split; [eexists; right; left; reflexivity|].
      split; [intros _ _ _; split; [reflexivity | discriminate]|].
      intros [H|H]; discriminate H. }
  destruct (Z.eqb_spec (Z.of_nat (String.length (fread_bytes a))) (fileSize a))
    as [Heq|Hne]; simpl.
  - split; [reflexivity|]. right. split; [exact Hpos|]. split; [reflexivity | exact Heq].
  - split; [reflexivity|]. split; [eexists; right; right; left; reflexivity|].
    split; [intros _ _ _; split; [reflexivity | reflexivity]|].
    intros [H|H]; discriminate H.
Qed.

End FileSystem.

(** ** Samples and segments of a model

    The rest of Model.cpp: the samples and segments a user picks on a model,
    their files, and the search for the files that go with a model.  These
    methods throw and catch C++ exceptions, log, post events and write
    files; they are modelled over the fields they touch, with a trace.
    Memory is taken to be unbounded: [push_back] and [resize] do not
    fail. *)

Module Annotations.
Import KDTreeN Browse3D Diagnostics.

(** What Model.cpp reads from a mesh face and from a mesh (Mesh.hpp is not
    among the sources): for a face its index, the mesh its attribute names
    as parent (a pointer, [None] when null) and the positions of its
    vertices from [verticesBegin()] to [verticesEnd()]; for a mesh its
    name, its number of faces and the index of its first face; and
    equality of two mesh pointers. *)
Class FaceOps (Face Mesh Vector3 : Type) : Type := {
  face_getIndex : Face -> Z;
  face_getParent : Face -> option Mesh;
  face_vertices : Face -> list Vector3;
  mesh_getName : Mesh -> string;
  mesh_numFaces : Mesh -> Z;
  mesh_firstFaceIndex : Mesh -> Z;
  same_mesh : option Mesh -> option Mesh -> bool
}.

(** Vector arithmetic of MatVec.hpp and the barycentric coordinates of a
    point in a triangle, as Model.cpp calls them. *)
Class VectorOps (Vector3 : Type) : Type := {
  vector3 : Real -> Real -> Real -> Vector3;
  vminus : Vector3 -> Vector3 -> Vector3;
  vplus : Vector3 -> Vector3 -> Vector3;
  vscale : Real -> Vector3 -> Vector3;
  squaredNorm : Vector3 -> Real;
  getBarycentricCoordinates3 :
    Vector3 -> Vector3 -> Vector3 -> Vector3 -> Real * Real * Real
}.

(** What Model.cpp calls on a [Segment] (Segment.hpp is not among the
    sources). *)
Class SegmentOps (Segment Mesh : Type) : Type := {
  newSegment : string -> Segment;
  getLabel : Segment -> string;
  setLabel : string -> Segment -> Segment;
  hasMesh : Segment -> Mesh -> Z -> bool;
  addMesh : option Mesh -> Segment -> Segment;
  numMeshes : Segment -> Z;
  minDepth : Segment -> Z;
  getMeshes : Segment -> list (option Mesh)
}.

(** What Model.cpp calls on a point cloud when it loads labels and
    features (PointCloud.hpp is not among the sources): the cloud as the
    call leaves it, and the result. *)
Class PointCloudOps (PointCloud ColorRGBA : Type) : Type := {
  setPointColors : list ColorRGBA -> PointCloud -> PointCloud * bool;
  cloud_loadFeatures : string -> PointCloud -> PointCloud * bool
}.

(** Colours of labels (the palette and the label colours of the
    application), the jet colour map of ColorRGB.cpp, [Math::clamp],
    [Math::fastMinusExp], and what [VertexFeatureVisitor] asks of the
    kd-tree over the feature points: the norm of the extent of its bounds
    and the neighbours [kClosestPairs] finds for a point within a distance
    ([None]: the default bound), each with the index of the feature point
    and its distance. *)
Class FeatureOps (Vector3 ColorRGBA : Type) : Type := {
  getLabelColor : string -> ColorRGBA;
  getPaletteColor : Z -> ColorRGBA;
  jetColorMap : Real -> ColorRGB.ColorRGB;
  clamp : Real -> Real -> Real -> Real;
  fastMinusExp : Real -> Real;
  extent_norm : list Vector3 -> Real;
  kClosestPairs : list Vector3 -> Vector3 -> option Real -> list (Z * Real)
}.

Section Annotations.
Context {Vector3 Ray3 AffineTransform3 Box : Type}
        {MeshGroup PointCloud Mesh MeshVertex Triangle : Type}
        {MO : MeshOps MeshGroup PointCloud Mesh MeshVertex Triangle Vector3}
        {Face Segment Line : Type}
        {FO : FaceOps Face Mesh Vector3}
        {VO : VectorOps Vector3}
        {SO : SegmentOps Segment Mesh}
        {ColorRGBA : Type}
        {PO : PointCloudOps PointCloud ColorRGBA}
        {FE : FeatureOps Vector3 ColorRGBA}.

Abbreviation Model :=
  (@Browse3D.Model Vector3 AffineTransform3 Box MeshGroup PointCloud Mesh
                   MeshVertex Triangle).
Abbreviation Sample := (@Browse3D.Sample Vector3 Mesh).

(** The static index of [Mesh]: the face with a given index, if any. *)
Variable mapIndexToFace : Z -> option Face.

(** The disk as a call finds it: whether a path is a regular file
    ([FileSystem::fileExists]), whether a file can be opened for writing,
    and the lines of a file ([None] when it cannot be opened). *)
Variable fileExists : string -> bool.
Variable opens_for_writing : string -> bool.
Variable lines_of : string -> option (list Line).

(** [FileSystem::directoryExists] and [FileSystem::exists]. *)
Variable directoryExists : string -> bool.
Variable exists_on_disk : string -> bool.

(** [FilePath::concat], [FilePath::parent], [FilePath::baseName] and
    [FilePath::completeBaseName]. *)
Variable concat : string -> string -> string.
Variable parent : string -> string.
Variable baseName : string -> string.
Variable completeBaseName : string -> string.

(** Lexing of a line: whether [trimWhitespace] leaves nothing of it, what
    it leaves, the count that [header_iss >> n] extracts ([None] when the
    extraction fails), and the integers that [iss >> face_index] extracts
    until it fails. *)
Variable blank : Line -> bool.
Variable trimWhitespace : Line -> string.
Variable lex_count : Line -> option Z.
Variable lex_indices : Line -> list Z.

(** The reals that [line_in >> f] extracts from a line until it fails, and
    for a trimmed line the integer [strtol] reads when it reads the whole
    of it ([*next == 0]). *)
Variable lex_reals : Line -> list Real.
Variable strtol_whole : string -> option Z.

(** The variables that [loadSamples] declares before its loop and fills
    from each line. *)
Record Vars : Type := mkVars {
  v_type : string;
  v_label : string;
  v_face_index : Z;
  v_bary : Real * Real * Real;
  v_coords : Real * Real * Real
}.

(** What lines 593 to 599 of Model.cpp leave in these variables for a line
    ([label] is the empty string when its extraction fails), and whether
    the three coordinates were read ([read_pos]). *)
Variable lex_sample : Line -> Vars -> Vars * bool.

(** The other fields of [Model]. *)
Record Annotations : Type := mkAnnotations {
  path : string;
  features_path : string;
  has_features : bool;
  has_elem_labels : bool;
  samples : list Sample;
  selected_sample : Z;
  segment_depth_promotion : Z;
  selected_segment : Z;
  segments : list Segment;
  picked_segment : Segment
}.

(** A line written to a samples file or to a segments file. *)
Inductive Written : Type :=
| SampleCount (n : nat)
| SampleEntry (type : string) (face_index : Z) (bary : Real * Real * Real)
              (label : string) (position : Vector3)
| SegmentLabel (label : string)
| SegmentFaces (face_indices : list Z)
| EmptyLine.

Inductive Effect : Type :=
| Post (e : ModelEvent)
| Log (l : Level) (msg : list Fragment)
| Open (path : string)
| Put (line : Written).

(** *** Methods: state, trace, exceptions and undefined behaviour *)

(** A call returns, or throws with the state and trace it had reached, or
    it has no defined behaviour (a null pointer dereferenced, a signed
    overflow). *)
Inductive Outcome (A : Type) : Type :=
| Returned (a : A) (s : Annotations) (log : list Effect)
| Thrown (e : Exn) (s : Annotations) (log : list Effect)
| Undefined.
Arguments Thrown {A} e s log.
Arguments Undefined {A}.

Definition Op (A : Type) : Type := Annotations -> Outcome A.

Definition op_ret {A} (a : A) : Op A := fun s => Returned a s [].

Definition op_bind {A B} (c : Op A) (k : A -> Op B) : Op B :=
  fun s =>
    match c s with
    | Returned a s1 l1 =>
        match k a s1 with
        | Returned b s2 l2 => Returned b s2 (l1 ++ l2)
        | Thrown e s2 l2 => Thrown e s2 (l1 ++ l2)
        | Undefined => Undefined
        end
    | Thrown e s1 l1 => Thrown e s1 l1
    | Undefined => Undefined
    end.

Definition op_gets {A} (f : Annotations -> A) : Op A := fun s => Returned (f s) s [].
Definition op_modify (f : Annotations -> Annotations) : Op unit :=
  fun s => Returned tt (f s) [].
Definition op_emit (e : Effect) : Op unit := fun s => Returned tt s [e].
Definition op_throw {A} (e : Exn) : Op A := fun s => Thrown e s [].
Definition op_undefined {A} : Op A := fun _ => Undefined.

(** [try { c } catch (...) { handler }]. *)
Definition op_try {A} (c : Op A) (handler : Exn -> Op A) : Op A :=
  fun s =>
    match c s with
    | Thrown e s1 l1 =>
        match handler e s1 with
        | Returned b s2 l2 => Returned b s2 (l1 ++ l2)
        | Thrown e2 s2 l2 => Thrown e2 s2 (l1 ++ l2)
        | Undefined => Undefined
        end
    | r => r
    end.

Notation "x <- c ;; k" := (op_bind c (fun x => k))
  (at level 61, c at next level, right associativity).
Notation "c ;;; k" := (op_bind c (fun _ => k))
  (at level 61, right associativity).

Definition set_features_path (p : string) (s : Annotations) : Annotations :=
  mkAnnotations (path s) p (has_features s) (has_elem_labels s) (samples s)
                (selected_sample s) (segment_depth_promotion s) (selected_segment s)
                (segments s) (picked_segment s).

Definition set_has_features (v : bool) (s : Annotations) : Annotations :=
  mkAnnotations (path s) (features_path s) v (has_elem_labels s) (samples s)
                (selected_sample s) (segment_depth_promotion s) (selected_segment s)
                (segments s) (picked_segment s).

Definition set_has_elem_labels (v : bool) (s : Annotations) : Annotations :=
  mkAnnotations (path s) (features_path s) (has_features s) v (samples s)
                (selected_sample s) (segment_depth_promotion s) (selected_segment s)
                (segments s) (picked_segment s).

Definition set_samples (l : list Sample) (s : Annotations) : Annotations :=
  mkAnnotations (path s) (features_path s) (has_features s) (has_elem_labels s) l (selected_sample s)
                (segment_depth_promotion s) (selected_segment s) (segments s)
                (picked_segment s).

Definition set_selected_sample (i : Z) (s : Annotations) : Annotations :=
  mkAnnotations (path s) (features_path s) (has_features s) (has_elem_labels s) (samples s) i
                (segment_depth_promotion s) (selected_segment s) (segments s)
                (picked_segment s).

Definition set_segment_depth_promotion (d : Z) (s : Annotations) : Annotations :=
  mkAnnotations (path s) (features_path s) (has_features s) (has_elem_labels s) (samples s)
                (selected_sample s) d (selected_segment s) (segments s)
                (picked_segment s).

Definition set_selected_segment (i : Z) (s : Annotations) : Annotations :=
  mkAnnotations (path s) (features_path s) (has_features s) (has_elem_labels s) (samples s)
                (selected_sample s) (segment_depth_promotion s) i (segments s)
                (picked_segment s).

Definition set_segments (l : list Segment) (s : Annotations) : Annotations :=
  mkAnnotations (path s) (features_path s) (has_features s) (has_elem_labels s) (samples s)
                (selected_sample s) (segment_depth_promotion s) (selected_segment s) l
                (picked_segment s).

Definition set_picked_segment (g : Segment) (s : Annotations) : Annotations :=
  mkAnnotations (path s) (features_path s) (has_features s) (has_elem_labels s) (samples s)
                (selected_sample s) (segment_depth_promotion s) (selected_segment s)
                (segments s) g.

(** [v.erase(v.begin() + i)] for [i] within the vector. *)
Definition erase {A} (i : nat) (l : list A) : list A :=
  firstn i l ++ skipn (S i) l.

(** [index >= 0 && index < (intx)v.size()]. *)
Definition in_range {A} (index : Z) (l : list A) : bool :=
  (0 <=? index)%Z && (index <? Z.of_nat (length l))%Z.

(** *** Files of a model *)

Fixpoint getNextNonBlankLine (input : list Line) : option (Line * list Line) :=
  match input with
  | [] => None
  | line :: rest =>
      if blank line then getNextNonBlankLine rest else Some (line, rest)
  end.

Definition getSamplesPath (s : Annotations) : string :=
  let sfn := (path s ++ ".picked")%string in
  if fileExists sfn then sfn
  else concat (parent (path s)) (baseName (path s) ++ ".picked")%string.

Definition getSegmentsPath (s : Annotations) : string :=
  let sfn := (path s ++ ".labels")%string in
  if fileExists sfn then sfn
  else concat (parent (path s)) (baseName (path s) ++ ".labels")%string.

(** *** Samples *)

Definition addSample (sample : Sample) : Op unit :=
  op_modify (fun s => set_samples (samples s ++ [sample]) s) ;;;
  op_emit (Post EVT_MODEL_NEEDS_REDRAW).

(** [if (bary <= 0 && bary >= -1.0e-06) bary = 0]. *)
Definition snap_zero (b : Real) : Real :=
  if Qle_bool b 0 && Qle_bool (- (1 # 1000000)) b then 0 else b.

(** The loop of [saveSamples] over the samples not yet written. *)
Fixpoint save_entries (m : Model) (todo : list Sample) : Op bool :=
  match todo with
  | [] => op_ret true
  | sample :: rest =>
      match mapIndexToFace (face_index sample) with
      | None =>
          op_emit (Log ERROR [Text (getName m); Text ": Mesh face with index ";
                              Number (face_index sample);
                              Text " not found, aborting saving samples"]) ;;;
          op_ret false
      | Some face =>
          if negb (same_mesh (face_getParent face) (mesh sample)) then
            op_emit (Log ERROR [Text (getName m); Text ": Face ";
                                Number (face_index sample);
                                Text " belongs to wrong mesh"]) ;;;
            op_ret false
          else
            match face_vertices face with
            | v0 :: v1 :: v2 :: _ =>
                let '(b0, b1, b2) :=
                  getBarycentricCoordinates3 (position sample) v0 v1 v2 in
                op_emit (Put (SampleEntry (type sample) (face_index sample)
                                          (snap_zero b0, snap_zero b1, snap_zero b2)
                                          (label sample) (position sample))) ;;;
                save_entries m rest
            | vs =>
                op_throw (Error [Text "Face "; Number (face_getIndex face);
                                 Text " has "; Number (Z.of_nat (length vs));
                                 Text " vertices"])
            end
      end
  end.

Definition saveSamples (m : Model) (path_ : string) : Op bool :=
  if opens_for_writing path_ then
    op_emit (Open path_) ;;;
    todo <- op_gets samples ;;
    op_emit (Put (SampleCount (length todo))) ;;;
    save_entries m todo
  else op_ret false.

(** The loop of [addPickedSample] over the vertices of the face: the
    nearest vertex so far ([None]: [nnv] is null) and its squared
    distance. *)
Fixpoint nearest_vertex (p : Vector3) (vs : list Vector3)
         (nnv : option Vector3) (min_sqdist : Real) : option Vector3 * Real :=
  match vs with
  | [] => (nnv, min_sqdist)
  | v :: rest =>
      let sqdist := squaredNorm (vminus v p) in
      match nnv with
      | None => nearest_vertex p rest (Some v) sqdist
      | Some _ =>
          if Qlt_bool sqdist min_sqdist
          then nearest_vertex p rest (Some v) sqdist
          else nearest_vertex p rest nnv min_sqdist
      end
  end.

Definition addPickedSample (m : Model) (label_ : string) (snap_to_vertex : bool)
  : Op bool :=
  if valid_pick m then
    let sample := mkSample (type (picked_sample m)) label_
                           (position (picked_sample m)) (mesh (picked_sample m))
                           (face_index (picked_sample m)) in
    let finish (sample : Sample) : Op bool :=
      op_modify (fun s => set_samples (samples s ++ [sample]) s) ;;;
      sfn <- op_gets getSamplesPath ;;
      saveSamples m sfn ;;;
      op_ret (valid_pick m) in
    if snap_to_vertex then
      match mapIndexToFace (face_index sample) with
      | None =>
          op_emit (Log ERROR [Text (getName m); Text ": Mesh face with index ";
                              Number (face_index sample); Text " not found"]) ;;;
          op_ret false
      | Some face =>
          match fst (nearest_vertex (position sample) (face_vertices face) None (-1)) with
          | Some nnv => finish (set_position nnv sample)
          | None => op_undefined
          end
      end
    else finish sample
  else op_ret (valid_pick m).

Definition removeSample (m : Model) (index : Z) : Op unit :=
  l <- op_gets samples ;;
  if in_range index l then
    op_modify (set_samples (erase (Z.to_nat index) l)) ;;;
    sfn <- op_gets getSamplesPath ;;
    saveSamples m sfn ;;;
    op_modify (set_selected_sample (-1)) ;;;
    op_emit (Post EVT_MODEL_NEEDS_REDRAW)
  else op_ret tt.

Definition selectSample (index : Z) : Op unit :=
  op_modify (set_selected_sample index) ;;;
  op_emit (Post EVT_MODEL_NEEDS_REDRAW).

(** [samples[i] = sample]. *)
Fixpoint assign {A} (i : nat) (x : A) (l : list A) : list A :=
  match l, i with
  | [], _ => []
  | _ :: rest, O => x :: rest
  | y :: rest, S i' => y :: assign i' x rest
  end.

(** The loop of [loadSamples]: [count] lines still to read, the next going
    to [samples[i]]. *)
Fixpoint load_entries (count i : nat) (input : list Line) (vars : Vars) : Op unit :=
  match count with
  | O => op_ret tt
  | S count' =>
      match getNextNonBlankLine input with
      | None => op_throw (Error [Text "Couldn't read line"])
      | Some (line, input') =>
          let '(vars', read_pos) := lex_sample line vars in
          match mapIndexToFace (v_face_index vars') with
          | None =>
              op_throw (Error [Text "Mesh face with index ";
                               Number (v_face_index vars'); Text " not found"])
          | Some face =>
              let store (pos : Vector3) : Op unit :=
                op_modify (fun s =>
                  set_samples (assign i (mkSample (v_type vars') (v_label vars') pos
                                                  (face_getParent face)
                                                  (v_face_index vars'))
                                      (samples s)) s) ;;;
                load_entries count' (S i) input' vars' in
              if read_pos then
                let '(c0, c1, c2) := v_coords vars' in store (vector3 c0 c1 c2)
              else
                match face_vertices face with
                | v0 :: v1 :: v2 :: _ =>
                    let '(b0, b1, b2) := v_bary vars' in
                    store (vplus (vplus (vscale b0 v0) (vscale b1 v1)) (vscale b2 v2))
                | vs =>
                    op_throw (Error [Text "Face "; Number (face_getIndex face);
                                     Text " has "; Number (Z.of_nat (length vs));
                                     Text " vertices"])
                end
          end
      end
  end.

(** [default_sample] is a default-constructed [Sample], [vars] holds the
    values of the variables before the first line is read. *)
Definition loadSamples (default_sample : Sample) (vars : Vars) (path_ : string)
  : Op bool :=
  op_modify (set_samples []) ;;;
  status <-
    op_try
      (match lines_of path_ with
       | None =>
           op_throw (Error [Text "Couldn't open samples file '"; Text path_; Text "'"])
       | Some input =>
           match getNextNonBlankLine input with
           | None => op_throw (Error [Text "Couldn't read first line"])
           | Some (line, input') =>
               match lex_count line with
               | None => op_throw (Error [Text "Couldn't read valid number of samples"])
               | Some n =>
                   if (n <? 0)%Z
                   then op_throw (Error [Text "Couldn't read valid number of samples"])
                   else
                     op_modify (set_samples (repeat default_sample (Z.to_nat n))) ;;;
                     load_entries (Z.to_nat n) 0 input' vars ;;;
                     op_ret true
               end
           end
       end)
      (fun _ =>
         op_emit (Log WARNING [Text "Couldn't load model samples from '";
                               Text path_; Text "'"]) ;;;
         op_ret false) ;;
  op_emit (Post EVT_MODEL_NEEDS_SYNC_SAMPLES) ;;;
  op_ret status.

(** *** Segments *)

(** The loop of [getSegment] from index [i] on: the index and the segment
    found, [None] for the null pointer (the index is then -1). *)
Fixpoint find_segment (me : Mesh) (depth : Z) (i : Z) (l : list Segment)
  : option (Z * Segment) :=
  match l with
  | [] => None
  | seg :: rest =>
      if hasMesh seg me depth then Some (i, seg)
      else find_segment me depth (i + 1)%Z rest
  end.

Definition getSegment (me : Mesh) (s : Annotations) : option (Z * Segment) :=
  find_segment me (segment_depth_promotion s) 0 (segments s).

(** [(int)i]: the conversion of an index to a 32-bit [int]. *)
Definition to_int (i : Z) : Z := ((i + 2 ^ 31) mod 2 ^ 32 - 2 ^ 31)%Z.

(** The value left in [*index]. *)
Definition getSegment_index (me : Mesh) (s : Annotations) : Z :=
  match getSegment me s with
  | Some (i, _) => to_int i
  | None => (-1)%Z
  end.

(** [intx] is a signed 64-bit integer; an overflow of [+=] has no defined
    behaviour. *)
Definition fits_intx (z : Z) : bool :=
  (- 2 ^ 63 <=? z)%Z && (z <? 2 ^ 63)%Z.

Definition promotePickedSegment (m : Model) (offset : Z) : Op unit :=
  d <- op_gets segment_depth_promotion ;;
  if fits_intx (d + offset) then
    let d1 := (d + offset)%Z in
    let d2 := if (d1 <? 0)%Z then 0%Z else d1 in
    min_depth <- op_gets (fun s => minDepth (picked_segment s)) ;;
    let d3 := if (0 <=? min_depth)%Z && (min_depth <=? d2)%Z
              then Z.max (min_depth - 1) 0 else d2 in
    op_modify (set_segment_depth_promotion d3) ;;;
    op_emit (Log CONSOLE [Text (getName m); Text ": Segment depth promotion set to ";
                          Number d3]) ;;;
    op_emit (Post EVT_MODEL_NEEDS_REDRAW)
  else op_undefined.

Definition addSegment (segment : Segment) : Op unit :=
  op_modify (fun s => set_segments (segments s ++ [segment]) s) ;;;
  op_emit (Post EVT_MODEL_NEEDS_REDRAW).

(** The indices that [saveSegments] writes for the meshes of a segment:
    the first face of every mesh that is not null and has a face. *)
Fixpoint representative_faces (meshes : list (option Mesh)) : list Z :=
  match meshes with
  | [] => []
  | None :: rest => representative_faces rest
  | Some me :: rest =>
      if (mesh_numFaces me <=? 0)%Z then representative_faces rest
      else mesh_firstFaceIndex me :: representative_faces rest
  end.

(** The loop of [saveSegments]; a line of faces is ended only when the
    segment has meshes, and an empty line separates two segments. *)
Fixpoint save_segments (todo : list Segment) : Op unit :=
  match todo with
  | [] => op_ret tt
  | seg :: rest =>
      op_emit (Put (SegmentLabel (getLabel seg))) ;;;
      (match getMeshes seg with
       | [] => op_ret tt
       | meshes => op_emit (Put (SegmentFaces (representative_faces meshes)))
       end) ;;;
      (match rest with
       | [] => op_ret tt
       | _ => op_emit (Put EmptyLine)
       end) ;;;
      save_segments rest
  end.

Definition saveSegments (path_ : string) : Op bool :=
  if opens_for_writing path_ then
    op_emit (Open path_) ;;;
    todo <- op_gets segments ;;
    save_segments todo ;;;
    op_ret true
  else op_ret false.

Definition addPickedSegment (m : Model) (label_ : string) : Op bool :=
  if (label_ =? "")%string then
    op_emit (Log WARNING [Text (getName m); Text ": Empty label, cannot add segment"]) ;;;
    op_ret false
  else
    n <- op_gets (fun s => numMeshes (picked_segment s)) ;;
    if (n <=? 0)%Z then
      op_emit (Log WARNING [Text (getName m);
                            Text ": Empty selection, cannot add segment"]) ;;;
      op_ret false
    else
      op_modify (fun s => set_picked_segment (setLabel label_ (picked_segment s)) s) ;;;
      op_modify (fun s => set_segments (segments s ++ [picked_segment s]) s) ;;;
      sfn <- op_gets getSegmentsPath ;;
      saveSegments sfn ;;;
      op_ret true.

Definition removeSegment (index : Z) : Op unit :=
  l <- op_gets segments ;;
  if in_range index l then
    op_modify (set_segments (erase (Z.to_nat index) l)) ;;;
    sfn <- op_gets getSegmentsPath ;;
    saveSegments sfn ;;;
    op_modify (set_selected_segment (-1)) ;;;
    op_emit (Post EVT_MODEL_NEEDS_REDRAW)
  else op_ret tt.

Definition selectSegment (index : Z) : Op unit :=
  op_modify (set_selected_segment index) ;;;
  op_emit (Post EVT_MODEL_NEEDS_REDRAW).

(** The inner loop of [loadSegments]: the meshes of the faces named on a
    line go to the segment. *)
Fixpoint add_faces (indices : list Z) (seg : Segment) : Exn + Segment :=
  match indices with
  | [] => inr seg
  | face_index :: rest =>
      match mapIndexToFace face_index with
      | None => inl (Error [Text "Mesh face with index "; Number face_index;
                            Text " not found"])
      | Some face => add_faces rest (addMesh (face_getParent face) seg)
      end
  end.

(** The outer loop of [loadSegments]; [fuel] bounds the number of lines
    still in the file. *)
Fixpoint load_segments (fuel : nat) (input : list Line) : Op unit :=
  match fuel with
  | O => op_ret tt
  | S fuel' =>
      match getNextNonBlankLine input with
      | None => op_ret tt
      | Some (line, input1) =>
          let seg := newSegment (trimWhitespace line) in
          match getNextNonBlankLine input1 with
          | None => op_throw (Error [Text "Couldn't read list of representative faces"])
          | Some (line2, input2) =>
              match add_faces (lex_indices line2) seg with
              | inl e => op_throw e
              | inr seg' =>
                  (if (0 <? numMeshes seg')%Z
                   then op_modify (fun s => set_segments (segments s ++ [seg']) s)
                   else op_ret tt) ;;;
                  load_segments fuel' input2
              end
          end
      end
  end.

Definition loadSegments (path_ : string) : Op bool :=
  op_modify (set_segments []) ;;;
  status <-
    op_try
      (match lines_of path_ with
       | None => op_throw (Error [Text "Couldn't open file"])
       | Some input =>
           op_modify (set_segments []) ;;;
           load_segments (length input) input ;;;
           op_ret true
       end)
      (fun _ =>
         op_emit (Log WARNING [Text "Couldn't load model segments from '";
                               Text path_; Text "'"]) ;;;
         op_ret false) ;;
  (if status then op_ret tt else op_modify (set_segments [])) ;;;
  op_emit (Post EVT_MODEL_NEEDS_SYNC_SEGMENTS) ;;;
  op_ret status.

(** What [clearMesh] does to these fields. *)
Definition clearMesh_annotations (s : Annotations) : Annotations :=
  mkAnnotations (path s) (features_path s) false false [] (selected_sample s)
                (segment_depth_promotion s) (selected_segment s) []
                (picked_segment s).

(** *** Labels and features *)

(** A mesh as [loadElementLabels] and [loadFeatures] see it: vertices with
    a position and a colour, faces with an index and a colour. *)
Record VertexRec : Type := mkVertexRec {
  vx_position : Vector3;
  vx_color : ColorRGB.ColorRGB
}.

Record FaceRec : Type := mkFaceRec {
  fc_index : Z;
  fc_color : ColorRGBA
}.

Record MeshRec : Type := mkMeshRec {
  ms_vertices : list VertexRec;
  ms_faces : list FaceRec
}.

(** The geometry of a model: the meshes of the mesh group in the order
    [forEachMeshUntil] visits them, and the point cloud; [None] is a null
    pointer. *)
Record Geometry : Type := mkGeometry {
  g_meshes : option (list MeshRec);
  g_cloud : option PointCloud
}.

(** A call on the geometry and the other fields: what it returns, what it
    leaves, and its trace; [None] when it has no defined behaviour. *)
Definition Painted : Type := option (bool * Geometry * Annotations * list Effect).

(** [FaceLabeler::operator()]: the faces as the loop leaves them, and the
    exception when it throws. *)
Fixpoint label_faces (elem_colors : list ColorRGBA) (faces : list FaceRec)
  : list FaceRec * option Exn :=
  match faces with
  | [] => ([], None)
  | fi :: rest =>
      let index := fc_index fi in
      if (index <? 0)%Z || (Z.of_nat (length elem_colors) <=? index)%Z then
        (fi :: rest, Some (Error [Text "Face index out of range of face labels array"]))
      else
        let '(rest', e) := label_faces elem_colors rest in
        (mkFaceRec index (nth (Z.to_nat index) elem_colors (fc_color fi)) :: rest', e)
  end.

(** [mesh_group->forEachMeshUntil(FaceLabeler(elem_colors))]: the labeller
    returns false for every mesh, so every mesh is visited unless it
    throws. *)
Fixpoint label_meshes (elem_colors : list ColorRGBA) (meshes : list MeshRec)
  : list MeshRec * option Exn :=
  match meshes with
  | [] => ([], None)
  | me :: rest =>
      match label_faces elem_colors (ms_faces me) with
      | (faces', Some e) => (mkMeshRec (ms_vertices me) faces' :: rest, Some e)
      | (faces', None) =>
          let '(rest', e) := label_meshes elem_colors rest in
          (mkMeshRec (ms_vertices me) faces' :: rest', e)
      end
  end.

(** The colour for a line of a labels file. *)
Definition line_color (line : Line) : ColorRGBA :=
  let trimmed := trimWhitespace line in
  match strtol_whole trimmed with
  | Some n => getPaletteColor n
  | None => getLabelColor trimmed
  end.

Definition loadElementLabels (path_ : string) (geom : Geometry) (s : Annotations)
  : bool * Geometry * Annotations * list Effect :=
  let s := set_has_elem_labels false s in
  match g_meshes geom, g_cloud geom with
  | None, None => (false, geom, s, [])
  | _, _ =>
      match lines_of path_ with
      | None =>
          (false, geom, s,
           [Log WARNING [Text "Couldn't open face labels file '"; Text path_;
                         Text "'"]])
      | Some input =>
          let elem_colors := map line_color input in
          match g_meshes geom with
          | Some meshes =>
              match label_meshes elem_colors meshes with
              | (meshes', Some _) =>
                  (false, mkGeometry (Some meshes') (g_cloud geom), s,
                   [Log WARNING [Text "Couldn't load model face labels from '";
                                 Text path_; Text "'"]])
              | (meshes', None) =>
                  (true, mkGeometry (Some meshes') (g_cloud geom),
                   set_has_elem_labels true s, [Post EVT_MODEL_NEEDS_REDRAW])
              end
          | None =>
              match g_cloud geom with
              | Some cloud =>
                  let '(cloud', ok) := setPointColors elem_colors cloud in
                  if ok then
                    (true, mkGeometry None (Some cloud'),
                     set_has_elem_labels true s, [Post EVT_MODEL_NEEDS_REDRAW])
                  else (false, mkGeometry None (Some cloud'), s, [])
              | None => (false, geom, s, [])
              end
          end
      end
  end.

(** [featToColor]; [None] for a null pointer, also as a result, when the
    call dereferences one. *)
Definition featToColor (f0 : Real) (f1 f2 : option Real) : option ColorRGB.ColorRGB :=
  match f2 with
  | None =>
      match f1 with
      | None => Some (jetColorMap ((2 # 10) + (6 # 10) * f0))
      | Some v1 => Some (ColorRGB.mkColorRGB f0 v1 1)
      end
  | Some v2 =>
      match f1 with
      | Some v1 => Some (ColorRGB.mkColorRGB f0 v1 v2)
      | None => None
      end
  end.

(** [feat_vals ? &feat_vals[nn_index] : nullptr], for a column that may be
    absent; the outer [None] is a read outside the column. *)
Definition entry_of (column : option (list Real)) (nn_index : Z)
  : option (option Real) :=
  match column with
  | None => Some None
  | Some vals =>
      if (nn_index <? 0)%Z then None
      else match nth_error vals (Z.to_nat nn_index) with
           | Some v => Some (Some v)
           | None => None
           end
  end.

(** The loop of [VertexFeatureVisitor] over the neighbours of a vertex:
    the weighted sum of their colours and the sum of the weights. *)
Fixpoint blend (scale2 : Real) (feat_vals0 : list Real)
         (feat_vals1 feat_vals2 : option (list Real)) (nbrs : list (Z * Real))
         (c : ColorRGB.ColorRGB) (sum_weights : Real)
  : option (ColorRGB.ColorRGB * Real) :=
  match nbrs with
  | [] => Some (c, sum_weights)
  | (nn_index, dist) :: rest =>
      let weight := fastMinusExp (dist * dist / scale2) in
      match entry_of (Some feat_vals0) nn_index,
            entry_of feat_vals1 nn_index, entry_of feat_vals2 nn_index with
      | Some (Some f0), Some f1, Some f2 =>
          match featToColor f0 f1 f2 with
          | Some fc =>
              blend scale2 feat_vals0 feat_vals1 feat_vals2 rest
                    (ColorRGB.plus c (ColorRGB.scalar_times weight fc))
                    (sum_weights + weight)
          | None => None
          end
      | _, _, _ => None
      end
  end.

(** The body of the loop of [VertexFeatureVisitor] for one vertex: its new
    colour and whether the warning is logged. *)
Definition vertex_color (feat_pts : list Vector3) (feat_vals0 : list Real)
           (feat_vals1 feat_vals2 : option (list Real)) (position : Vector3)
  : option (ColorRGB.ColorRGB * bool) :=
  let scale := ColorRGB.std_max ((2 # 10) * extent_norm feat_pts) (1 # 100000000) in
  let scale2 := scale * scale in
  let nbrs :=
    match kClosestPairs feat_pts position (Some (2 * scale)) with
    | [] => kClosestPairs feat_pts position None
    | found => found
    end in
  match nbrs with
  | [] => Some (ColorRGB.mkColorRGB 1 1 1, true)
  | _ =>
      match blend scale2 feat_vals0 feat_vals1 feat_vals2 nbrs
                  (ColorRGB.mkColorRGB 0 0 0) 0 with
      | Some (c, sum_weights) =>
          Some (if Qlt_bool 0 sum_weights then ColorRGB.div c sum_weights else c,
                false)
      | None => None
      end
  end.

(** [VertexFeatureVisitor::operator()] on the vertices of a mesh, and on
    the meshes of the group; the visitor returns false for every mesh. *)
Fixpoint color_vertices (feat_pts : list Vector3) (feat_vals0 : list Real)
         (feat_vals1 feat_vals2 : option (list Real)) (vertices : list VertexRec)
  : option (list VertexRec * list Effect) :=
  match vertices with
  | [] => Some ([], [])
  | vi :: rest =>
      match vertex_color feat_pts feat_vals0 feat_vals1 feat_vals2 (vx_position vi) with
      | Some (c, warn) =>
          match color_vertices feat_pts feat_vals0 feat_vals1 feat_vals2 rest with
          | Some (rest', log) =>
              Some (mkVertexRec (vx_position vi) c :: rest',
                    (if warn then [Log WARNING [Text "No nearest neighbor found!"]]
                     else []) ++ log)
          | None => None
          end
      | None => None
      end
  end.

Fixpoint color_meshes (feat_pts : list Vector3) (feat_vals0 : list Real)
         (feat_vals1 feat_vals2 : option (list Real)) (meshes : list MeshRec)
  : option (list MeshRec * list Effect) :=
  match meshes with
  | [] => Some ([], [])
  | me :: rest =>
      match color_vertices feat_pts feat_vals0 feat_vals1 feat_vals2 (ms_vertices me) with
      | Some (vertices', log) =>
          match color_meshes feat_pts feat_vals0 feat_vals1 feat_vals2 rest with
          | Some (rest', log') =>
              Some (mkMeshRec vertices' (ms_faces me) :: rest', log ++ log')
          | None => None
          end
      | None => None
      end
  end.

(** [feat_vals[i].push_back(f)] for the columns from the second on, each
    taking the next real of the line; [None] when the line runs out. *)
Fixpoint push_row (columns : list (list Real)) (reals : list Real)
  : option (list (list Real)) :=
  match columns with
  | [] => Some []
  | column :: rest =>
      match reals with
      | [] => None
      | f :: more =>
          match push_row rest more with
          | Some rest' => Some ((column ++ [f]) :: rest')
          | None => None
          end
      end
  end.

(** The loop of [loadFeatures] over the lines of the file: the feature
    points and the columns of feature values, or the exception. *)
Fixpoint read_features (input : list Line) (feat_pts : list Vector3)
         (feat_vals : list (list Real))
  : Exn + (list Vector3 * list (list Real)) :=
  match input with
  | [] => inr (feat_pts, feat_vals)
  | line :: rest =>
      if blank line then read_features rest feat_pts feat_vals
      else
        match lex_reals line, feat_vals with
        | p0 :: p1 :: p2 :: f :: more, column0 :: columns =>
            let feat_pts := feat_pts ++ [vector3 p0 p1 p2] in
            let column0 := column0 ++ [f] in
            match feat_pts with
            | [_] =>
                read_features rest feat_pts
                              (column0 :: columns ++ map (fun x => [x]) more)
            | _ =>
                match push_row columns more with
                | Some columns' => read_features rest feat_pts (column0 :: columns')
                | None => inl (Error [Text "Couldn't read feature"])
                end
            end
        | _, _ => inl (Error [Text "Couldn't read feature"])
        end
  end.

(** [std::sort] of a column. *)
Fixpoint insert_sorted (x : Real) (l : list Real) : list Real :=
  match l with
  | [] => [x]
  | y :: rest => if Qle_bool x y then x :: l else y :: insert_sorted x rest
  end.

Definition sort_reals (l : list Real) : list Real := fold_right insert_sorted [] l.

(** The largest absolute value of all feature values, from -1. *)
Definition largest_abs (feat_vals : list (list Real)) : Real :=
  fold_left (fun abs_max column =>
               fold_left (fun abs_max v =>
                            let abs_feat_val := Qabs v in
                            if Qlt_bool abs_max abs_feat_val then abs_feat_val
                            else abs_max)
                         column abs_max)
            feat_vals (-1).

(** The accentuation of one column by its 10th and 90th percentile;
    [(int)(0.1 * n)] is [n / 10] and [(int)(0.9 * n)] is [9 * n / 10].
    [None] is a read outside the sorted column. *)
Definition accentuate_column (column : list Real) : option (list Real) :=
  let sorted := sort_reals column in
  let tenth := (length sorted / 10)%nat in
  let ninetieth := (9 * length sorted / 10)%nat in
  match nth_error sorted tenth, nth_error sorted ninetieth,
        nth_error sorted 0, nth_error sorted (pred (length sorted)) with
  | Some lo, Some hi, Some front, Some back =>
      let stretch (lo hi range : Real) : list Real :=
        if Qle_bool 0 front then
          map (fun v => clamp ((v - lo) / range) 0 1) column
        else
          let abs_max := ColorRGB.std_max (Qabs lo) (Qabs hi) in
          map (fun v => clamp ((v + abs_max) / (2 * abs_max)) 0 1) column in
      let range := hi - lo in
      if Qlt_bool range (1 # 100000000000000000000) then
        let range := back - front in
        if Qlt_bool range (1 # 100000000000000000000) then Some column
        else Some (stretch front back range)
      else Some (stretch lo hi range)
  | _, _, _, _ => None
  end.

Fixpoint accentuate_columns (feat_vals : list (list Real))
  : option (list (list Real)) :=
  match feat_vals with
  | [] => Some []
  | column :: rest =>
      match accentuate_column column, accentuate_columns rest with
      | Some column', Some rest' => Some (column' :: rest')
      | _, _ => None
      end
  end.

(** The accentuation of [loadFeatures]; the two flags are options of the
    application. *)
Definition accentuate (accentuate_features color_cube_features : bool)
           (feat_vals : list (list Real)) : option (list (list Real)) :=
  if accentuate_features then
    if color_cube_features && (length feat_vals =? 3)%nat then
      let abs_max := largest_abs feat_vals in
      if Qlt_bool 0 abs_max then
        Some (map (map (fun v => clamp ((5 # 10) * (v / abs_max + 1)) 0 1)) feat_vals)
      else Some feat_vals
    else accentuate_columns feat_vals
  else Some feat_vals.

Definition loadFeatures (accentuate_features color_cube_features : bool)
           (path_ : string) (geom : Geometry) (s : Annotations) : Painted :=
  let s := set_features_path path_ s in
  match g_cloud geom with
  | Some cloud =>
      let '(cloud', ok) := cloud_loadFeatures path_ cloud in
      Some (ok, mkGeometry (g_meshes geom) (Some cloud'), set_has_features ok s, [])
  | None =>
      match g_meshes geom with
      | None => Some (false, geom, set_has_features false s, [])
      | Some meshes =>
          let failed :=
            Some (false, geom, set_has_features false s,
                  [Log WARNING [Text "Couldn't load model features from '";
                                Text path_; Text "'"];
                   Post EVT_MODEL_NEEDS_REDRAW]) in
          match lines_of path_ with
          | None => failed
          | Some input =>
              match read_features input [] [[]] with
              | inl _ => failed
              | inr ([], _) =>
                  Some (true, geom, set_has_features true s,
                        [Post EVT_MODEL_NEEDS_REDRAW])
              | inr (feat_pts, feat_vals) =>
                  match accentuate accentuate_features color_cube_features feat_vals with
                  | Some (feat_vals0 :: more) =>
                      match color_meshes feat_pts feat_vals0 (nth_error more 0)
                                         (nth_error more 1) meshes with
                      | Some (meshes', log) =>
                          Some (true, mkGeometry (Some meshes') (g_cloud geom),
                                set_has_features true s,
                                log ++ [Post EVT_MODEL_NEEDS_REDRAW])
                      | None => None
                      end
                  | _ => None
                  end
              end
          end
      end
  end.

(** *** Files that go with a model *)

(** One of the three inner loops of [getDefaultPath]: the first extension
    for which the file exists. *)
Fixpoint probe (dir stem : string) (query_exts : list string) : option string :=
  match query_exts with
  | [] => None
  | ext :: rest =>
      let ffn := concat dir (stem ++ ext)%string in
      if exists_on_disk ffn then Some ffn else probe dir stem rest
  end.

(** The outer loop of [getDefaultPath], over the values of [i] it still
    has to take. *)
Fixpoint search (model_path query_path : string) (query_exts : list string)
         (todo : list nat) : option string :=
  match todo with
  | [] => None
  | i :: rest =>
      let dir := if (i =? 0)%nat then query_path else parent model_path in
      match probe dir model_path query_exts with
      | Some ffn => Some ffn
      | None =>
          match probe dir (completeBaseName model_path) query_exts with
          | Some ffn => Some ffn
          | None =>
              match probe dir (baseName model_path) query_exts with
              | Some ffn => Some ffn
              | None => search model_path query_path query_exts rest
              end
          end
      end
  end.

Definition getDefaultPath (model_path query_path : string)
           (query_exts : list string) : string :=
  if fileExists query_path then query_path
  else
    let iter_begin := if directoryExists query_path then 0%nat else 1%nat in
    match search model_path query_path query_exts (seq iter_begin (2 - iter_begin)) with
    | Some ffn => ffn
    | None => ""%string
    end.

(** [features] and [elem_labels] are the options of the application. *)
Definition getDefaultFeaturesPath (features : string) (s : Annotations) : string :=
  getDefaultPath (path s) features [".arff"; ".features"]%string.

Definition getDefaultElementLabelsPath (elem_labels : string) (s : Annotations)
  : string :=
  getDefaultPath (path s) elem_labels [".seg"]%string.

(** *** Facts *)

Ltac op_unfold :=
  unfold op_bind, op_gets, op_modify, op_emit, op_ret, op_throw, op_try,
         op_undefined.

(** The state a call leaves, whether it returns or throws. *)
Definition left_state {A} (r : Outcome A) : option Annotations :=
  match r with
  | Returned _ s _ | Thrown _ s _ => Some s
  | Undefined => None
  end.

(** The trace of a call. *)
Definition trace_of {A} (r : Outcome A) : list Effect :=
  match r with
  | Returned _ _ log | Thrown _ _ log => log
  | Undefined => []
  end.

Lemma save_entries_state (m : Model) (todo : list Sample) (s : Annotations) :
  left_state (save_entries m todo s) = Some s.
Proof.
  induction todo as [|sample rest IH]; simpl; [reflexivity|].
  destruct (mapIndexToFace (face_index sample)) as [face|]; [|reflexivity].
  destruct (negb (same_mesh (face_getParent face) (mesh sample))); [reflexivity|].
  destruct (face_vertices face) as [|v0 [|v1 [|v2 vs]]]; try reflexivity.
  destruct (getBarycentricCoordinates3 (position sample) v0 v1 v2) as [[b0 b1] b2].
  op_unfold. simpl.
  destruct (save_entries m rest s); simpl in *; congruence.
Qed.

Lemma saveSamples_state (m : Model) (path_ : string) (s : Annotations) :
  left_state (saveSamples m path_ s) = Some s.
Proof.
  unfold saveSamples. destruct (opens_for_writing path_); [|reflexivity].
  op_unfold. simpl.
  pose proof (save_entries_state m (samples s) s) as H.
  destruct (save_entries m (samples s) s); simpl in *; congruence.
Qed.

Lemma save_segments_returns (todo : list Segment) (s : Annotations) :
  exists log, save_segments todo s = Returned tt s log.
Proof.
  induction todo as [|seg rest IH]; simpl; [eexists; reflexivity|].
  destruct IH as [log IH]. op_unfold.
  remember (save_segments rest) as k eqn:Hk. clear Hk.
  destruct (getMeshes seg); destruct rest; simpl; rewrite IH; eexists; reflexivity.
Qed.

Lemma saveSegments_returns (path_ : string) (s : Annotations) :
  exists ok log, saveSegments path_ s = Returned ok s log.
Proof.
  unfold saveSegments. destruct (opens_for_writing path_).
  - destruct (save_segments_returns (segments s) s) as [log H].
    op_unfold. simpl. rewrite H. do 2 eexists. reflexivity.
  - do 2 eexists. reflexivity.
Qed.

(** **** Snapping a picked sample to a vertex *)

Abbreviation sqdist_to p v := (squaredNorm (vminus v p)).

Lemma nearest_vertex_from (p : Vector3) (vs : list Vector3) (c : Vector3) :
  exists r,
    nearest_vertex p vs (Some c) (sqdist_to p c) = (Some r, sqdist_to p r)
    /\ ((r = c /\ forall v, In v vs -> sqdist_to p c <= sqdist_to p v)
        \/ (exists before after,
               vs = before ++ r :: after
               /\ sqdist_to p r < sqdist_to p c
               /\ (forall v, In v before -> sqdist_to p r < sqdist_to p v)
               /\ (forall v, In v after -> sqdist_to p r <= sqdist_to p v))).
Proof.
  revert c. induction vs as [|v rest IH]; intros c; simpl.
  - exists c. split; [reflexivity|]. left. split; [reflexivity|]. intros v [].
  - destruct (Qlt_bool_reflect (sqdist_to p v) (sqdist_to p c)) as [Hlt|Hge].
    + destruct (IH v) as [r [Heq Hr]]. exists r. split; [exact Heq|].
      right. destruct Hr as [[-> Hall] | [before [after [-> [Hr [Hb Ha]]]]]].
      * exists [], rest. simpl. repeat split; auto. intros x [].
      * exists (v :: before), after. simpl. repeat split; auto.
        -- eapply Qlt_trans; eassumption.
        -- intros x [<- | Hx]; auto.
    + apply Qnot_lt_le in Hge.
      destruct (IH c) as [r [Heq Hr]]. exists r. split; [exact Heq|].
      destruct Hr as [[-> Hall] | [before [after [-> [Hr [Hb Ha]]]]]].
      * left. split; [reflexivity|]. intros x [<- | Hx]; auto.
      * right. exists (v :: before), after. simpl. repeat split; auto.
        intros x [<- | Hx]; auto. eapply Qlt_le_trans; eassumption.
Qed.

Lemma nearest_vertex_spec (p : Vector3) (v0 : Vector3) (rest : list Vector3) :
  exists r before after,
    fst (nearest_vertex p (v0 :: rest) None (-1)) = Some r
    /\ v0 :: rest = before ++ r :: after
    /\ (forall v, In v before -> sqdist_to p r < sqdist_to p v)
    /\ (forall v, In v after -> sqdist_to p r <= sqdist_to p v).
Proof.
  simpl. destruct (nearest_vertex_from p rest v0) as [r [Heq Hr]].
  rewrite Heq. simpl.
  destruct Hr as [[-> Hall] | [before [after [-> [Hr [Hb Ha]]]]]].
  - exists v0, [], rest. simpl. repeat split; auto. intros x [].
  - exists r, (v0 :: before), after. simpl. repeat split; auto.
    intros x [<- | Hx]; auto.
Qed.

(** X1 (Model::addPickedSample, snap_to_vertex): with a valid pick on a
    face that has vertices, the call is defined and, whether saving the
    file then returns or throws, it has appended exactly one sample: the
    picked sample with the given label, moved to a vertex of its face that
    is nearest to the picked position (squared distance), the first such
    vertex in the order of the face; a returning call returns true. *)
Theorem addPickedSample_snaps_to_nearest_vertex
        (m : Model) (label_ : string) (s : Annotations) (face : Face) :
  valid_pick m = true ->
  mapIndexToFace (face_index (picked_sample m)) = Some face ->
  face_vertices face <> [] ->
  exists nnv before after s',
    face_vertices face = before ++ nnv :: after
    /\ (forall v, In v before ->
                  sqdist_to (position (picked_sample m)) nnv
                  < sqdist_to (position (picked_sample m)) v)
    /\ (forall v, In v after ->
                  sqdist_to (position (picked_sample m)) nnv
                  <= sqdist_to (position (picked_sample m)) v)
    /\ left_state (addPickedSample m label_ true s) = Some s'
    /\ s' = set_samples
              (samples s ++ [mkSample (type (picked_sample m)) label_ nnv
                                      (mesh (picked_sample m))
                                      (face_index (picked_sample m))]) s
    /\ (forall b s'' log, addPickedSample m label_ true s = Returned b s'' log ->
                          b = true).
Proof.
  intros Hpick Hface Hvs.
  destruct (face_vertices face) as [|v0 rest] eqn:Hverts; [congruence|].
  destruct (nearest_vertex_spec (position (picked_sample m)) v0 rest)
    as [r [before [after [Hfst [Hsplit [Hb Ha]]]]]].
  exists r, before, after.
  eexists. split; [exact Hsplit|]. split; [exact Hb|]. split; [exact Ha|].
  unfold addPickedSample. rewrite Hpick. cbn [face_index position].
  rewrite Hface, Hverts, Hfst.
  op_unfold. cbn [set_position type label position mesh face_index].
  match goal with
  | |- context [saveSamples m ?p ?st] =>
      pose proof (saveSamples_state m p st) as Hsave;
      destruct (saveSamples m p st) as [ok st' log | e st' log |]
  end; simpl in Hsave; [| |discriminate]; injection Hsave as ->.
  - split; [reflexivity|]. split; [reflexivity|].
    intros b s'' log' Heq. injection Heq as <- _ _. reflexivity.
  - split; [reflexivity|]. split; [reflexivity|].
    intros b s'' log' Heq. discriminate Heq.
Qed.

Lemma addPickedSample_as_picked (m : Model) (label_ : string) (s : Annotations) :
  valid_pick m = true ->
  left_state (addPickedSample m label_ false s)
  = Some (set_samples
            (samples s ++ [mkSample (type (picked_sample m)) label_
                                    (position (picked_sample m))
                                    (mesh (picked_sample m))
                                    (face_index (picked_sample m))]) s).
Proof.
  unfold addPickedSample. intros ->. op_unfold. simpl.
  match goal with
  | |- context [saveSamples m ?p ?st] =>
      pose proof (saveSamples_state m p st) as Hsave;
      destruct (saveSamples m p st) as [ok st' log | e st' log |]
  end; simpl in Hsave; [| |discriminate]; injection Hsave as ->; reflexivity.
Qed.

(** X2 (Model::addPickedSample, the other paths): without a valid pick the
    call returns false and neither changes nor writes anything; with a
    valid pick and snapping, a face index that names no face is logged as
    an error and false is returned with the samples unchanged, and a face
    without vertices makes the call dereference the null [nnv]; without
    snapping the picked sample is appended as it is, with the label. *)
Theorem addPickedSample_paths (m : Model) (label_ : string) (s : Annotations) :
  (valid_pick m = false ->
   forall snap, addPickedSample m label_ snap s = Returned false s [])
  /\ (valid_pick m = true ->
      mapIndexToFace (face_index (picked_sample m)) = None ->
      addPickedSample m label_ true s
      = Returned false s
                 [Log ERROR [Text (getName m); Text ": Mesh face with index ";
                             Number (face_index (picked_sample m));
                             Text " not found"]])
  /\ (valid_pick m = true ->
      forall face,
        mapIndexToFace (face_index (picked_sample m)) = Some face ->
        face_vertices face = [] ->
        addPickedSample m label_ true s = Undefined)
  /\ (valid_pick m = true ->
      left_state (addPickedSample m label_ false s)
      = Some (set_samples
                (samples s ++ [mkSample (type (picked_sample m)) label_
                                        (position (picked_sample m))
                                        (mesh (picked_sample m))
                                        (face_index (picked_sample m))]) s)).
Proof.
  unfold addPickedSample. repeat split.
  - intros -> snap. reflexivity.
  - intros -> Hface. cbn [face_index]. rewrite Hface. reflexivity.
  - intros -> face Hface Hverts. cbn [face_index]. rewrite Hface, Hverts.
    reflexivity.
  - intros ->. op_unfold. simpl.
    match goal with
    | |- context [saveSamples m ?p ?st] =>
        pose proof (saveSamples_state m p st) as Hsave;
        destruct (saveSamples m p st) as [ok st' log | e st' log |]
    end; simpl in Hsave; [| |discriminate]; injection Hsave as ->; reflexivity.
Qed.

(** **** Removing a sample *)

Lemma erase_length {A} (i : nat) (l : list A) :
  (i < length l)%nat -> length (erase i l) = pred (length l).
Proof.
  intros H. unfold erase.
  rewrite length_app, length_firstn, length_skipn. lia.
Qed.

Lemma erase_nth_error {A} (i j : nat) (l : list A) :
  (i < length l)%nat ->
  nth_error (erase i l) j
  = if (j <? i)%nat then nth_error l j else nth_error l (S j).
Proof.
  intros H. unfold erase.
  destruct (Nat.ltb_spec j i) as [Hj|Hj].
  - rewrite nth_error_app1 by (rewrite length_firstn; lia).
    rewrite nth_error_firstn.
    destruct (Nat.ltb_spec j i); [reflexivity | lia].
  - rewrite nth_error_app2 by (rewrite length_firstn; lia).
    rewrite length_firstn, nth_error_skipn.
    f_equal. lia.
Qed.

Lemma erase_last {A} (l : list A) (x : A) : erase (length l) (l ++ [x]) = l.
Proof.
  unfold erase.
  rewrite firstn_app, Nat.sub_diag, firstn_all, firstn_O.
  rewrite skipn_all2 by (rewrite length_app; simpl; lia).
  now rewrite !app_nil_r.
Qed.

Lemma in_range_iff {A} (index : Z) (l : list A) :
  in_range index l = true <-> (0 <= index < Z.of_nat (length l))%Z.
Proof.
  unfold in_range. rewrite andb_true_iff, Z.leb_le, Z.ltb_lt. tauto.
Qed.

(** X3 (Model::removeSample): an index below 0 or not below the number of
    samples changes nothing, saves nothing and posts nothing; an index in
    range removes exactly that sample, the others keeping their order,
    also when saving then throws; a returning call has reset the selection
    to -1, whichever sample was selected, and ends by asking for a
    redraw. *)
Theorem removeSample_erases (m : Model) (index : Z) (s : Annotations) :
  if in_range index (samples s) then
    exists s',
      left_state (removeSample m index s) = Some s'
      /\ length (samples s') = pred (length (samples s))
      /\ (forall j, nth_error (samples s') j
                    = if (j <? Z.to_nat index)%nat
                      then nth_error (samples s) j
                      else nth_error (samples s) (S j))
      /\ (forall u s'' log,
             removeSample m index s = Returned u s'' log ->
             selected_sample s'' = (-1)%Z
             /\ exists log', log = log' ++ [Post EVT_MODEL_NEEDS_REDRAW])
  else removeSample m index s = Returned tt s [].
Proof.
  unfold removeSample. op_unfold. cbn beta iota.
  destruct (in_range index (samples s)) eqn:Hr; [|reflexivity].
  apply in_range_iff in Hr.
  assert (Hlt : (Z.to_nat index < length (samples s))%nat) by lia.
  cbn beta iota.
  match goal with
  | |- context [saveSamples m ?p ?st] =>
      pose proof (saveSamples_state m p st) as Hsave;
      destruct (saveSamples m p st) as [ok st' log | e st' log |]
  end; simpl in Hsave; [| |discriminate]; injection Hsave as ->.
  - eexists. split; [reflexivity|]. cbn [samples set_samples set_selected_sample].
    split; [now apply erase_length|]. split; [intros j; now apply erase_nth_error|].
    intros u s'' log' Heq. injection Heq as _ <- <-.
    split; [reflexivity|]. eexists. reflexivity.
  - eexists. split; [reflexivity|]. cbn [samples set_samples].
    split; [now apply erase_length|]. split; [intros j; now apply erase_nth_error|].
    intros u s'' log' Heq. discriminate Heq.
Qed.

(** X4 (Model::addSample, Model::removeSample): removing the sample just
    added, at the index it got, restores the list of samples. *)
Theorem addSample_removeSample_round_trip
        (m : Model) (sample : Sample) (s : Annotations) :
  exists s',
    left_state ((addSample sample ;;;
                 removeSample m (Z.of_nat (length (samples s)))) s) = Some s'
    /\ samples s' = samples s.
Proof.
  unfold addSample, removeSample. op_unfold. cbn beta iota.
  cbn [samples set_samples].
  assert (Hr : in_range (Z.of_nat (length (samples s))) (samples s ++ [sample]) = true).
  { apply in_range_iff. rewrite length_app. simpl. lia. }
  rewrite Hr. cbn beta iota. rewrite Nat2Z.id, erase_last.
  match goal with
  | |- context [saveSamples m ?p ?st] =>
      pose proof (saveSamples_state m p st) as Hsave;
      destruct (saveSamples m p st) as [ok st' log | e st' log |]
  end; simpl in Hsave; [| |discriminate]; injection Hsave as ->;
    eexists; (split; [reflexivity|]); reflexivity.
Qed.

(** **** Saving samples *)

(** The lines a trace writes. *)
Fixpoint lines_written (log : list Effect) : list Written :=
  match log with
  | [] => []
  | Put line :: rest => line :: lines_written rest
  | _ :: rest => lines_written rest
  end.

Lemma lines_written_app (l1 l2 : list Effect) :
  lines_written (l1 ++ l2) = lines_written l1 ++ lines_written l2.
Proof.
  induction l1 as [|e l1 IH]; simpl; [reflexivity|].
  destruct e; simpl; now rewrite IH.
Qed.

(** A coordinate as [saveSamples] writes it: not in [-1.0e-06, 0). *)
Definition written_coordinate (c : Real) : Prop :=
  0 <= c \/ c < - (1 # 1000000).

Definition sample_entry (line : Written) : Prop :=
  match line with
  | SampleEntry _ _ (b0, b1, b2) _ _ =>
      written_coordinate b0 /\ written_coordinate b1 /\ written_coordinate b2
  | _ => False
  end.

Lemma snap_zero_written (b : Real) : written_coordinate (snap_zero b).
Proof.
  unfold written_coordinate, snap_zero.
  destruct (Qle_bool_reflect b 0) as [H0|H0]; simpl.
  - destruct (Qle_bool_reflect (- (1 # 1000000)) b) as [H1|H1].
    + left. apply Qle_refl.
    + right. now apply Qnot_le_lt.
  - left. apply Qlt_le_weak. now apply Qnot_le_lt.
Qed.

(** Whether a call returned true. *)
Definition returned_true (r : Outcome bool) : bool :=
  match r with
  | Returned true _ _ => true
  | _ => false
  end.

Lemma save_entries_lines (m : Model) (todo : list Sample) (s : Annotations) :
  let r := save_entries m todo s in
  Forall sample_entry (lines_written (trace_of r))
  /\ if returned_true r
     then length (lines_written (trace_of r)) = length todo
     else (length (lines_written (trace_of r)) < length todo)%nat.
Proof.
  induction todo as [|sample rest IH]; simpl.
  - split; [constructor | reflexivity].
  - destruct (mapIndexToFace (face_index sample)) as [face|];
      [|simpl; split; [constructor | lia]].
    destruct (negb (same_mesh (face_getParent face) (mesh sample)));
      [simpl; split; [constructor | lia]|].
    destruct (face_vertices face) as [|v0 [|v1 [|v2 vs]]];
      try (simpl; split; [constructor | lia]).
    destruct (getBarycentricCoordinates3 (position sample) v0 v1 v2) as [[b0 b1] b2].
    op_unfold. simpl in IH. destruct IH as [IHa IHb].
    destruct (save_entries m rest s) as [[|] st log | e st log |];
      simpl in *; (split; [|lia]);
      first [ constructor; [repeat split; apply snap_zero_written | assumption]
            | constructor ].
Qed.

(** X5 (Model::saveSamples): once the file is open the call writes the
    number of samples first and then one line for each sample it reaches,
    with each barycentric coordinate either non-negative or below
    -1.0e-06; it returns true exactly when it wrote as many lines as it
    announced, so a call that returns false or throws (a face index that
    names no face, a face of another mesh, a face with fewer than three
    vertices) leaves a file that announces more samples than it holds.
    The model's samples are not changed. *)
Theorem saveSamples_announces_before_it_writes
        (m : Model) (path_ : string) (s : Annotations) :
  opens_for_writing path_ = true ->
  let r := saveSamples m path_ s in
  left_state r = Some s
  /\ exists entries,
      lines_written (trace_of r) = SampleCount (length (samples s)) :: entries
      /\ Forall sample_entry entries
      /\ if returned_true r
         then length entries = length (samples s)
         else (length entries < length (samples s))%nat.
Proof.
  intros Hopen r. split; [apply saveSamples_state|].
  subst r. unfold saveSamples. rewrite Hopen. op_unfold. cbn beta iota.
  pose proof (save_entries_lines m (samples s) s) as [Ha Hb].
  pose proof (save_entries_state m (samples s) s) as Hst.
  destruct (save_entries m (samples s) s) as [ok st log | e st log |];
    simpl in *; [| |discriminate];
    eexists; (split; [reflexivity|]); split; assumption.
Qed.

(** **** Loading samples *)

Lemma assign_length {A} (i : nat) (x : A) (l : list A) :
  length (assign i x l) = length l.
Proof.
  revert i. induction l as [|y l IH]; intros [|i]; simpl; auto.
Qed.

(** Two states that differ in their samples only. *)
Definition same_but_samples (s s' : Annotations) : Prop :=
  s' = set_samples (samples s') s.


Lemma same_but_samples_set (s s' : Annotations) (l : list Sample) :
  same_but_samples s s' -> same_but_samples s (set_samples l s').
Proof.
  unfold same_but_samples. intros ->. destruct s. reflexivity.
Qed.




(** A sample that lies on a face that exists and carries the mesh of that
    face. *)
Definition on_its_face (sample : Sample) : Prop :=
  exists face, mapIndexToFace (face_index sample) = Some face
               /\ mesh sample = face_getParent face.

(** A sample on a face with fewer than three vertices. *)
Definition on_degenerate_face (sample : Sample) : Prop :=
  exists face, mapIndexToFace (face_index sample) = Some face
               /\ (length (face_vertices face) < 3)%nat.

Lemma assign_firstn {A} (i : nat) (x : A) (l : list A) :
  (i < length l)%nat -> firstn (S i) (assign i x l) = firstn i l ++ [x].
Proof.
  revert i. induction l as [|y l IH]; intros [|i] Hi; simpl in *; try lia.
  - reflexivity.
  - f_equal. apply IH. lia.
Qed.

Lemma load_entries_on_faces (count i : nat) (input : list Line) (vars : Vars)
      (s s' : Annotations) (log : list Effect) :
  length (samples s) = (i + count)%nat ->
  Forall on_its_face (firstn i (samples s)) ->
  load_entries count i input vars s = Returned tt s' log ->
  Forall on_its_face (samples s').
Proof.
  revert i input vars s log.
  induction count as [|count IH]; intros i input vars s log Hlen Hfirst; simpl.
  - op_unfold. intros E. inversion E; subst.
    rewrite Nat.add_0_r in Hlen. rewrite <- Hlen, firstn_all in Hfirst. exact Hfirst.
  - destruct (getNextNonBlankLine input) as [[line input']|]; [|discriminate].
    destruct (lex_sample line vars) as [vars' read_pos].
    destruct (mapIndexToFace (v_face_index vars')) as [face|] eqn:Hface;
      [|discriminate].
    assert (Hstore : forall pos,
      (op_modify (fun s0 =>
         set_samples (assign i (mkSample (v_type vars') (v_label vars') pos
                                         (face_getParent face)
                                         (v_face_index vars'))
                             (samples s0)) s0) ;;;
       load_entries count (S i) input' vars') s = Returned tt s' log ->
      Forall on_its_face (samples s')).
    { intros pos. op_unfold. cbn beta iota.
      match goal with
      | |- context [load_entries count (S i) input' vars' ?st] =>
          pose proof (IH (S i) input' vars' st) as H;
          destruct (load_entries count (S i) input' vars' st) as [u s1 l1| |]
            eqn:Hrun; [|discriminate|discriminate]
      end.
      intros E. inversion E; subst.
      eapply H; [| |reflexivity].
      - cbn [samples set_samples]. rewrite assign_length. lia.
      - cbn [samples set_samples]. rewrite assign_firstn by lia.
        apply Forall_app. split; [exact Hfirst|].
        constructor; [|constructor]. exists face. split; [exact Hface | reflexivity]. }
    destruct read_pos.
    + destruct (v_coords vars') as [[c0 c1] c2]. apply Hstore.
    + destruct (face_vertices face) as [|v0 [|v1 [|v2 vs]]]; try discriminate.
      destruct (v_bary vars') as [[b0 b1] b2]. apply Hstore.
Qed.

Lemma save_entries_on_faces (m : Model) (todo : list Sample) (s : Annotations) :
  (forall me : option Mesh, same_mesh me me = true) ->
  Forall on_its_face todo ->
  match save_entries m todo s with
  | Returned ok _ log => ok = true /\ length (lines_written log) = length todo
  | Thrown _ _ _ => Exists on_degenerate_face todo
  | Undefined => False
  end.
Proof.
  intros Hsame Hall. induction Hall as [|sample rest (face & Hface & Hmesh) Hrest IH];
    simpl; [split; reflexivity|].
  rewrite Hface, Hmesh, Hsame. cbn [negb].
  destruct (face_vertices face) as [|v0 [|v1 [|v2 vs]]] eqn:Hvs;
    try (op_unfold; left; exists face; split; [exact Hface|];
         rewrite Hvs; simpl; lia).
  destruct (getBarycentricCoordinates3 (position sample) v0 v1 v2) as [[b0 b1] b2].
  op_unfold. cbn beta iota.
  destruct (save_entries m rest s) as [ok s1 l1 | e s1 l1 |].
  - destruct IH as [-> Hlen]. split; [reflexivity|].
    cbn [app lines_written]. simpl. now rewrite Hlen.
  - right. exact IH.
  - exact IH.
Qed.

(** X30 (Model::loadSamples, Model::saveSamples): after a call of
    [loadSamples] that returns true, every sample of the model lies on a
    face that exists and carries the mesh of that face.  So, pointers
    being equal to themselves, a following [saveSamples] whose file opens
    never gives up with a missing face or a wrong mesh: it returns true,
    having written the count and every sample, or it throws because a
    sample lies on a face with fewer than three vertices. *)
Theorem loadSamples_then_saveSamples
        (default_sample : Sample) (vars : Vars) (path_ save_path : string)
        (m : Model) (s s' : Annotations) (log : list Effect) :
  (forall me : option Mesh, same_mesh me me = true) ->
  loadSamples default_sample vars path_ s = Returned true s' log ->
  Forall on_its_face (samples s')
  /\ (opens_for_writing save_path = true ->
      match saveSamples m save_path s' with
      | Returned ok _ log' =>
          ok = true /\ length (lines_written log') = S (length (samples s'))
      | Thrown _ _ _ => Exists on_degenerate_face (samples s')
      | Undefined => False
      end).
Proof.
  intros Hsame Hload.
  assert (Hall : Forall on_its_face (samples s')).
  { revert Hload. unfold loadSamples. op_unfold. cbn beta iota.
    destruct (lines_of path_) as [input|]; [|discriminate].
    destruct (getNextNonBlankLine input) as [[line input']|]; [|discriminate].
    destruct (lex_count line) as [n|]; [|discriminate].
    destruct (n <? 0)%Z; [discriminate|]. cbn beta iota.
    match goal with
    | |- context [load_entries (Z.to_nat n) 0 input' vars ?st] =>
        pose proof (@load_entries_on_faces (Z.to_nat n) 0 input' vars st) as H;
        destruct (load_entries (Z.to_nat n) 0 input' vars st) as [u s1 l1 | e s1 l1 |]
          eqn:Hrun; [|discriminate|discriminate]
    end.
    cbn beta iota. intros E. inversion E; subst. destruct u.
    eapply H; [| |reflexivity].
    - cbn [samples set_samples]. now rewrite repeat_length.
    - constructor. }
  split; [exact Hall|]. intros Hopen. unfold saveSamples. rewrite Hopen.
  op_unfold. cbn beta iota.
  pose proof (save_entries_on_faces m s' Hsame Hall) as Hsave.
  destruct (save_entries m (samples s') s') as [ok s1 l1 | e s1 l1 |].
  - destruct Hsave as [-> Hlen]. split; [reflexivity|].
    cbn [app lines_written]. simpl. now rewrite Hlen.
  - exact Hsave.
  - exact Hsave.
Qed.

(** **** Segments *)

Lemma find_segment_spec (me : Mesh) (depth : Z) (l : list Segment) (i : Z) :
  match find_segment me depth i l with
  | Some (k, seg) =>
      (i <= k)%Z
      /\ nth_error l (Z.to_nat (k - i)) = Some seg
      /\ hasMesh seg me depth = true
      /\ forall j seg', (j < Z.to_nat (k - i))%nat ->
                        nth_error l j = Some seg' ->
                        hasMesh seg' me depth = false
  | None => forall seg', In seg' l -> hasMesh seg' me depth = false
  end.
Proof.
  revert i. induction l as [|seg rest IH]; intros i; simpl.
  - intros seg' [].
  - destruct (hasMesh seg me depth) eqn:Hhas.
    + rewrite Z.sub_diag. simpl. repeat split; [lia | exact Hhas |].
      intros j seg' Hj. lia.
    + specialize (IH (i + 1)%Z).
      destruct (find_segment me depth (i + 1) rest) as [[k seg0]|].
      * destruct IH as [Hle [Hnth [Hh Hfirst]]].
        assert (Hk : Z.to_nat (k - i) = S (Z.to_nat (k - (i + 1)))) by lia.
        rewrite Hk. simpl. repeat split; [lia | exact Hnth | exact Hh |].
        intros [|j] seg' Hj Hseg; simpl in Hseg.
        -- now injection Hseg as <-.
        -- apply (Hfirst j); [lia | exact Hseg].
      * intros seg' [<- | Hin]; auto.
Qed.

(** X7 (Model::getSegment): the segment returned is the first one, in the
    order of the list, that has the mesh at the current depth promotion,
    and the index written is its position converted to [int], which is the
    position itself below 2^31; when no segment has the mesh the null
    pointer is returned and the index written is -1. *)
Theorem getSegment_first_match (me : Mesh) (s : Annotations) :
  match getSegment me s with
  | Some (k, seg) =>
      getSegment_index me s = to_int k
      /\ ((k < 2 ^ 31)%Z -> getSegment_index me s = k)
      /\ (0 <= k)%Z
      /\ nth_error (segments s) (Z.to_nat k) = Some seg
      /\ hasMesh seg me (segment_depth_promotion s) = true
      /\ forall j seg', (j < Z.to_nat k)%nat ->
                        nth_error (segments s) j = Some seg' ->
                        hasMesh seg' me (segment_depth_promotion s) = false
  | None =>
      getSegment_index me s = (-1)%Z
      /\ forall seg', In seg' (segments s) ->
                      hasMesh seg' me (segment_depth_promotion s) = false
  end.
Proof.
  unfold getSegment_index, getSegment.
  pose proof (find_segment_spec me (segment_depth_promotion s) (segments s) 0) as H.
  destruct (find_segment me (segment_depth_promotion s) 0 (segments s)) as [[k seg]|].
  - rewrite Z.sub_0_r in H. destruct H as [H0 [H1 [H2 H3]]].
    split; [reflexivity|]. split; [|auto].
    intros Hk. unfold to_int.
    change (2 ^ 31)%Z with 2147483648%Z in *.
    change (2 ^ 32)%Z with 4294967296%Z.
    rewrite Z.mod_small by lia. lia.
  - auto.
Qed.

(** X8 (Model::promotePickedSegment): when the sum fits a 64-bit integer
    the call returns with a depth promotion that is never negative, that is
    below the minimum depth of the picked segment when that depth is
    positive, 0 when it is 0, and otherwise the sum itself, or 0 for a
    negative sum; the other fields are unchanged and a redraw is asked
    for.  A sum that does not fit is a signed overflow. *)
Theorem promotePickedSegment_range (m : Model) (offset : Z) (s : Annotations) :
  let sum := (segment_depth_promotion s + offset)%Z in
  let min_depth := minDepth (picked_segment s) in
  if fits_intx sum then
    exists d log,
      promotePickedSegment m offset s
      = Returned tt (set_segment_depth_promotion d s)
                 (log ++ [Post EVT_MODEL_NEEDS_REDRAW])
      /\ (0 <= d)%Z
      /\ (0 < min_depth -> d < min_depth)%Z
      /\ (min_depth = 0 -> d = 0)%Z
      /\ (min_depth < 0 \/ Z.max sum 0 < min_depth -> d = Z.max sum 0)%Z
  else promotePickedSegment m offset s = Undefined.
Proof.
  intros sum min_depth. unfold promotePickedSegment. op_unfold. cbn beta iota.
  fold sum. destruct (fits_intx sum); [|reflexivity].
  cbn beta iota. fold min_depth.
  set (d := if (0 <=? min_depth)%Z && (min_depth <=? (if (sum <? 0)%Z then 0 else sum))%Z
            then Z.max (min_depth - 1) 0
            else (if (sum <? 0)%Z then 0 else sum)%Z).
  exists d, [Log CONSOLE [Text (getName m); Text ": Segment depth promotion set to ";
                          Number d]].
  split; [reflexivity|].
  subst d.
  destruct (Z.ltb_spec sum 0); destruct (Z.leb_spec 0 min_depth);
    simpl; try destruct (Z.leb_spec min_depth 0);
    try destruct (Z.leb_spec min_depth sum); simpl; lia.
Qed.

(** X9 (Model::addPickedSegment): the call returns true exactly when the
    label is not empty and the picked segment has a mesh.  It then has
    given the picked segment the label and appended a copy to the
    segments; the picked segment keeps its meshes and the label.  When it
    returns false nothing is changed and nothing is written. *)
Theorem addPickedSegment_guards (m : Model) (label_ : string) (s : Annotations) :
  if negb (label_ =? "")%string && (0 <? numMeshes (picked_segment s))%Z then
    exists log,
      addPickedSegment m label_ s
      = Returned true
                 (set_segments (segments s ++ [setLabel label_ (picked_segment s)])
                               (set_picked_segment
                                  (setLabel label_ (picked_segment s)) s))
                 log
  else
    exists msg, addPickedSegment m label_ s = Returned false s [Log WARNING msg].
Proof.
  unfold addPickedSegment. op_unfold.
  destruct (label_ =? "")%string; simpl; [eexists; reflexivity|].
  destruct (Z.ltb_spec 0 (numMeshes (picked_segment s))) as [Hn|Hn];
    destruct (Z.leb_spec (numMeshes (picked_segment s)) 0) as [Hn'|Hn'];
    try lia; simpl; [|eexists; reflexivity].
  match goal with
  | |- context [saveSegments ?p ?st] =>
      destruct (saveSegments_returns p st) as [ok [log Hsave]]; rewrite Hsave
  end.
  eexists. reflexivity.
Qed.

(** X10 (Model::removeSegment): an index out of range changes nothing and
    writes nothing; an index in range removes exactly that segment, the
    others keeping their order, resets the selected segment to -1 and asks
    for a redraw last; the call always returns. *)
Theorem removeSegment_erases (index : Z) (s : Annotations) :
  if in_range index (segments s) then
    exists log,
      removeSegment index s
      = Returned tt (set_selected_segment (-1)
                       (set_segments (erase (Z.to_nat index) (segments s)) s))
                 (log ++ [Post EVT_MODEL_NEEDS_REDRAW])
      /\ length (erase (Z.to_nat index) (segments s)) = pred (length (segments s))
      /\ forall j, nth_error (erase (Z.to_nat index) (segments s)) j
                   = if (j <? Z.to_nat index)%nat
                     then nth_error (segments s) j
                     else nth_error (segments s) (S j)
  else removeSegment index s = Returned tt s [].
Proof.
  unfold removeSegment. op_unfold. cbn beta iota.
  destruct (in_range index (segments s)) eqn:Hr; [|reflexivity].
  apply in_range_iff in Hr.
  assert (Hlt : (Z.to_nat index < length (segments s))%nat) by lia.
  cbn beta iota.
  match goal with
  | |- context [saveSegments ?p ?st] =>
      destruct (saveSegments_returns p st) as [ok [log Hsave]]; rewrite Hsave
  end.
  exists log. split; [|split].
  - simpl. rewrite ?app_nil_r. reflexivity.
  - now apply erase_length.
  - intros j. now apply erase_nth_error.
Qed.

(** **** Loading segments *)

Lemma getNextNonBlankLine_shorter (input rest : list Line) (line : Line) :
  getNextNonBlankLine input = Some (line, rest) ->
  (length rest < length input)%nat.
Proof.
  induction input as [|l input IH]; simpl; [discriminate|].
  destruct (blank l).
  - intros H. specialize (IH H). lia.
  - intros H. injection H as _ <-. lia.
Qed.

(** Two states that differ in their segments only. *)
Definition same_but_segments (s s' : Annotations) : Prop :=
  s' = set_segments (segments s') s.

(** The loop of [loadSegments] stops before its fuel runs out: more fuel
    than the number of lines changes nothing. *)
Lemma load_segments_fuel (fuel extra : nat) (input : list Line) (s : Annotations) :
  (length input <= fuel)%nat ->
  load_segments (fuel + extra) input s = load_segments fuel input s.
Proof.
  revert input s. induction fuel as [|fuel IH]; intros input s Hlen.
  - destruct input; [|simpl in Hlen; lia].
    destruct extra; reflexivity.
  - simpl.
    destruct (getNextNonBlankLine input) as [[line input1]|] eqn:H1; [|reflexivity].
    destruct (getNextNonBlankLine input1) as [[line2 input2]|] eqn:H2; [|reflexivity].
    destruct (add_faces (lex_indices line2) (newSegment (trimWhitespace line)))
      as [e|seg']; [reflexivity|].
    apply getNextNonBlankLine_shorter in H1, H2.
    op_unfold.
    destruct (0 <? numMeshes seg')%Z; cbn beta iota; rewrite IH by lia; reflexivity.
Qed.

Lemma load_segments_outcome (fuel : nat) (input : list Line) (s : Annotations) :
  Forall (fun seg => 0 < numMeshes seg)%Z (segments s) ->
  match load_segments fuel input s with
  | Returned _ s' _ | Thrown _ s' _ =>
      same_but_segments s s'
      /\ Forall (fun seg => 0 < numMeshes seg)%Z (segments s')
  | Undefined => False
  end.
Proof.
  revert input s. induction fuel as [|fuel IH]; intros input s Hall; simpl.
  - split; [destruct s; reflexivity | exact Hall].
  - destruct (getNextNonBlankLine input) as [[line input1]|];
      [|simpl; split; [destruct s; reflexivity | exact Hall]].
    destruct (getNextNonBlankLine input1) as [[line2 input2]|];
      [|simpl; split; [destruct s; reflexivity | exact Hall]].
    destruct (add_faces (lex_indices line2) (newSegment (trimWhitespace line)))
      as [e|seg']; [simpl; split; [destruct s; reflexivity | exact Hall]|].
    op_unfold.
    destruct (Z.ltb_spec 0 (numMeshes seg')) as [Hn|Hn]; cbn beta iota.
    + match goal with
      | |- context [load_segments fuel input2 ?st] =>
          assert (Hall' : Forall (fun seg => 0 < numMeshes seg)%Z (segments st))
            by (cbn [segments set_segments]; apply Forall_app; split;
                [exact Hall | constructor; [exact Hn | constructor]]);
          pose proof (IH input2 st Hall') as H;
          destruct (load_segments fuel input2 st)
      end; try contradiction; destruct H as [Hsame Hp]; (split; [|exact Hp]);
        unfold same_but_segments in *; rewrite Hsame; destruct s; reflexivity.
    + pose proof (IH input2 s Hall) as H.
      destruct (load_segments fuel input2 s); try contradiction;
        destruct H as [Hsame Hp]; (split; [|exact Hp]); exact Hsame.
Qed.

(** X11 (Model::loadSegments): the call always returns, lets no exception
    out, changes nothing but the segments, and posts
    EVT_MODEL_NEEDS_SYNC_SEGMENTS last.  It is all or nothing: when it
    returns false the model has no segment at all, whatever was read
    before the failure; when it returns true every segment it holds has a
    mesh. *)
Theorem loadSegments_all_or_nothing (path_ : string) (s : Annotations) :
  exists status s' log,
    loadSegments path_ s
    = Returned status s' (log ++ [Post EVT_MODEL_NEEDS_SYNC_SEGMENTS])
    /\ same_but_segments s s'
    /\ if status
       then Forall (fun seg => 0 < numMeshes seg)%Z (segments s')
       else segments s' = [].
Proof.
  unfold loadSegments. op_unfold. cbn beta iota.
  destruct (lines_of path_) as [input|].
  - cbn beta iota.
    match goal with
    | |- context [load_segments ?f ?inp ?st] =>
        assert (Hall : Forall (fun seg => 0 < numMeshes seg)%Z (segments st))
          by (cbn [segments set_segments]; constructor);
        pose proof (load_segments_outcome f inp st Hall) as H;
        destruct (load_segments f inp st) as [u st' log | e st' log |]
    end; try contradiction; destruct H as [Hsame Hp]; simpl.
    + exists true, st', (log ++ []). split; [reflexivity|].
      split; [|exact Hp].
      unfold same_but_segments in *. rewrite Hsame. destruct s; reflexivity.
    + eexists false, _, _. split; [reflexivity|].
      split; [|reflexivity].
      unfold same_but_segments in *. rewrite Hsame. destruct s; reflexivity.
  - simpl.
    exists false, (set_segments [] s),
      [Log WARNING [Text "Couldn't load model segments from '"; Text path_; Text "'"]].
    split; [reflexivity|]. split; [|reflexivity].
    unfold same_but_segments. destruct s; reflexivity.
Qed.

(** **** Segments saved and loaded again *)

(** The lines [saveSegments] writes for a list of segments. *)
Fixpoint written_segments (todo : list Segment) : list Written :=
  match todo with
  | [] => []
  | seg :: rest =>
      SegmentLabel (getLabel seg)
        :: match getMeshes seg with
           | [] => []
           | meshes => [SegmentFaces (representative_faces meshes)]
           end
        ++ match rest with
           | [] => []
           | _ => [EmptyLine]
           end
        ++ written_segments rest
  end.

Lemma save_segments_lines (todo : list Segment) (s : Annotations) :
  exists log, save_segments todo s = Returned tt s log
              /\ lines_written log = written_segments todo.
Proof.
  induction todo as [|seg rest IH]; simpl; [exists []; split; reflexivity|].
  destruct IH as [log [IH Hlines]]. op_unfold.
  remember (save_segments rest) as k eqn:Hk.
  remember (written_segments rest) as w eqn:Hw. clear Hk Hw.
  destruct (getMeshes seg); destruct rest; simpl; rewrite IH; eexists;
    (split; [reflexivity|]); simpl; now rewrite Hlines.
Qed.

Lemma saveSegments_lines (path_ : string) (s : Annotations) :
  opens_for_writing path_ = true ->
  lines_written (trace_of (saveSegments path_ s)) = written_segments (segments s).
Proof.
  intros Hopen. unfold saveSegments. rewrite Hopen. op_unfold. cbn beta iota.
  destruct (save_segments_lines (segments s) s) as [log [Hrun Hlines]].
  rewrite Hrun. simpl. now rewrite app_nil_r.
Qed.

(** The segment [loadSegments] builds from the label and the faces that
    [saveSegments] writes for a segment. *)
Definition rebuilt (seg : Segment) : Segment :=
  match add_faces (representative_faces (getMeshes seg)) (newSegment (getLabel seg)) with
  | inr seg' => seg'
  | inl _ => seg
  end.

(** A segment that survives being written and read, where [read_back]
    gives the line of the file for a line written: its label is not blank
    and is what trimming leaves of its line, it has a face to write and
    the line of its faces lexes to these faces, every such face exists,
    and the segment built from them has a mesh. *)
Definition savable (read_back : Written -> Line) (seg : Segment) : Prop :=
  let faces := representative_faces (getMeshes seg) in
  blank (read_back (SegmentLabel (getLabel seg))) = false
  /\ trimWhitespace (read_back (SegmentLabel (getLabel seg))) = getLabel seg
  /\ faces <> []
  /\ blank (read_back (SegmentFaces faces)) = false
  /\ lex_indices (read_back (SegmentFaces faces)) = faces
  /\ exists seg', add_faces faces (newSegment (getLabel seg)) = inr seg'
                  /\ (0 < numMeshes seg')%Z.

Lemma load_segments_written (read_back : Written -> Line) (todo : list Segment)
      (fuel : nat) (s : Annotations) :
  blank (read_back EmptyLine) = true ->
  Forall (savable read_back) todo ->
  (length todo <= fuel)%nat ->
  exists log,
    load_segments fuel (map read_back (written_segments todo)) s
    = Returned tt (set_segments (segments s ++ map rebuilt todo) s) log.
Proof.
  intros Hempty. revert fuel s.
  induction todo as [|seg rest IH]; intros fuel s Hall Hfuel.
  - exists []. simpl. rewrite app_nil_r.
    destruct fuel; simpl; destruct s; reflexivity.
  - inversion Hall as [|? ? Hseg Hrest]; subst.
    destruct Hseg as (Hl1 & Hl2 & Hfaces & Hf1 & Hf2 & seg' & Hadd & Hnum).
    destruct fuel as [|fuel]; [simpl in Hfuel; lia|].
    assert (Hmeshes : getMeshes seg <> []).
    { intros E. rewrite E in Hfaces. now apply Hfaces. }
    cbn [written_segments]. destruct (getMeshes seg) as [|me meshes] eqn:Em;
      [congruence|].
    cbn [app map load_segments getNextNonBlankLine]. rewrite Hl1.
    cbn [getNextNonBlankLine]. rewrite Hf1, Hl2, Hf2, Hadd.
    apply Z.ltb_lt in Hnum. rewrite Hnum. op_unfold. cbn beta iota.
    assert (Hskip : forall st,
      load_segments fuel
        (map read_back (match rest with [] => [] | _ => [EmptyLine] end
                        ++ written_segments rest)) st
      = load_segments fuel (map read_back (written_segments rest)) st).
    { intros st. destruct rest as [|seg2 rest2]; [reflexivity|].
      cbn [app map]. destruct fuel as [|fuel']; [reflexivity|].
      cbn [load_segments getNextNonBlankLine]. rewrite Hempty. reflexivity. }
    rewrite Hskip.
    match goal with
    | |- context [load_segments fuel _ ?st] =>
        destruct (IH fuel st Hrest) as [log Hrun]; [simpl in Hfuel; lia|]
    end.
    rewrite Hrun. eexists. cbn [segments set_segments].
    unfold rebuilt at 2. rewrite Em, Hadd.
    rewrite <- app_assoc. cbn [map app].
    destruct s; reflexivity.
Qed.

Lemma written_segments_length (todo : list Segment) :
  (length todo <= length (written_segments todo))%nat.
Proof.
  induction todo as [|seg rest IH]; simpl; [lia|].
  rewrite !length_app. lia.
Qed.

(** X26 (Model::saveSegments, Model::loadSegments): when a file holds
    what [saveSegments] wrote for segments that survive being written and
    read (a label that is not blank and has no space around it, at least
    one mesh with a face, faces that exist), [loadSegments] returns true
    and the model holds, in the same order, the segments built from the
    labels and the first faces of the meshes written. *)
Theorem saveSegments_loadSegments_round_trip
        (read_back : Written -> Line) (path_ : string) (s s0 : Annotations) :
  opens_for_writing path_ = true ->
  blank (read_back EmptyLine) = true ->
  Forall (savable read_back) (segments s) ->
  lines_of path_
  = Some (map read_back (lines_written (trace_of (saveSegments path_ s)))) ->
  exists log,
    loadSegments path_ s0
    = Returned true (set_segments (map rebuilt (segments s)) s0) log.
Proof.
  intros Hopen Hempty Hall Hfile.
  rewrite (@saveSegments_lines path_ s Hopen) in Hfile.
  unfold loadSegments. rewrite Hfile. op_unfold. cbn beta iota.
  destruct (@load_segments_written read_back (segments s)
              (length (map read_back (written_segments (segments s))))
              (set_segments [] (set_segments [] s0)) Hempty Hall) as [log Hrun].
  { rewrite length_map. apply written_segments_length. }
  rewrite Hrun. eexists. cbn [segments set_segments app].
  destruct s0; reflexivity.
Qed.

(** **** Files that go with a model *)

(** The places [getDefaultPath] looks at, in the order it looks: the query
    path as a directory when it is one, then the directory of the model;
    in each the path of the model itself, its [completeBaseName] and its
    [baseName]; for each all extensions. *)
Definition candidates (model_path query_path : string) (query_exts : list string)
  : list string :=
  flat_map (fun dir =>
    flat_map (fun stem => map (fun ext => concat dir (stem ++ ext)%string) query_exts)
             [model_path; completeBaseName model_path; baseName model_path])
    ((if directoryExists query_path then [query_path] else [])
       ++ [parent model_path]).

Lemma probe_find (dir stem : string) (query_exts : list string) :
  probe dir stem query_exts
  = find exists_on_disk (map (fun ext => concat dir (stem ++ ext)%string) query_exts).
Proof.
  induction query_exts as [|ext rest IH]; simpl; [reflexivity|].
  now rewrite IH.
Qed.

Lemma find_app {A} (f : A -> bool) (l1 l2 : list A) :
  find f (l1 ++ l2) = match find f l1 with
                      | Some x => Some x
                      | None => find f l2
                      end.
Proof.
  induction l1 as [|x l1 IH]; simpl; [reflexivity|].
  destruct (f x); auto.
Qed.

Lemma search_find (model_path query_path : string) (query_exts : list string)
      (todo : list nat) :
  search model_path query_path query_exts todo
  = find exists_on_disk
         (flat_map (fun i =>
            flat_map (fun stem =>
                        map (fun ext =>
                               concat (if (i =? 0)%nat then query_path
                                       else parent model_path)
                                      (stem ++ ext)%string) query_exts)
                     [model_path; completeBaseName model_path; baseName model_path])
            todo).
Proof.
  induction todo as [|i rest IH]; simpl; [reflexivity|].
  rewrite !find_app, !probe_find, IH. simpl.
  repeat match goal with
         | |- context [find exists_on_disk ?l] =>
             destruct (find exists_on_disk l); try reflexivity
         end.
Qed.

Lemma getDefaultPath_search_order_eq
      (model_path query_path : string) (query_exts : list string) :
  getDefaultPath model_path query_path query_exts
  = if fileExists query_path then query_path
    else match find exists_on_disk (candidates model_path query_path query_exts) with
         | Some ffn => ffn
         | None => ""%string
         end.
Proof.
  unfold getDefaultPath, candidates.
  destruct (fileExists query_path); [reflexivity|].
  rewrite search_find.
  destruct (directoryExists query_path); reflexivity.
Qed.

(** X12 (ModelInternal::getDefaultPath): a query path that is a regular
    file is returned as it is; otherwise the result is the first existing
    place in the order directory, then stem (the model path itself, its
    [completeBaseName], its [baseName]), then extension, where the query
    path is searched as a directory only when it is one and always before
    the directory of the model; the empty string is returned when there is
    none. *)
Theorem getDefaultPath_search_order
        (model_path query_path : string) (query_exts : list string) :
  getDefaultPath model_path query_path query_exts
  = if fileExists query_path then query_path
    else match find exists_on_disk (candidates model_path query_path query_exts) with
         | Some ffn => ffn
         | None => ""%string
         end.
Proof. apply getDefaultPath_search_order_eq. Qed.

(** X13 (ModelInternal::getDefaultPath): the path returned is the query
    path, being a regular file, or a place found to exist, or the empty
    string; and when nothing exists at the empty path, the empty string is
    returned only if the query path is no regular file and none of the
    places searched exists. *)
Theorem getDefaultPath_exists_or_empty
        (model_path query_path : string) (query_exts : list string) :
  let ffn := getDefaultPath model_path query_path query_exts in
  ((fileExists query_path = true /\ ffn = query_path)
   \/ (In ffn (candidates model_path query_path query_exts)
       /\ exists_on_disk ffn = true)
   \/ ffn = ""%string)
  /\ (ffn = ""%string -> exists_on_disk ""%string = false ->
      query_path <> ""%string ->
      fileExists query_path = false
      /\ forall c, In c (candidates model_path query_path query_exts) ->
                   exists_on_disk c = false).
Proof.
  intros ffn. subst ffn. rewrite getDefaultPath_search_order_eq.
  destruct (fileExists query_path) eqn:Hfile.
  - split; [left; auto|]. intros -> _ Hq. congruence.
  - destruct (find exists_on_disk (candidates model_path query_path query_exts))
      as [c|] eqn:Hfind.
    + apply find_some in Hfind. split; [right; left; exact Hfind|].
      intros -> Hno _. destruct Hfind as [_ Hex]. congruence.
    + split; [right; right; reflexivity|]. intros _ _ _. split; [reflexivity|].
      intros c Hc. apply (find_none _ _ Hfind c Hc).
Qed.

(** **** Labels of faces *)

(** A face whose index is within the labels read. *)
Definition has_label (elem_colors : list ColorRGBA) (fi : FaceRec) : Prop :=
  (0 <= fc_index fi < Z.of_nat (length elem_colors))%Z.

(** The face with the colour of its label. *)
Definition labelled (elem_colors : list ColorRGBA) (fi : FaceRec) : FaceRec :=
  mkFaceRec (fc_index fi) (nth (Z.to_nat (fc_index fi)) elem_colors (fc_color fi)).

(** The faces of a group, in the order they are visited. *)
Definition all_faces (meshes : list MeshRec) : list FaceRec :=
  flat_map ms_faces meshes.

(** Labelling stopped at the first face without label: the faces before it
    have their new colour, it and the faces after it are as they were. *)
Definition stopped_at_first_unlabelled (elem_colors : list ColorRGBA)
           (faces faces' : list FaceRec) : Prop :=
  exists before bad after,
    faces = before ++ bad :: after
    /\ Forall (has_label elem_colors) before
    /\ ~ has_label elem_colors bad
    /\ faces' = map (labelled elem_colors) before ++ bad :: after.

Lemma label_faces_spec (elem_colors : list ColorRGBA) (faces : list FaceRec) :
  match label_faces elem_colors faces with
  | (faces', None) =>
      Forall (has_label elem_colors) faces
      /\ faces' = map (labelled elem_colors) faces
  | (faces', Some _) => stopped_at_first_unlabelled elem_colors faces faces'
  end.
Proof.
  induction faces as [|fi rest IH]; simpl.
  - split; [constructor | reflexivity].
  - assert (Hstop : ~ has_label elem_colors fi ->
                    stopped_at_first_unlabelled elem_colors (fi :: rest) (fi :: rest)).
    { intros Hbad. exists [], fi, rest. simpl.
      split; [reflexivity|]. split; [constructor|]. split; [exact Hbad | reflexivity]. }
    destruct (Z.ltb_spec (fc_index fi) 0) as [Hneg|Hpos]; simpl.
    { apply Hstop. unfold has_label. lia. }
    destruct (Z.leb_spec (Z.of_nat (length elem_colors)) (fc_index fi)) as [Hbig|Hin].
    { apply Hstop. unfold has_label. lia. }
    assert (Hfi : has_label elem_colors fi) by (unfold has_label; lia).
    destruct (label_faces elem_colors rest) as [rest' [e|]].
    + destruct IH as [before [bad [after [-> [Hb [Hbad ->]]]]]].
      exists (fi :: before), bad, after. simpl.
      split; [reflexivity|]. split; [constructor; assumption|].
      split; [exact Hbad | reflexivity].
    + destruct IH as [Hall ->]. split; [constructor; assumption | reflexivity].
Qed.

Lemma label_meshes_spec (elem_colors : list ColorRGBA) (meshes : list MeshRec) :
  let '(meshes', e) := label_meshes elem_colors meshes in
  map ms_vertices meshes' = map ms_vertices meshes
  /\ match e with
     | None =>
         Forall (has_label elem_colors) (all_faces meshes)
         /\ all_faces meshes' = map (labelled elem_colors) (all_faces meshes)
     | Some _ =>
         stopped_at_first_unlabelled elem_colors (all_faces meshes) (all_faces meshes')
     end.
Proof.
  induction meshes as [|me rest IH]; simpl.
  - split; [reflexivity|]. split; [constructor | reflexivity].
  - pose proof (label_faces_spec elem_colors (ms_faces me)) as Hf.
    destruct (label_faces elem_colors (ms_faces me)) as [faces' [e|]].
    + simpl. split; [reflexivity|].
      destruct Hf as [before [bad [after [Hsplit [Hb [Hbad ->]]]]]].
      exists before, bad, (after ++ all_faces rest).
      unfold all_faces in *. simpl. rewrite Hsplit, <- !app_assoc. simpl.
      split; [reflexivity|]. split; [exact Hb|]. split; [exact Hbad | reflexivity].
    + destruct Hf as [Hall ->].
      destruct (label_meshes elem_colors rest) as [rest' e]. simpl.
      destruct IH as [Hv IH]. split; [now rewrite Hv|].
      destruct e as [e|].
      * destruct IH as [before [bad [after [Hsplit [Hb [Hbad Hres]]]]]].
        exists (ms_faces me ++ before), bad, after.
        unfold all_faces in *. simpl. rewrite Hsplit, Hres, map_app, <- !app_assoc.
        split; [reflexivity|]. split; [apply Forall_app; split; assumption|].
        split; [exact Hbad | reflexivity].
      * destruct IH as [Hall' Hres]. unfold all_faces in *. simpl.
        split; [apply Forall_app; split; assumption|].
        now rewrite Hres, map_app.
Qed.

(** X14 (Model::loadElementLabels, ModelInternal::FaceLabeler): for a
    model with a mesh group and a labels file that opens, the call returns
    true exactly when every face index is within the lines of the file;
    every face then has the colour of the line its index names.
    Otherwise, the labeller stops at the first face without a line: the
    faces visited before keep their new colours, nothing is undone, false
    is returned and no redraw is asked for.  Vertices and the point cloud
    are not touched. *)
Theorem loadElementLabels_labels_faces
        (path_ : string) (geom : Geometry) (s : Annotations)
        (meshes : list MeshRec) (input : list Line) :
  g_meshes geom = Some meshes ->
  lines_of path_ = Some input ->
  let elem_colors := map line_color input in
  let '(ok, geom', s', log) := loadElementLabels path_ geom s in
  exists meshes',
    g_meshes geom' = Some meshes'
    /\ g_cloud geom' = g_cloud geom
    /\ map ms_vertices meshes' = map ms_vertices meshes
    /\ s' = set_has_elem_labels ok s
    /\ if ok then
         Forall (has_label elem_colors) (all_faces meshes)
         /\ all_faces meshes' = map (labelled elem_colors) (all_faces meshes)
         /\ log = [Post EVT_MODEL_NEEDS_REDRAW]
       else
         stopped_at_first_unlabelled elem_colors (all_faces meshes) (all_faces meshes')
         /\ log = [Log WARNING [Text "Couldn't load model face labels from '";
                                Text path_; Text "'"]].
Proof.
  intros Hm Hl elem_colors. unfold loadElementLabels. rewrite Hm, Hl.
  fold elem_colors.
  pose proof (label_meshes_spec elem_colors meshes) as H.
  destruct (label_meshes elem_colors meshes) as [meshes' [e|]];
    destruct H as [Hv H]; exists meshes'; simpl;
    (split; [reflexivity|]); (split; [reflexivity|]); (split; [exact Hv|]).
  - split; [destruct s; reflexivity|]. split; [exact H | reflexivity].
  - split; [destruct s; reflexivity|]. destruct H as [Ha Hb].
    split; [exact Ha|]. split; [exact Hb | reflexivity].
Qed.

(** X15 (Model::loadElementLabels): the flag [has_elem_labels] always ends
    equal to the value returned and nothing else of the other fields
    changes, so a call that fails also forgets labels loaded before.  A
    model without mesh group and point cloud, or a file that does not
    open, gives false with the geometry untouched; and with a mesh group
    the point cloud is never coloured. *)
Theorem loadElementLabels_flag (path_ : string) (geom : Geometry) (s : Annotations) :
  let '(ok, geom', s', log) := loadElementLabels path_ geom s in
  s' = set_has_elem_labels ok s
  /\ (g_meshes geom = None -> g_cloud geom = None ->
      ok = false /\ geom' = geom /\ log = [])
  /\ (lines_of path_ = None -> ok = false /\ geom' = geom)
  /\ (g_meshes geom <> None -> g_cloud geom' = g_cloud geom)
  /\ (ok = true -> log = [Post EVT_MODEL_NEEDS_REDRAW]).
Proof.
  unfold loadElementLabels.
  assert (Hs : forall v, set_has_elem_labels v (set_has_elem_labels false s)
                         = set_has_elem_labels v s) by (intros v; destruct s; reflexivity).
  destruct geom as [[meshes|] [cloud|]]; simpl;
    destruct (lines_of path_) as [input|]; simpl;
    try destruct (label_meshes (map line_color input) meshes) as [meshes' [e|]];
    try destruct (setPointColors (map line_color input) cloud) as [cloud' [|]];
    simpl; rewrite ?Hs;
    repeat split; try reflexivity; try congruence; intros; congruence.
Qed.

(** **** Features *)

(** Every column of feature values has one value for each feature
    point. *)
Definition rectangular (feat_pts : list Vector3) (feat_vals : list (list Real))
  : Prop :=
  feat_vals <> []
  /\ Forall (fun column => length column = length feat_pts) feat_vals.

(** The number of lines that are not blank. *)
Definition count_nonblank (input : list Line) : nat :=
  length (filter (fun line => negb (blank line)) input).

(** A line is blank or has at least [n] reals. *)
Definition blank_or_at_least (n : nat) (line : Line) : Prop :=
  blank line = true \/ (n <= length (lex_reals line))%nat.

(** A line is not blank and has fewer than [n] reals. *)
Definition shorter_than (n : nat) (line : Line) : Prop :=
  blank line = false /\ (length (lex_reals line) < n)%nat.

Lemma push_row_spec (columns : list (list Real)) (reals : list Real) :
  match push_row columns reals with
  | Some columns' =>
      (length columns <= length reals)%nat
      /\ length columns' = length columns
      /\ forall n, Forall (fun column => length column = n) columns ->
                   Forall (fun column => length column = S n) columns'
  | None => (length reals < length columns)%nat
  end.
Proof.
  revert reals. induction columns as [|column rest IH]; intros reals; simpl.
  - split; [lia|]. split; [reflexivity|]. intros n _. constructor.
  - destruct reals as [|f more]; simpl; [lia|].
    specialize (IH more). destruct (push_row rest more) as [rest'|]; simpl.
    + destruct IH as [Hle [Hlen Hall]]. split; [lia|]. split; [lia|].
      intros n Hn. inversion Hn as [|? ? Hc Hr]; subst.
      constructor; [rewrite length_app; simpl; lia | now apply Hall].
    + lia.
Qed.

Lemma read_features_rows (input : list Line) (feat_pts : list Vector3)
      (feat_vals : list (list Real)) :
  feat_pts <> [] -> rectangular feat_pts feat_vals ->
  match read_features input feat_pts feat_vals with
  | inr (feat_pts', feat_vals') =>
      rectangular feat_pts' feat_vals'
      /\ length feat_vals' = length feat_vals
      /\ length feat_pts' = (length feat_pts + count_nonblank input)%nat
      /\ Forall (blank_or_at_least (length feat_vals + 3)) input
  | inl _ => Exists (shorter_than (length feat_vals + 3)) input
  end.
Proof.
  revert feat_pts feat_vals.
  induction input as [|line rest IH]; intros feat_pts feat_vals Hne Hrect.
  - simpl. split; [exact Hrect|]. split; [reflexivity|].
    split; [unfold count_nonblank; simpl; lia | constructor].
  - cbn [read_features]. unfold count_nonblank. cbn [filter].
    destruct (blank line) eqn:Hblank; cbn [negb].
    + specialize (IH feat_pts feat_vals Hne Hrect).
      destruct (read_features rest feat_pts feat_vals) as [e | [pts' vals']].
      * now apply Exists_cons_tl.
      * destruct IH as [H1 [H2 [H3 H4]]].
        split; [exact H1|]. split; [exact H2|]. split; [exact H3|].
        constructor; [left; exact Hblank | exact H4].
    + destruct Hrect as [Hvals Hcols].
      destruct feat_vals as [|column0 columns]; [congruence|].
      assert (Hshort : (length (lex_reals line) < 4)%nat ->
                       Exists (shorter_than (length (column0 :: columns) + 3))
                              (line :: rest)).
      { intros H. apply Exists_cons_hd. split; [exact Hblank|]. simpl. lia. }
      destruct (lex_reals line) as [|p0 [|p1 [|p2 [|f more]]]] eqn:Hreals;
        try (apply Hshort; simpl; lia).
      assert (Hmatch : forall (A : Type) (x y : A),
                 match feat_pts ++ [vector3 p0 p1 p2] with
                 | [_] => x
                 | _ => y
                 end = y).
      { intros A x y. destruct feat_pts as [|a [|a' pts]]; [congruence | | ]; reflexivity. }
      rewrite Hmatch.
      inversion Hcols as [|? ? Hc0 Hcs]; subst.
      pose proof (push_row_spec columns more) as Hpush.
      destruct (push_row columns more) as [columns'|].
      * destruct Hpush as [Hle [Hlen Hall]].
        assert (Hrect' : rectangular (feat_pts ++ [vector3 p0 p1 p2])
                                     ((column0 ++ [f]) :: columns')).
        { split; [discriminate|]. rewrite length_app. simpl.
          constructor.
          - rewrite length_app. simpl. lia.
          - rewrite Nat.add_1_r. now apply Hall. }
        assert (Hne' : feat_pts ++ [vector3 p0 p1 p2] <> [])
          by (destruct feat_pts; discriminate).
        specialize (IH _ _ Hne' Hrect').
        destruct (read_features rest (feat_pts ++ [vector3 p0 p1 p2])
                                ((column0 ++ [f]) :: columns'))
          as [e | [pts' vals']].
        -- apply Exists_cons_tl. simpl in *. now rewrite Hlen in IH.
        -- destruct IH as [H1 [H2 [H3 H4]]]. split; [exact H1|].
           simpl in *. split; [lia|]. split.
           ++ unfold count_nonblank in *. rewrite H3, length_app. simpl. lia.
           ++ constructor.
              ** right. rewrite Hreals. simpl. lia.
              ** now rewrite Hlen in H4.
      * apply Exists_cons_hd. split; [exact Hblank|]. rewrite Hreals. simpl. lia.
Qed.

(** The loop reads on with the next line that is not blank, as
    [while (getNextNonBlankLine(in, line))] does. *)
Lemma read_features_next (input : list Line) (feat_pts : list Vector3)
      (feat_vals : list (list Real)) :
  read_features input feat_pts feat_vals
  = match getNextNonBlankLine input with
    | None => inr (feat_pts, feat_vals)
    | Some (line, rest) => read_features (line :: rest) feat_pts feat_vals
    end
  /\ forall line rest, getNextNonBlankLine input = Some (line, rest) ->
                       blank line = false.
Proof.
  induction input as [|l input [IH1 IH2]]; [split; [reflexivity | discriminate]|].
  cbn [getNextNonBlankLine]. destruct (blank l) eqn:Hblank.
  - split; [|exact IH2]. cbn [read_features]. rewrite Hblank. exact IH1.
  - split; [reflexivity|]. intros line rest H. injection H as <- _. exact Hblank.
Qed.

Lemma read_features_shape (input : list Line) :
  match getNextNonBlankLine input with
  | None => read_features input [] [[]] = inr ([], [[]])
  | Some (first, rest) =>
      match read_features input [] [[]] with
      | inr (feat_pts, feat_vals) =>
          length feat_pts = count_nonblank input
          /\ rectangular feat_pts feat_vals
          /\ (length feat_vals + 3 = length (lex_reals first))%nat
          /\ Forall (blank_or_at_least (length (lex_reals first))) rest
      | inl _ =>
          (length (lex_reals first) < 4)%nat
          \/ Exists (shorter_than (length (lex_reals first))) rest
      end
  end.
Proof.
  induction input as [|line rest IH]; [reflexivity|].
  cbn [getNextNonBlankLine read_features]. unfold count_nonblank. cbn [filter].
  destruct (blank line) eqn:Hblank; cbn [negb].
  - destruct (getNextNonBlankLine rest) as [[first rest']|]; exact IH.
  - clear IH.
    destruct (lex_reals line) as [|p0 [|p1 [|p2 [|f more]]]] eqn:Hreals;
      try (left; simpl; lia).
    cbn [app].
    assert (Hrect : rectangular [vector3 p0 p1 p2]
                                ([f] :: map (fun x => [x]) more)).
    { split; [discriminate|]. constructor; [reflexivity|].
      simpl. apply Forall_forall. intros column Hin.
      apply in_map_iff in Hin. destruct Hin as [x [<- _]]. reflexivity. }
    assert (Hne : [vector3 p0 p1 p2] <> []) by discriminate.
    pose proof (read_features_rows rest Hne Hrect) as H.
    destruct (read_features rest [vector3 p0 p1 p2]
                            ([f] :: map (fun x => [x]) more))
      as [e | [pts' vals']].
    + right. cbn [length] in *. rewrite length_map in H.
      replace (S (length more) + 3)%nat with (S (S (S (S (length more))))) in H by lia.
      exact H.
    + destruct H as [H1 [H2 [H3 H4]]]. cbn [length] in *. rewrite length_map in *.
      split; [rewrite H3; reflexivity|]. split; [exact H1|].
      split; [lia|].
      replace (S (length more) + 3)%nat with (S (S (S (S (length more))))) in H4 by lia.
      exact H4.
Qed.

(** X16 (Model::loadFeatures, the loop over the lines of the file): when
    the loop ends without exception there is one feature point for each
    line that is not blank and every column has exactly one value for each
    point; the number of columns is the number of reals on the first such
    line after its three coordinates, and no later line is shorter than
    the first (reals beyond that length are ignored).  It throws exactly
    when the first line that is not blank has fewer than four reals or a
    later one has fewer than the first.  A file without such a line gives
    no point and one empty column. *)
Theorem read_features_rectangular (input : list Line) :
  match getNextNonBlankLine input with
  | None => read_features input [] [[]] = inr ([], [[]])
  | Some (first, rest) =>
      match read_features input [] [[]] with
      | inr (feat_pts, feat_vals) =>
          length feat_pts = count_nonblank input
          /\ rectangular feat_pts feat_vals
          /\ (length feat_vals + 3 = length (lex_reals first))%nat
          /\ Forall (blank_or_at_least (length (lex_reals first))) rest
      | inl _ =>
          (length (lex_reals first) < 4)%nat
          \/ Exists (shorter_than (length (lex_reals first))) rest
      end
  end.
Proof. exact (read_features_shape input). Qed.

(** X17 (Model::loadFeatures): a defined call leaves the path of the
    features set to its argument and [has_features] equal to the value
    returned, and changes no other field.  With a point cloud the cloud
    loads the file and the meshes are not touched.  With a mesh group
    only, a file that does not open or a line too short gives false with
    every vertex colour as it was, after a warning and a request to
    redraw; a file with no line that is not blank gives true, with
    [has_features] set, though no vertex has been coloured. *)
Theorem loadFeatures_statuses
        (accentuate_features color_cube_features : bool)
        (path_ : string) (geom : Geometry) (s : Annotations) :
  let out := loadFeatures accentuate_features color_cube_features path_ geom s in
  (forall ok geom' s' log,
      out = Some (ok, geom', s', log) ->
      s' = set_has_features ok (set_features_path path_ s)
      /\ (g_cloud geom <> None -> g_meshes geom' = g_meshes geom /\ log = [])
      /\ (ok = false -> g_meshes geom' = g_meshes geom))
  /\ (g_cloud geom = None -> g_meshes geom = None ->
      out = Some (false, geom, set_has_features false (set_features_path path_ s), []))
  /\ (g_cloud geom = None -> g_meshes geom <> None ->
      match lines_of path_ with
      | None =>
          out = Some (false, geom, set_has_features false (set_features_path path_ s),
                      [Log WARNING [Text "Couldn't load model features from '";
                                    Text path_; Text "'"];
                       Post EVT_MODEL_NEEDS_REDRAW])
      | Some input =>
          match read_features input [] [[]] with
          | inl _ =>
              out = Some (false, geom,
                          set_has_features false (set_features_path path_ s),
                          [Log WARNING [Text "Couldn't load model features from '";
                                        Text path_; Text "'"];
                           Post EVT_MODEL_NEEDS_REDRAW])
          | inr _ =>
              getNextNonBlankLine input = None ->
              out = Some (true, geom,
                          set_has_features true (set_features_path path_ s),
                          [Post EVT_MODEL_NEEDS_REDRAW])
          end
      end).
Proof.
  intros out. subst out. unfold loadFeatures.
  split; [|split].
  - intros ok geom' s' log.
    destruct (g_cloud geom) as [cloud|] eqn:Hcloud.
    { destruct (cloud_loadFeatures path_ cloud) as [cloud' ok'].
      intros H. injection H as <- <- <- <-. simpl.
      split; [reflexivity|]. split; [intros _; split; reflexivity | reflexivity]. }
    destruct (g_meshes geom) as [meshes|] eqn:Hmeshes.
    2:{ intros H. injection H as <- <- <- <-.
        split; [reflexivity|]. split; [congruence | intros _; exact Hmeshes]. }
    assert (Hfailed : forall l,
      Some (false, geom, set_has_features false (set_features_path path_ s), l)
      = Some (ok, geom', s', log) ->
      s' = set_has_features ok (set_features_path path_ s)
      /\ (@None PointCloud <> None -> g_meshes geom' = Some meshes /\ log = [])
      /\ (ok = false -> g_meshes geom' = Some meshes)).
    { intros l H. injection H as <- <- <- <-.
      split; [reflexivity|]. split; [congruence | intros _; exact Hmeshes]. }
    destruct (lines_of path_) as [input|]; [|apply Hfailed].
    destruct (read_features input [] [[]]) as [e | [[|p pts] vals]]; [apply Hfailed | |].
    { intros H. injection H as <- <- <- <-.
      split; [reflexivity|]. split; [congruence | discriminate]. }
    destruct (accentuate accentuate_features color_cube_features vals)
      as [[|vals0 more]|]; try discriminate.
    destruct (color_meshes (p :: pts) vals0 (nth_error more 0) (nth_error more 1) meshes)
      as [[meshes' log']|]; [|discriminate].
    intros H. injection H as <- <- <- <-.
    split; [reflexivity|]. split; [congruence | discriminate].
  - intros -> ->. reflexivity.
  - intros -> Hm. destruct (g_meshes geom) as [meshes|]; [|congruence].
    destruct (lines_of path_) as [input|]; [|reflexivity].
    pose proof (read_features_shape input) as Hread.
    destruct (read_features input [] [[]]) as [e | [pts vals]]; [reflexivity|].
    intros Hnone. rewrite Hnone in Hread. injection Hread as -> ->. reflexivity.
Qed.

(** **** Reads of [loadFeatures] within bounds *)

Lemma insert_sorted_length (x : Real) (l : list Real) :
  length (insert_sorted x l) = S (length l).
Proof.
  induction l as [|y l IH]; simpl; [reflexivity|].
  destruct (Qle_bool x y); simpl; [reflexivity | now rewrite IH].
Qed.

Lemma sort_reals_length (l : list Real) : length (sort_reals l) = length l.
Proof.
  induction l as [|x l IH]; simpl; [reflexivity|].
  now rewrite insert_sorted_length, IH.
Qed.

Lemma nth_error_within {A} (l : list A) (k : nat) :
  (k < length l)%nat -> exists x, nth_error l k = Some x.
Proof.
  intros H. destruct (nth_error l k) as [x|] eqn:E; [eauto|].
  apply nth_error_None in E. lia.
Qed.

Lemma accentuate_column_defined (column : list Real) :
  column <> [] ->
  exists column', accentuate_column column = Some column'
                  /\ length column' = length column.
Proof.
  intros Hne. unfold accentuate_column.
  assert (Hn : (0 < length (sort_reals column))%nat).
  { rewrite sort_reals_length. destruct column; [congruence | simpl; lia]. }
  set (sorted := sort_reals column) in *.
  destruct (@nth_error_within _ sorted (length sorted / 10)) as [lo ->].
  { apply Nat.Div0.div_lt_upper_bound. lia. }
  destruct (@nth_error_within _ sorted (9 * length sorted / 10)) as [hi ->].
  { apply Nat.Div0.div_lt_upper_bound. lia. }
  destruct (@nth_error_within _ sorted 0) as [front ->]; [lia|].
  destruct (@nth_error_within _ sorted (pred (length sorted))) as [back ->]; [lia|].
  destruct (Qlt_bool (hi - lo) (1 # 100000000000000000000));
    [destruct (Qlt_bool (back - front) (1 # 100000000000000000000))|];
    try destruct (Qle_bool 0 front);
    eexists; (split; [reflexivity|]); rewrite ?length_map; reflexivity.
Qed.

Lemma accentuate_columns_defined (feat_vals : list (list Real)) (n : nat) :
  (0 < n)%nat ->
  Forall (fun column => length column = n) feat_vals ->
  exists feat_vals',
    accentuate_columns feat_vals = Some feat_vals'
    /\ length feat_vals' = length feat_vals
    /\ Forall (fun column => length column = n) feat_vals'.
Proof.
  intros Hn. induction feat_vals as [|column rest IH]; intros Hall; simpl.
  - exists []. repeat split. constructor.
  - inversion Hall as [|? ? Hc Hr]; subst.
    destruct (@accentuate_column_defined column) as [column' [-> Hlen]].
    { destruct column; [simpl in Hn; lia | discriminate]. }
    destruct (IH Hr) as [rest' [-> [Hlen' Hall']]].
    exists (column' :: rest'). split; [reflexivity|]. split; [simpl; lia|].
    constructor; assumption.
Qed.

Lemma accentuate_defined (accentuate_features color_cube_features : bool)
      (feat_pts : list Vector3) (feat_vals : list (list Real)) :
  feat_pts <> [] -> rectangular feat_pts feat_vals ->
  exists feat_vals',
    accentuate accentuate_features color_cube_features feat_vals = Some feat_vals'
    /\ rectangular feat_pts feat_vals'.
Proof.
  intros Hne [Hvals Hall]. unfold accentuate.
  destruct accentuate_features; [|exists feat_vals; split; [reflexivity | split; assumption]].
  destruct (color_cube_features && (length feat_vals =? 3)%nat).
  - destruct (Qlt_bool 0 (largest_abs feat_vals));
      [|exists feat_vals; split; [reflexivity | split; assumption]].
    eexists. split; [reflexivity|]. split.
    + destruct feat_vals; [congruence | discriminate].
    + apply Forall_map. eapply Forall_impl; [|exact Hall].
      intros column Hc. simpl. now rewrite length_map.
  - destruct (@accentuate_columns_defined feat_vals (length feat_pts))
      as [feat_vals' [-> [Hlen Hall']]]; [|exact Hall|].
    + destruct feat_pts; [congruence | simpl; lia].
    + exists feat_vals'. split; [reflexivity|]. split; [|exact Hall'].
      destruct feat_vals'; [|discriminate].
      destruct feat_vals; [congruence | discriminate].
Qed.

(** The kd-tree names feature points that exist. *)
Definition neighbours_exist : Prop :=
  forall (feat_pts : list Vector3) (p : Vector3) (bound : option Real),
    Forall (fun nbr => (0 <= fst nbr < Z.of_nat (length feat_pts))%Z)
           (kClosestPairs feat_pts p bound).

(** The second and the third column, when there are such, have one value
    for each of the [n] feature points, and there is no third column
    without a second. *)
Definition columns_for (n : nat) (feat_vals1 feat_vals2 : option (list Real)) : Prop :=
  (forall vals, feat_vals1 = Some vals -> length vals = n)
  /\ (forall vals, feat_vals2 = Some vals -> length vals = n)
  /\ (feat_vals1 = None -> feat_vals2 = None).

Lemma entry_of_defined (column : list Real) (nn_index : Z) :
  (0 <= nn_index < Z.of_nat (length column))%Z ->
  exists v, entry_of (Some column) nn_index = Some (Some v).
Proof.
  intros H. unfold entry_of.
  destruct (Z.ltb_spec nn_index 0); [lia|].
  destruct (@nth_error_within _ column (Z.to_nat nn_index)) as [v ->]; [lia|].
  eauto.
Qed.

Lemma blend_defined (scale2 : Real) (n : nat) (feat_vals0 : list Real)
      (feat_vals1 feat_vals2 : option (list Real)) (nbrs : list (Z * Real))
      (c : ColorRGB.ColorRGB) (sum_weights : Real) :
  length feat_vals0 = n -> columns_for n feat_vals1 feat_vals2 ->
  Forall (fun nbr => (0 <= fst nbr < Z.of_nat n)%Z) nbrs ->
  exists out, blend scale2 feat_vals0 feat_vals1 feat_vals2 nbrs c sum_weights
              = Some out.
Proof.
  intros H0 [H1 [H2 H12]] Hn. revert c sum_weights.
  induction nbrs as [|[nn_index dist] rest IH]; intros c sum_weights; simpl.
  - eauto.
  - inversion Hn as [|? ? Hi Hr]; subst. simpl in Hi.
    destruct (@entry_of_defined feat_vals0 nn_index) as [f0 E0]; [lia|].
    unfold entry_of in E0. rewrite E0.
    destruct feat_vals1 as [vals1|].
    + destruct (@entry_of_defined vals1 nn_index) as [f1 E1];
        [rewrite (H1 vals1 eq_refl); lia|].
      rewrite E1.
      destruct feat_vals2 as [vals2|].
      * destruct (@entry_of_defined vals2 nn_index) as [f2 E2];
          [rewrite (H2 vals2 eq_refl); lia|].
        rewrite E2. simpl. apply (IH Hr).
      * simpl. apply (IH Hr).
    + pose proof (H12 eq_refl) as Hnone. subst feat_vals2. simpl. apply (IH Hr).
Qed.

Lemma vertex_color_defined (feat_pts : list Vector3) (feat_vals0 : list Real)
      (feat_vals1 feat_vals2 : option (list Real)) (position : Vector3) :
  neighbours_exist ->
  length feat_vals0 = length feat_pts ->
  columns_for (length feat_pts) feat_vals1 feat_vals2 ->
  exists out, vertex_color feat_pts feat_vals0 feat_vals1 feat_vals2 position
              = Some out.
Proof.
  intros Hkd H0 Hc. unfold vertex_color.
  set (scale := ColorRGB.std_max ((2 # 10) * extent_norm feat_pts) (1 # 100000000)).
  assert (Hn : Forall (fun nbr => (0 <= fst nbr < Z.of_nat (length feat_pts))%Z)
                      match kClosestPairs feat_pts position (Some (2 * scale)) with
                      | [] => kClosestPairs feat_pts position None
                      | found => found
                      end).
  { pose proof (Hkd feat_pts position (Some (2 * scale))) as Ha.
    destruct (kClosestPairs feat_pts position (Some (2 * scale)));
      [apply Hkd | exact Ha]. }
  destruct (match kClosestPairs feat_pts position (Some (2 * scale)) with
            | [] => kClosestPairs feat_pts position None
            | found => found
            end) as [|nbr nbrs]; [eauto|].
  destruct (@blend_defined (scale * scale) (length feat_pts) feat_vals0 feat_vals1
                           feat_vals2 (nbr :: nbrs) (ColorRGB.mkColorRGB 0 0 0) 0
                           H0 Hc Hn) as [[c sw] ->].
  eauto.
Qed.

Lemma color_meshes_defined (feat_pts : list Vector3) (feat_vals0 : list Real)
      (feat_vals1 feat_vals2 : option (list Real)) (meshes : list MeshRec) :
  neighbours_exist ->
  length feat_vals0 = length feat_pts ->
  columns_for (length feat_pts) feat_vals1 feat_vals2 ->
  exists out, color_meshes feat_pts feat_vals0 feat_vals1 feat_vals2 meshes = Some out.
Proof.
  intros Hkd H0 Hc.
  assert (Hv : forall vertices,
             exists out, color_vertices feat_pts feat_vals0 feat_vals1 feat_vals2
                                        vertices = Some out).
  { induction vertices as [|vi rest IH]; simpl; [eauto|].
    destruct (@vertex_color_defined feat_pts feat_vals0 feat_vals1 feat_vals2
                                    (vx_position vi) Hkd H0 Hc) as [[c warn] ->].
    destruct IH as [[rest' log] ->]. eauto. }
  induction meshes as [|me rest IH]; simpl; [eauto|].
  destruct (Hv (ms_vertices me)) as [[vertices' log] ->].
  destruct IH as [[rest' log'] ->]. eauto.
Qed.

(** X18 (Model::loadFeatures, ModelInternal::VertexFeatureVisitor): when
    the kd-tree over the feature points names only feature points that
    exist, every read of the call stays within its arrays: the percentiles
    of the accentuation are read from columns that are not empty, each
    neighbour has a value in every column, and the third column is never
    read through a null second one; the call has a defined result. *)
Theorem loadFeatures_reads_within_bounds
        (accentuate_features color_cube_features : bool)
        (path_ : string) (geom : Geometry) (s : Annotations) :
  neighbours_exist ->
  exists ok geom' s' log,
    loadFeatures accentuate_features color_cube_features path_ geom s
    = Some (ok, geom', s', log).
Proof.
  intros Hkd. unfold loadFeatures.
  destruct (g_cloud geom) as [cloud|].
  { destruct (cloud_loadFeatures path_ cloud) as [cloud' ok]. do 4 eexists. reflexivity. }
  destruct (g_meshes geom) as [meshes|]; [|do 4 eexists; reflexivity].
  destruct (lines_of path_) as [input|]; [|do 4 eexists; reflexivity].
  pose proof (read_features_shape input) as Hread.
  destruct (getNextNonBlankLine input) as [[first rest]|].
  2:{ rewrite Hread. do 4 eexists. reflexivity. }
  destruct (read_features input [] [[]]) as [e | [pts vals]];
    [do 4 eexists; reflexivity|].
  destruct Hread as [_ [Hrect _]].
  destruct pts as [|p pts]; [do 4 eexists; reflexivity|].
  destruct (@accentuate_defined accentuate_features color_cube_features
                                (p :: pts) vals) as [vals' [-> [Hne Hall]]];
    [discriminate | exact Hrect |].
  destruct vals' as [|vals0 more]; [congruence|].
  inversion Hall as [|? ? H0 Hmore]; subst.
  destruct (@color_meshes_defined (p :: pts) vals0 (nth_error more 0)
                                  (nth_error more 1) meshes Hkd H0)
    as [[meshes' log] ->].
  - split; [|split].
    + intros column Hc. apply nth_error_In in Hc.
      rewrite Forall_forall in Hmore. now apply Hmore.
    + intros column Hc. apply nth_error_In in Hc.
      rewrite Forall_forall in Hmore. now apply Hmore.
    + destruct more as [|a [|a' more]]; simpl; congruence.
  - do 4 eexists. reflexivity.
Qed.

(** **** The colour of a vertex is a mixture *)









(** **** A depth promotion settles *)

(** X25 (Model::promotePickedSegment): the depth promotion a call leaves
    is one the method accepts: a further call with offset 0 returns with
    the same depth promotion, so the clamping is done in one step. *)
Theorem promotePickedSegment_settles (m : Model) (offset : Z) (s s' : Annotations)
        (log : list Effect) :
  fits_intx (segment_depth_promotion s + offset) = true ->
  promotePickedSegment m offset s = Returned tt s' log ->
  exists log', promotePickedSegment m 0 s' = Returned tt s' log'.
Proof.
  intros Hfit. unfold promotePickedSegment. op_unfold. cbn beta iota.
  rewrite Hfit. cbn beta iota.
  set (sum := (segment_depth_promotion s + offset)%Z) in *.
  set (min_depth := minDepth (picked_segment s)).
  set (d := if (0 <=? min_depth)%Z && (min_depth <=? (if (sum <? 0)%Z then 0 else sum))%Z
            then Z.max (min_depth - 1) 0
            else (if (sum <? 0)%Z then 0 else sum)%Z).
  intros E. injection E as <- _.
  cbn [segment_depth_promotion set_segment_depth_promotion picked_segment].
  fold min_depth. rewrite Z.add_0_r.
  assert (Hd : (0 <= d <= Z.max sum 0)%Z
               /\ ((0 <=? min_depth)%Z && (min_depth <=? d)%Z = true ->
                   Z.max (min_depth - 1) 0 = d)).
  { subst d.
    destruct (Z.ltb_spec sum 0); destruct (Z.leb_spec 0 min_depth); simpl;
      try destruct (Z.leb_spec min_depth 0); try destruct (Z.leb_spec min_depth sum);
      simpl; (split; [lia|]); rewrite ?andb_true_iff, ?Z.leb_le; intros; lia. }
  destruct Hd as [Hrange Hstable].
  assert (Hfit' : fits_intx d = true).
  { unfold fits_intx in *. apply andb_true_iff in Hfit as [Ha Hb].
    apply Z.leb_le in Ha. apply Z.ltb_lt in Hb. apply andb_true_iff.
    rewrite Z.leb_le, Z.ltb_lt. lia. }
  rewrite Hfit'. cbn beta iota.
  assert (Hsame : (if (0 <=? min_depth)%Z && (min_depth <=? (if (d <? 0)%Z then 0 else d))%Z
                   then Z.max (min_depth - 1) 0
                   else (if (d <? 0)%Z then 0 else d)%Z) = d).
  { destruct (Z.ltb_spec d 0); [lia|].
    destruct ((0 <=? min_depth)%Z && (min_depth <=? d)%Z) eqn:E; [|reflexivity].
    now apply Hstable. }
  change (picked_segment (set_segment_depth_promotion d s)) with (picked_segment s).
  fold min_depth. rewrite Hsame. eexists.
  destruct s; reflexivity.
Qed.

End Annotations.

Arguments Thrown {Vector3 Mesh Segment A} e s log.
Arguments Undefined {Vector3 Mesh Segment A}.

End Annotations.
(** ** A pick that becomes a sample *)

Module PickedSamples.
Import KDTreeN KDTreeFacts Browse3D ModelFacts Diagnostics Annotations.

Section PickedSamples.
Context {Vector3 Ray3 AffineTransform3 Box : Type}
        {MeshGroup PointCloud Mesh MeshVertex Triangle : Type}
        {MO : MeshOps MeshGroup PointCloud Mesh MeshVertex Triangle Vector3}
        {RO : RayOps Vector3 Ray3}
        {TO : TransformOps AffineTransform3 Vector3 Ray3}
        {BV : BoundingVolume Box}
        {PAT : PrimitiveAdapter Triangle Box}
        {MTR : Metric Triangle Box Ray3 Vector3}
        {RTT : RayIntersectionTester Triangle Box Ray3}
        {Face Segment : Type}
        {FO : FaceOps Face Mesh Vector3}
        {VO : VectorOps Vector3}.
Variable max_elems_per_leaf : nat.
Variable default_max_time : Real.
Variable mapIndexToFace : Z -> option Face.
Variable fileExists : string -> bool.
Variable opens_for_writing : string -> bool.
Variable concat : string -> string -> string.
Variable parent : string -> string.
Variable baseName : string -> string.

(** X27 (Model::pick, Model::addPickedSample): when the ray of a pick
    hits the model, [addPickedSample] without snapping, called on the model
    as the pick leaves it, appends exactly one sample: it lies at the
    point of the ray at the hit time, on the mesh and the mesh face of the
    triangle hit, has the given label and the type of the picked sample,
    also when saving the file then throws. *)
Theorem pick_then_addPickedSample
        (m : @Browse3D.Model Vector3 AffineTransform3 Box MeshGroup PointCloud Mesh
                             MeshVertex Triangle)
        (ray : Ray3) (label_ : string)
        (s : @Annotations.Annotations Vector3 Mesh Segment) :
  let m1 := face_updated max_elems_per_leaf m in
  let isec := KDTreeN.rayStructureIntersection (kdtree m1) ray default_max_time in
  isValid isec = true ->
  exists tri m' log s',
    nth_error (kd_elems (kdtree m1)) (Z.to_nat (getElementIndex isec)) = Some tri
    /\ pick max_elems_per_leaf default_max_time ray m = Done (getTime isec) m' log
    /\ left_state (addPickedSample mapIndexToFace fileExists opens_for_writing
                                   concat parent baseName m' label_ false s)
       = Some s'
    /\ s' = set_samples
              (samples s ++ [mkSample (type (picked_sample m)) label_
                                      (getPoint ray (getTime isec))
                                      (Some (getMesh tri))
                                      (getMeshFaceIndex tri)]) s.
Proof.
  intros m1 isec Hvalid.
  destruct (@pick_hit _ _ _ _ _ _ _ _ _ _ _ _ _ _ _ _ max_elems_per_leaf
                      default_max_time m ray Hvalid)
    as (tri & pre & Htri & Hpick & _).
  fold m1 in Htri, Hpick. fold isec in Htri, Hpick.
  do 4 eexists. split; [exact Htri|]. split; [exact Hpick|].
  split.
  - apply addPickedSample_as_picked. reflexivity.
  - cbn [picked_sample valid_pick set_valid_pick set_picked_sample picked
         type position mesh face_index].
    destruct (face_updated_pick_state max_elems_per_leaf m) as [_ Hps].
    fold m1 in Hps. rewrite Hps. reflexivity.
Qed.

End PickedSamples.
End PickedSamples.

(** ** Samples, segments, labels and features on the x-axis *)

Module AnnotationChecks.
Import KDTreeN Browse3D ModelFacts Diagnostics Annotations Line LineChecks.

(** A face: its index and the positions of its vertices. *)
Record Corners : Type := mkCorners { c_index : Z; c_vertices : list Q }.

(** A segment: a label, the meshes picked and a minimum depth. *)
Record Picked : Type := mkPicked {
  p_label : string;
  p_meshes : list (option Mesh);
  p_depth : Z
}.

#[export] Instance line_faces : FaceOps Corners Mesh Vector3 :=
  {| face_getIndex := c_index;
     face_getParent := fun _ => Some tt;
     face_vertices := c_vertices;
     mesh_getName := fun _ => "mesh"%string;
     mesh_numFaces := fun _ => 1%Z;
     mesh_firstFaceIndex := fun _ => 7%Z;
     same_mesh := fun a b =>
       match a, b with
       | Some _, Some _ | None, None => true
       | _, _ => false
       end |}.

#[export] Instance line_vectors : VectorOps Vector3 :=
  {| vector3 := fun x _ _ => x;
     vminus := Qminus;
     vplus := Qplus;
     vscale := Qmult;
     squaredNorm := fun v => v * v;
     getBarycentricCoordinates3 := fun _ _ _ _ => (1, 0, - (1 # 10000000)) |}.

#[export] Instance line_segments : SegmentOps Picked Mesh :=
  {| newSegment := fun l => mkPicked l [] (-1);
     getLabel := p_label;
     setLabel := fun l seg => mkPicked l (p_meshes seg) (p_depth seg);
     hasMesh := fun seg _ _ =>
       existsb (fun me => match me with Some _ => true | None => false end)
               (p_meshes seg);
     addMesh := fun me seg => mkPicked (p_label seg) (me :: p_meshes seg) (p_depth seg);
     numMeshes := fun seg => Z.of_nat (length (p_meshes seg));
     minDepth := p_depth;
     getMeshes := p_meshes |}.

(** Colours of labels are numbers here. *)
#[export] Instance line_clouds : PointCloudOps PointCloud nat :=
  {| setPointColors := fun colors cloud =>
       (cloud, (length colors =? length cloud)%nat);
     cloud_loadFeatures := fun _ cloud => (cloud, false) |}.

#[export] Instance line_features : FeatureOps Vector3 nat :=
  {| getLabelColor := fun _ => 0%nat;
     getPaletteColor := Z.to_nat;
     jetColorMap := fun _ => ColorRGB.mkColorRGB (1 # 2) (1 # 2) (1 # 2);
     Annotations.clamp := fun x lo hi =>
       if Qlt_bool x lo then lo else if Qlt_bool hi x then hi else x;
     fastMinusExp := fun _ => 1;
     extent_norm := fun _ => 1;
     kClosestPairs := fun feat_pts _ _ =>
       match feat_pts with
       | [] => []
       | _ => [(0%Z, 0)]
       end |}.

(** A line of a file is the list of the numbers on it. *)
Definition Numbers : Type := list Z.

Definition blank (line : Numbers) : bool :=
  match line with
  | [] => true
  | _ => false
  end.

Definition lex_count (line : Numbers) : option Z := hd_error line.

Definition lex_reals (line : Numbers) : list Real := map inject_Z line.

Definition lex_sample (line : Numbers) (vars : Vars) : Vars * bool :=
  (mkVars "Picked" "" (hd 0%Z line) (1, 0, 0) (v_coords vars), false).

(** Face 7 has the vertices 14, 12 and 10, face 8 has two vertices, face 9
    none; there is no other face. *)
Definition mapIndexToFace (index : Z) : option Corners :=
  if (index =? 7)%Z then Some (mkCorners 7 [14; 12; 10])
  else if (index =? 8)%Z then Some (mkCorners 8 [10; 12])
  else if (index =? 9)%Z then Some (mkCorners 9 [])
  else None.

(** A disk without files of samples or segments, on which every file can
    be written; "two.picked" announces two samples and holds one, on face
    7, "labels.seg" has two lines, "features" has two points with two
    values each. *)
Definition fileExists (path : string) : bool := false.
Definition opens_for_writing (path : string) : bool := true.

Definition lines_of (path : string) : option (list Numbers) :=
  if (path =? "two.picked")%string then Some [[2%Z]; []; [7%Z]]
  else if (path =? "labels.seg")%string then Some [[4%Z]; [5%Z]]
  else if (path =? "features")%string then Some [[0; 0; 0; 1; 0]%Z; []; [1; 0; 0; 0; 1]%Z]
  else None.

Definition concat (dir name : string) : string := (dir ++ "/" ++ name)%string.
Definition parent (path : string) : string := "models"%string.
Definition baseName (path : string) : string := "chair"%string.

Abbreviation Notes := (@Annotations.Annotations Vector3 Mesh Picked).

(** A model that has picked the point 11 on face 7 of the segment mesh. *)
Definition with_pick : LineModel :=
  mkModel (Some segment_mesh) None None true
          (mkSample "Picked" "" 11 (Some tt) 7) false KDTreeN.empty false KDTreeN.empty.

(** No sample, no segment, nothing picked for a segment. *)
Definition no_notes : Notes :=
  mkAnnotations "chair.obj" "" false false [] (-1) 0 (-1) [] (mkPicked "" [] (-1)).

(** One sample on face 7 and one on face 8, which has two vertices only. *)
Definition two_samples : Notes :=
  mkAnnotations "chair.obj" "" false false
                [mkSample "Picked" "a" 11 (Some tt) 7; mkSample "Picked" "b" 11 (Some tt) 8]
                (-1) 0 (-1) [] (mkPicked "" [] (-1)).

(** Depth promotion 2 and a picked segment of minimum depth 2. *)
Definition promoted : Notes :=
  mkAnnotations "chair.obj" "" false false [] (-1) 2 (-1) []
                (mkPicked "" [Some tt] 2).

(** One mesh with the faces 0, 1 and 5, all of colour 9, and a vertex at
    the point 3. *)
Definition three_faces : @Geometry Vector3 PointCloud nat :=
  mkGeometry (Some [mkMeshRec [mkVertexRec 3 (ColorRGB.mkColorRGB 0 0 0)]
                              [mkFaceRec 0 9%nat; mkFaceRec 1 9%nat; mkFaceRec 5 9%nat]])
             None.

Lemma addPickedSample_snap_witness :
  valid_pick with_pick = true
  /\ mapIndexToFace (face_index (picked_sample with_pick))
     = Some (mkCorners 7 [14; 12; 10])
  /\ exists nnv s',
      In nnv [14; 12; 10]
      /\ left_state (addPickedSample mapIndexToFace fileExists opens_for_writing
                                     concat parent baseName with_pick "tip" true
                                     no_notes) = Some s'
      /\ samples s' = [mkSample "Picked" "tip" nnv (Some tt) 7].
Proof.
  split; [reflexivity|]. split; [reflexivity|].
  destruct (@addPickedSample_snaps_to_nearest_vertex
              Vector3 AffineTransform3 Box MeshGroup PointCloud Mesh MeshVertex
              Triangle line_meshes Corners Picked line_faces line_vectors
              mapIndexToFace fileExists opens_for_writing concat parent baseName
              with_pick "tip"%string no_notes (mkCorners 7 [14; 12; 10])
              eq_refl eq_refl)
    as (nnv & before & after & s' & Hsplit & _ & _ & Hstate & Hs' & _).
  - discriminate.
  - exists nnv, s'. split; [|split; [exact Hstate|]].
    + simpl in Hsplit. rewrite Hsplit. apply in_elt.
    + rewrite Hs'. reflexivity.
Defined.

Lemma addPickedSample_paths_witness :
  valid_pick (loaded segment_mesh) = false
  /\ addPickedSample mapIndexToFace fileExists opens_for_writing concat parent
                     baseName (loaded segment_mesh) "tip" true no_notes
     = Returned false no_notes [].
Proof.
  split; [reflexivity|].
  apply (proj1 (@addPickedSample_paths
                  Vector3 AffineTransform3 Box MeshGroup PointCloud Mesh MeshVertex
                  Triangle line_meshes Corners Picked line_faces line_vectors
                  mapIndexToFace fileExists opens_for_writing concat parent baseName
                  (loaded segment_mesh) "tip"%string no_notes)).
  reflexivity.
Defined.

Lemma saveSamples_witness :
  opens_for_writing "chair.picked" = true
  /\ left_state (saveSamples mapIndexToFace opens_for_writing with_pick
                             "chair.picked" two_samples) = Some two_samples
  /\ exists entries,
      lines_written (trace_of (saveSamples mapIndexToFace opens_for_writing with_pick
                                           "chair.picked" two_samples))
      = SampleCount 2 :: entries
      /\ (length entries < 2)%nat.
Proof.
  split; [reflexivity|].
  destruct (@saveSamples_announces_before_it_writes
              Vector3 AffineTransform3 Box MeshGroup PointCloud Mesh MeshVertex
              Triangle line_meshes Corners Picked line_faces line_vectors
              mapIndexToFace opens_for_writing with_pick "chair.picked"%string
              two_samples eq_refl)
    as (Hstate & entries & Hlines & _ & Hcount).
  split; [exact Hstate|]. exists entries. split; [exact Hlines | exact Hcount].
Defined.

(** The file "two.picked" announces two samples and holds one: the call
    returns false and leaves two samples, the second default-constructed. *)
Lemma loadSamples_short_file :
  loadSamples mapIndexToFace lines_of blank lex_count lex_sample a_sample
              (mkVars "" "" 0 (0, 0, 0) (0, 0, 0)) "two.picked" no_notes
  = Returned false
             (set_samples [mkSample "Picked" "" 14 (Some tt) 7; a_sample] no_notes)
             [Log WARNING [Text "Couldn't load model samples from '";
                           Text "two.picked"; Text "'"];
              Post EVT_MODEL_NEEDS_SYNC_SAMPLES].
Proof. reflexivity. Qed.

(** The labels file has two lines and the mesh a face with index 5: the
    first two faces take the colour of their line, the third keeps its
    colour, and the call returns false. *)
Lemma loadElementLabels_stops_at_face_5 :
  loadElementLabels lines_of (fun _ : Numbers => ""%string)
                    (fun _ => Some 4%Z) "labels.seg" three_faces no_notes
  = (false,
     mkGeometry (Some [mkMeshRec [mkVertexRec 3 (ColorRGB.mkColorRGB 0 0 0)]
                                 [mkFaceRec 0 4%nat; mkFaceRec 1 4%nat;
                                  mkFaceRec 5 9%nat]])
                None,
     no_notes,
     [Log WARNING [Text "Couldn't load model face labels from '";
                   Text "labels.seg"; Text "'"]]).
Proof. reflexivity. Qed.

Lemma loadElementLabels_witness :
  g_meshes three_faces
  = Some [mkMeshRec [mkVertexRec 3 (ColorRGB.mkColorRGB 0 0 0)]
                    [mkFaceRec 0 9%nat; mkFaceRec 1 9%nat; mkFaceRec 5 9%nat]]
  /\ lines_of "labels.seg" = Some [[4%Z]; [5%Z]]
  /\ exists meshes',
      g_meshes (snd (fst (fst (loadElementLabels
                                 lines_of (fun _ : Numbers => ""%string)
                                 (fun _ => Some 4%Z) "labels.seg" three_faces
                                 no_notes)))) = Some meshes'
      /\ map ms_vertices meshes' = [[mkVertexRec 3 (ColorRGB.mkColorRGB 0 0 0)]].
Proof.
  split; [reflexivity|]. split; [reflexivity|].
  pose proof (@loadElementLabels_labels_faces
                Vector3 PointCloud Mesh Picked Numbers nat line_clouds line_features
                lines_of (fun _ : Numbers => ""%string) (fun _ => Some 4%Z)
                "labels.seg"%string three_faces no_notes _ _ eq_refl eq_refl) as H.
  cbv zeta in H.
  destruct (loadElementLabels lines_of (fun _ : Numbers => ""%string)
                              (fun _ => Some 4%Z) "labels.seg" three_faces no_notes)
    as [[[ok geom'] s'] log].
  destruct H as (meshes' & Hm & _ & Hv & _).
  exists meshes'. split; [exact Hm | exact Hv].
Defined.

Lemma kClosestPairs_in_range : @neighbours_exist Vector3 nat line_features.
Proof.
  intros feat_pts p bound. simpl.
  destruct feat_pts as [|q rest]; [constructor|].
  constructor; [simpl; lia | constructor].
Qed.

Lemma loadFeatures_witness :
  @neighbours_exist Vector3 nat line_features
  /\ exists geom' log,
      loadFeatures lines_of blank lex_reals true false "features" three_faces no_notes
      = Some (true, geom',
              set_has_features true (set_features_path "features" no_notes), log).
Proof.
  split; [exact kClosestPairs_in_range|].
  destruct (@loadFeatures_reads_within_bounds
              Vector3 PointCloud Mesh Picked Numbers line_vectors nat line_clouds
              line_features lines_of blank lex_reals true false "features"%string
              three_faces no_notes kClosestPairs_in_range)
    as (ok & geom' & s' & log & H).
  exists geom', log. rewrite H.
  assert (Hok : match loadFeatures lines_of blank lex_reals true false "features"
                                   three_faces no_notes with
                | Some (ok0, _, s0, _) =>
                    ok0 = true
                    /\ s0 = set_has_features true
                              (set_features_path "features" no_notes)
                | None => False
                end) by (vm_compute; split; reflexivity).
  rewrite H in Hok. destruct Hok as [-> ->]. reflexivity.
Defined.


Lemma promotePickedSegment_settles_witness :
  fits_intx (segment_depth_promotion promoted + 5) = true
  /\ exists s' log log',
      promotePickedSegment with_pick 5 promoted = Returned tt s' log
      /\ segment_depth_promotion s' = 1%Z
      /\ promotePickedSegment with_pick 0 s' = Returned tt s' log'.
Proof.
  split; [reflexivity|].
  eexists. eexists.
  assert (Hrun : promotePickedSegment with_pick 5 promoted
                 = Returned tt (set_segment_depth_promotion 1 promoted)
                            [Log CONSOLE [Text "segment";
                                          Text ": Segment depth promotion set to ";
                                          Number 1];
                             Post EVT_MODEL_NEEDS_REDRAW]) by reflexivity.
  destruct (@promotePickedSegment_settles
              Vector3 AffineTransform3 Box MeshGroup PointCloud Mesh MeshVertex
              Triangle line_meshes Picked line_segments with_pick 5 promoted _ _
              eq_refl Hrun) as [log' Hsettled].
  exists log'. split; [exact Hrun|]. split; [reflexivity | exact Hsettled].
Defined.

(** A file of segments is read as it was written. *)
Definition blank_written (line : Written (Vector3 := Vector3)) : bool :=
  match line with
  | EmptyLine | SegmentFaces [] => true
  | SegmentLabel l => (l =? "")%string
  | _ => false
  end.

Definition label_written (line : Written (Vector3 := Vector3)) : string :=
  match line with
  | SegmentLabel l => l
  | _ => ""%string
  end.

Definition indices_written (line : Written (Vector3 := Vector3)) : list Z :=
  match line with
  | SegmentFaces l => l
  | _ => []
  end.

(** Two segments, each with the mesh; the second also with a null mesh. *)
Definition seat_and_back : Notes :=
  mkAnnotations "chair.obj" "" false false [] (-1) 0 (-1)
                [mkPicked "seat" [Some tt] 0; mkPicked "back" [Some tt; None] 0]
                (mkPicked "" [] (-1)).

(** A segment whose only mesh is null, then the segment "back". *)
Definition nothing_and_back : Notes :=
  mkAnnotations "chair.obj" "" false false [] (-1) 0 (-1)
                [mkPicked "nothing" [None] 0; mkPicked "back" [Some tt] 0]
                (mkPicked "" [] (-1)).

(** The disk after [saveSegments] has written the segments of [s]. *)
Definition after_saving (s : Notes) (path : string)
  : option (list (Written (Vector3 := Vector3))) :=
  Some (lines_written (trace_of (saveSegments opens_for_writing path s))).

Lemma saveSegments_loadSegments_witness :
  opens_for_writing "chair.labels" = true
  /\ blank_written EmptyLine = true
  /\ Forall (savable mapIndexToFace blank_written label_written indices_written
                     (fun line => line))
            (segments seat_and_back)
  /\ exists log,
      loadSegments mapIndexToFace (after_saving seat_and_back) blank_written
                   label_written indices_written "chair.labels" no_notes
      = Returned true
                 (set_segments [mkPicked "seat" [Some tt] (-1);
                                mkPicked "back" [Some tt] (-1)] no_notes)
                 log.
Proof.
  assert (Hall : Forall (savable mapIndexToFace blank_written label_written
                                 indices_written (fun line => line))
                        (segments seat_and_back)).
  { repeat constructor; try discriminate; eexists; (split; [reflexivity|]);
      reflexivity. }
  split; [reflexivity|]. split; [reflexivity|]. split; [exact Hall|].
  destruct (@saveSegments_loadSegments_round_trip
              Vector3 Mesh Corners Picked (Written (Vector3 := Vector3))
              line_faces line_segments mapIndexToFace opens_for_writing
              (after_saving seat_and_back) blank_written label_written
              indices_written (fun line => line) "chair.labels"%string
              seat_and_back no_notes eq_refl eq_refl Hall)
    as [log Hrun].
  - unfold after_saving. now rewrite map_id.
  - exists log. exact Hrun.
Defined.

(** A segment without a face to write breaks the file for the segments
    after it: its label is followed by the label of the next segment, read
    as a line of faces, and the faces of that segment are read as a label
    with no line after it. *)
Lemma segment_without_faces_breaks_the_file :
  loadSegments mapIndexToFace (after_saving nothing_and_back) blank_written
               label_written indices_written "chair.labels" no_notes
  = Returned false no_notes
             [Log WARNING [Text "Couldn't load model segments from '";
                           Text "chair.labels"; Text "'"];
              Post EVT_MODEL_NEEDS_SYNC_SEGMENTS].
Proof. reflexivity. Qed.

Lemma getDefaultPath_witness :
  let ffn := getDefaultPath fileExists (fun _ => false) (fun _ => false) concat
                            parent baseName baseName "chair.obj" "features"
                            [".arff"; ".features"]%string in
  ffn = ""%string
  /\ fileExists "features" = false
  /\ forall c, In c (candidates (fun _ => false) concat parent baseName baseName
                                "chair.obj" "features" [".arff"; ".features"]%string) ->
               (fun _ : string => false) c = false.
Proof.
  intros ffn.
  assert (Hempty : ffn = ""%string) by reflexivity.
  split; [exact Hempty|].
  apply (proj2 (@getDefaultPath_exists_or_empty
                  fileExists (fun _ => false) (fun _ => false) concat parent baseName
                  baseName "chair.obj"%string "features"%string
                  [".arff"; ".features"]%string) Hempty eq_refl).
  discriminate.
Defined.

Lemma loadElementLabels_flag_witness :
  lines_of "missing.seg" = None
  /\ fst (fst (fst (loadElementLabels lines_of (fun _ : Numbers => ""%string)
                                      (fun _ => Some 4%Z) "missing.seg" three_faces
                                      no_notes))) = false.
Proof.
  split; [reflexivity|].
  pose proof (@loadElementLabels_flag
                Vector3 PointCloud Mesh Picked Numbers nat line_clouds line_features
                lines_of (fun _ : Numbers => ""%string) (fun _ => Some 4%Z)
                "missing.seg"%string three_faces no_notes) as H.
  destruct (loadElementLabels lines_of (fun _ : Numbers => ""%string)
                              (fun _ => Some 4%Z) "missing.seg" three_faces no_notes)
    as [[[ok geom'] s'] log].
  destruct H as (_ & _ & Hmissing & _). simpl.
  exact (proj1 (Hmissing eq_refl)).
Defined.

Lemma loadFeatures_statuses_witness :
  g_cloud three_faces = None
  /\ loadFeatures lines_of blank lex_reals true false "missing" three_faces no_notes
     = Some (false, three_faces,
             set_has_features false (set_features_path "missing" no_notes),
             [Log WARNING [Text "Couldn't load model features from '";
                           Text "missing"; Text "'"];
              Post EVT_MODEL_NEEDS_REDRAW]).
Proof.
  split; [reflexivity|].
  pose proof (@loadFeatures_statuses
                Vector3 PointCloud Mesh Picked Numbers line_vectors nat line_clouds
                line_features lines_of blank lex_reals true false "missing"%string
                three_faces no_notes) as H.
  cbv zeta in H. destruct H as (_ & _ & H).
  apply (H eq_refl). discriminate.
Defined.

Lemma const_methods_witness :
  exists b m' log,
    (rayIntersects leaf (mkRay 0 true) no_limit : LineM _) (loaded segment_mesh)
    = Done b m' log
    /\ caches_only (loaded segment_mesh) m'.
Proof.
  destruct (@rayIntersects_run
              Vector3 Ray3 AffineTransform3 Box MeshGroup PointCloud Mesh MeshVertex
              Triangle line_meshes line_transform line_volume triangle_adapter
              triangle_ray_tester leaf (loaded segment_mesh) (mkRay 0 true) no_limit)
    as (pre & Hrun & _).
  do 3 eexists. split; [exact Hrun|].
  apply (proj1 (@const_methods_change_only_the_trees
                  Vector3 Ray3 AffineTransform3 Box MeshGroup PointCloud Mesh
                  MeshVertex Triangle line_meshes line_transform
                  line_volume triangle_adapter vertex_adapter
                  triangle_point_metric triangle_ray_tester
                  vertex_point_metric leaf (loaded segment_mesh) _ _)
               (mkRay 0 true) no_limit _ Hrun).
Defined.

Lemma picked_sample_type_witness :
  line_reachable queried /\ type (picked_sample queried) = "Picked"%string.
Proof.
  split; [exact queried_reachable|].
  apply (@picked_sample_type_is_Picked
           Vector3 Ray3 AffineTransform3 Box MeshGroup PointCloud Mesh
           MeshVertex Triangle line_meshes line_rays line_transform
           line_volume triangle_adapter vertex_adapter
           triangle_point_metric triangle_ray_metric triangle_ray_tester
           vertex_point_metric leaf no_limit queried).
  exact queried_reachable.
Defined.

Lemma pick_then_addPickedSample_witness :
  exists tri m' log s',
    nth_error (kd_elems (kdtree (face_updated leaf queried))) 0 = Some tri
    /\ (pick leaf no_limit (mkRay 1 true) : LineM _) queried = Done 9 m' log
    /\ left_state (addPickedSample mapIndexToFace fileExists opens_for_writing
                                   concat parent baseName m' "seat" false no_notes)
       = Some s'
    /\ samples s'
       = [mkSample "Picked" "seat" 10 (Some (getMesh tri)) (getMeshFaceIndex tri)].
Proof.
  destruct (@PickedSamples.pick_then_addPickedSample
              Vector3 Ray3 AffineTransform3 Box MeshGroup PointCloud Mesh
              MeshVertex Triangle line_meshes line_rays line_transform
              line_volume triangle_adapter triangle_ray_metric
              triangle_ray_tester Corners Picked line_faces line_vectors
              leaf no_limit mapIndexToFace fileExists opens_for_writing
              concat parent baseName queried (mkRay 1 true) "seat"%string
              no_notes eq_refl)
    as (tri & m' & log & s' & Htri & Hpick & Hadd & Hs).
  exists tri, m', log, s'.
  split; [exact Htri|]. split; [exact Hpick|]. split; [exact Hadd|].
  rewrite Hs. reflexivity.
Defined.

(** A file that announces one sample and holds it, on face 7. *)
Definition one_sample (path : string) : option (list Numbers) :=
  Some [[1%Z]; [7%Z]].

Lemma loadSamples_then_saveSamples_witness :
  (forall me : option Mesh, same_mesh me me = true)
  /\ loadSamples mapIndexToFace one_sample blank lex_count lex_sample a_sample
                 (mkVars "" "" 0 (0, 0, 0) (0, 0, 0)) "one.picked" no_notes
     = Returned true (set_samples [mkSample "Picked" "" 14 (Some tt) 7] no_notes)
                [Post EVT_MODEL_NEEDS_SYNC_SAMPLES]
  /\ exists log,
      saveSamples mapIndexToFace opens_for_writing with_pick "chair.picked"
                  (set_samples [mkSample "Picked" "" 14 (Some tt) 7] no_notes)
      = Returned true (set_samples [mkSample "Picked" "" 14 (Some tt) 7] no_notes)
                 log
      /\ length (lines_written log) = 2%nat.
Proof.
  assert (Hsame : forall me : option Mesh, same_mesh me me = true)
    by (intros [me|]; reflexivity).
  assert (Hload : loadSamples mapIndexToFace one_sample blank lex_count lex_sample
                              a_sample (mkVars "" "" 0 (0, 0, 0) (0, 0, 0))
                              "one.picked" no_notes
                  = Returned true
                             (set_samples [mkSample "Picked" "" 14 (Some tt) 7] no_notes)
                             [Post EVT_MODEL_NEEDS_SYNC_SAMPLES]) by reflexivity.
  split; [exact Hsame|]. split; [exact Hload|].
  pose proof (proj2 (@loadSamples_then_saveSamples
                       Vector3 AffineTransform3 Box MeshGroup PointCloud Mesh
                       MeshVertex Triangle line_meshes Corners Picked Numbers
                       line_faces line_vectors mapIndexToFace opens_for_writing
                       one_sample blank lex_count lex_sample a_sample
                       (mkVars "" "" 0 (0, 0, 0) (0, 0, 0)) "one.picked"%string
                       "chair.picked"%string with_pick no_notes _ _ Hsame Hload)
                    eq_refl) as Hsave.
  pose proof (@saveSamples_state
                Vector3 AffineTransform3 Box MeshGroup PointCloud Mesh MeshVertex
                Triangle line_meshes Corners Picked line_faces line_vectors
                mapIndexToFace opens_for_writing with_pick "chair.picked"%string
                (set_samples [mkSample "Picked" "" 14 (Some tt) 7] no_notes))
    as Hstate.
  destruct (saveSamples mapIndexToFace opens_for_writing with_pick "chair.picked"
                        (set_samples [mkSample "Picked" "" 14 (Some tt) 7] no_notes))
    as [ok s1 log | e s1 log |].
  - destruct Hsave as [-> Hlen]. injection Hstate as ->.
    exists log. split; [reflexivity | exact Hlen].
  - exfalso. apply Exists_exists in Hsave.
    destruct Hsave as (sample & [<- | []] & face & Hface & Hshort).
    injection Hface as <-. simpl in Hshort. lia.
  - contradiction.
Defined.

End AnnotationChecks.

(** ** Picking the meshes of a segment

    [Model::togglePickMesh] and the [SimilarComponentCollector] it uses to
    extend a pick to similar parts of the model. *)

Module PickedSegments.
Import KDTreeN KDTreeFacts Browse3D ModelFacts Diagnostics Annotations.

(** A mesh group as [collectSimilarIn] walks it (MeshGroup.hpp is not among
    the sources): the group, its children from [childrenBegin()] to
    [childrenEnd()] and its meshes from [meshesBegin()] to [meshesEnd()]. *)
#[local] Unset Elimination Schemes.
Inductive Hierarchy (MeshGroup Mesh : Type) : Type :=
| Node (group : MeshGroup) (children : list (Hierarchy MeshGroup Mesh))
       (meshes : list Mesh).
#[local] Set Elimination Schemes.

(** The four overloads of [isSimilarTo] the collector calls, and
    [Mesh::getAncestor] (a pointer, [None] when null). *)
Class SimilarityOps (MeshGroup Mesh : Type) : Type := {
  group_isSimilarTo_group : MeshGroup -> MeshGroup -> bool;
  group_isSimilarTo_mesh : MeshGroup -> Mesh -> bool;
  mesh_isSimilarTo_group : Mesh -> MeshGroup -> bool;
  mesh_isSimilarTo_mesh : Mesh -> Mesh -> bool;
  getAncestor : Mesh -> Z -> option MeshGroup
}.

(** What [togglePickMesh] calls on the picked segment besides [hasMesh]
    and [addMesh]; the depth of [removeMesh] is [None] where the call
    leaves it out. *)
Class PickOps (Segment MeshGroup Mesh : Type) : Type := {
  removeMesh : Mesh -> option Z -> Segment -> Segment;
  addMeshGroup : MeshGroup -> Segment -> Segment;
  removeMeshGroup : MeshGroup -> Segment -> Segment
}.

Section Collector.
Context {MeshGroup Mesh : Type} {SI : SimilarityOps MeshGroup Mesh}.

Abbreviation Hierarchy := (Hierarchy MeshGroup Mesh).

Definition group_of (h : Hierarchy) : MeshGroup :=
  match h with
  | Node g _ _ => g
  end.

Record SimilarComponentCollector : Type := mkCollector {
  query_mesh : option Mesh;
  query_group : option MeshGroup;
  similar_meshes : list Mesh;
  similar_groups : list MeshGroup
}.

Definition new_collector : SimilarComponentCollector := mkCollector None None [] [].

Definition setQuery_mesh (me : option Mesh) (scc : SimilarComponentCollector)
  : SimilarComponentCollector :=
  mkCollector me (query_group scc) (similar_meshes scc) (similar_groups scc).

Definition setQuery_group (g : option MeshGroup) (scc : SimilarComponentCollector)
  : SimilarComponentCollector :=
  mkCollector (query_mesh scc) g (similar_meshes scc) (similar_groups scc).

Definition push_mesh (me : Mesh) (scc : SimilarComponentCollector)
  : SimilarComponentCollector :=
  mkCollector (query_mesh scc) (query_group scc) (similar_meshes scc ++ [me])
              (similar_groups scc).

Definition push_group (g : MeshGroup) (scc : SimilarComponentCollector)
  : SimilarComponentCollector :=
  mkCollector (query_mesh scc) (query_group scc) (similar_meshes scc)
              (similar_groups scc ++ [g]).

(** The query a test compares with: [query_group] when it is not null,
    else [query_mesh]; [None] when both are null. *)
Inductive Query : Type :=
| QueryGroup (g : MeshGroup)
| QueryMesh (me : Mesh).

Definition query_of (scc : SimilarComponentCollector) : option Query :=
  match query_group scc, query_mesh scc with
  | Some g, _ => Some (QueryGroup g)
  | None, Some me => Some (QueryMesh me)
  | None, None => None
  end.

(** [query_group ? isSimilarTo(g, *query_group) : isSimilarTo(g, *query_mesh)]
    for a group and for a mesh. *)
Definition group_is_similar (q : Query) (g : MeshGroup) : bool :=
  match q with
  | QueryGroup qg => group_isSimilarTo_group g qg
  | QueryMesh qm => group_isSimilarTo_mesh g qm
  end.

Definition mesh_is_similar (q : Query) (me : Mesh) : bool :=
  match q with
  | QueryGroup qg => mesh_isSimilarTo_group me qg
  | QueryMesh qm => mesh_isSimilarTo_mesh me qm
  end.

(** The loop over the meshes of a group. *)
Definition collect_meshes (q : Query) (meshes : list Mesh)
           (scc : SimilarComponentCollector) : SimilarComponentCollector :=
  fold_left (fun scc mi => if mesh_is_similar q mi then push_mesh mi scc else scc)
            meshes scc.

Fixpoint collectSimilarIn (root : Hierarchy) (scc : SimilarComponentCollector)
  : SimilarComponentCollector :=
  match query_of scc with
  | None => scc
  | Some q =>
      match root with
      | Node g children meshes =>
          if group_is_similar q g then push_group g scc
          else
            let scc :=
              (fix children_loop (todo : list Hierarchy)
                   (scc : SimilarComponentCollector) : SimilarComponentCollector :=
                 match todo with
                 | [] => scc
                 | ci :: rest =>
                     children_loop rest
                       (if group_is_similar q (group_of ci)
                        then push_group (group_of ci) scc
                        else collectSimilarIn ci scc)
                 end) children scc in
            collect_meshes q meshes scc
      end
  end.

(** *** Facts *)

Lemma Hierarchy_ind (P : Hierarchy -> Prop) :
  (forall g children meshes, Forall P children -> P (Node g children meshes)) ->
  forall h, P h.
Proof.
  intros H. fix IH 1. intros [g children meshes]. apply H.
  induction children as [|c rest IHrest]; constructor; [apply IH | exact IHrest].
Qed.

(** The loop of [collectSimilarIn] over the children of a group. *)
Fixpoint children_loop (q : Query) (todo : list Hierarchy)
         (scc : SimilarComponentCollector) : SimilarComponentCollector :=
  match todo with
  | [] => scc
  | ci :: rest =>
      children_loop q rest
        (if group_is_similar q (group_of ci)
         then push_group (group_of ci) scc
         else collectSimilarIn ci scc)
  end.

Lemma collectSimilarIn_node (q : Query) (g : MeshGroup) (children : list Hierarchy)
      (meshes : list Mesh) (scc : SimilarComponentCollector) :
  query_of scc = Some q ->
  collectSimilarIn (Node g children meshes) scc
  = if group_is_similar q g then push_group g scc
    else collect_meshes q meshes (children_loop q children scc).
Proof.
  intros Hq. cbn [collectSimilarIn]. rewrite Hq.
  destruct (group_is_similar q g); [reflexivity|]. f_equal.
  clear Hq. revert scc.
  induction children as [|ci rest IH]; intros scc; [reflexivity|].
  cbn [children_loop]. rewrite <- IH. reflexivity.
Qed.

(** Where a group and a mesh lie in a hierarchy: the groups strictly above
    a group, from the root down, and the groups that hold a mesh. *)
Inductive group_at : Hierarchy -> list MeshGroup -> MeshGroup -> Prop :=
| group_root g children meshes : group_at (Node g children meshes) [] g
| group_below g children meshes c above g' :
    In c children -> group_at c above g' ->
    group_at (Node g children meshes) (g :: above) g'.

Inductive mesh_at : Hierarchy -> list MeshGroup -> Mesh -> Prop :=
| mesh_here g children meshes me :
    In me meshes -> mesh_at (Node g children meshes) [g] me
| mesh_below g children meshes c above me :
    In c children -> mesh_at c above me ->
    mesh_at (Node g children meshes) (g :: above) me.

(** A similar group, or a similar mesh, that lies in no similar group. *)
Definition outermost_group (q : Query) (root : Hierarchy) (g : MeshGroup) : Prop :=
  group_is_similar q g = true
  /\ exists above, group_at root above g
                   /\ Forall (fun a => group_is_similar q a = false) above.

Definition outermost_mesh (q : Query) (root : Hierarchy) (me : Mesh) : Prop :=
  mesh_is_similar q me = true
  /\ exists above, mesh_at root above me
                   /\ Forall (fun a => group_is_similar q a = false) above.

Lemma outermost_group_similar_root (q : Query) (g : MeshGroup)
      (children : list Hierarchy) (meshes : list Mesh) (g' : MeshGroup) :
  group_is_similar q g = true ->
  outermost_group q (Node g children meshes) g' <-> g' = g.
Proof.
  intros Hg. split.
  - intros (_ & above & Hat & Hall). inversion Hat; subst; [reflexivity|].
    inversion Hall; subst. congruence.
  - intros ->. split; [exact Hg|]. exists []. split; constructor.
Qed.

Lemma outermost_mesh_similar_root (q : Query) (g : MeshGroup)
      (children : list Hierarchy) (meshes : list Mesh) (me : Mesh) :
  group_is_similar q g = true ->
  ~ outermost_mesh q (Node g children meshes) me.
Proof.
  intros Hg (_ & above & Hat & Hall).
  inversion Hat; subst; inversion Hall; subst; congruence.
Qed.

Lemma outermost_group_other_root (q : Query) (g : MeshGroup)
      (children : list Hierarchy) (meshes : list Mesh) (g' : MeshGroup) :
  group_is_similar q g = false ->
  outermost_group q (Node g children meshes) g'
  <-> exists c, In c children /\ outermost_group q c g'.
Proof.
  intros Hg. split.
  - intros (Hsim & above & Hat & Hall). inversion Hat; subst; [congruence|].
    inversion Hall; subst. exists c. split; [assumption|].
    split; [exact Hsim|]. eauto.
  - intros (c & Hc & Hsim & above & Hat & Hall). split; [exact Hsim|].
    exists (g :: above). split; [econstructor; eassumption|].
    constructor; assumption.
Qed.

Lemma outermost_mesh_other_root (q : Query) (g : MeshGroup)
      (children : list Hierarchy) (meshes : list Mesh) (me : Mesh) :
  group_is_similar q g = false ->
  outermost_mesh q (Node g children meshes) me
  <-> (In me meshes /\ mesh_is_similar q me = true)
      \/ exists c, In c children /\ outermost_mesh q c me.
Proof.
  intros Hg. split.
  - intros (Hsim & above & Hat & Hall). inversion Hat; subst.
    + left. split; assumption.
    + inversion Hall; subst. right. exists c. split; [assumption|].
      split; [exact Hsim|]. eauto.
  - intros [[Hin Hsim] | (c & Hc & Hsim & above & Hat & Hall)].
    + split; [exact Hsim|]. exists [g]. split; [constructor; exact Hin|].
      constructor; [exact Hg | constructor].
    + split; [exact Hsim|]. exists (g :: above).
      split; [econstructor; eassumption|]. constructor; assumption.
Qed.

Lemma collect_meshes_spec (q : Query) (meshes : list Mesh)
      (scc : SimilarComponentCollector) :
  let r := collect_meshes q meshes scc in
  query_mesh r = query_mesh scc
  /\ query_group r = query_group scc
  /\ similar_groups r = similar_groups scc
  /\ forall me, In me (similar_meshes r)
                <-> In me (similar_meshes scc)
                    \/ (In me meshes /\ mesh_is_similar q me = true).
Proof.
  unfold collect_meshes. revert scc.
  induction meshes as [|mi rest IH]; intros scc; cbn [fold_left]; cbv zeta.
  - repeat (split; [reflexivity|]). intros me. simpl. tauto.
  - match goal with
    | |- context [fold_left _ rest ?x] => destruct (IH x) as (Hqm & Hqg & Hg & Hm)
    end.
    rewrite Hqm, Hqg, Hg. destruct (mesh_is_similar q mi) eqn:Hsim.
    + repeat (split; [reflexivity|]). intros me. rewrite Hm.
      cbn [push_mesh similar_meshes In]. rewrite in_app_iff. simpl.
      split.
      * intros [[H | [<- | []]] | [H1 H2]]; auto.
      * intros [H | [[<- | H1] H2]]; auto.
    + repeat (split; [reflexivity|]). intros me. rewrite Hm.
      simpl. split.
      * intros [H | [H1 H2]]; auto.
      * intros [H | [[<- | H1] H2]]; auto. congruence.
Qed.

(** What a walk adds to a collector whose query is [q]. *)
Definition collects (q : Query) (root : Hierarchy)
           (scc r : SimilarComponentCollector) : Prop :=
  query_mesh r = query_mesh scc
  /\ query_group r = query_group scc
  /\ (forall g, In g (similar_groups r)
                <-> In g (similar_groups scc) \/ outermost_group q root g)
  /\ (forall me, In me (similar_meshes r)
                 <-> In me (similar_meshes scc) \/ outermost_mesh q root me).

Lemma query_of_same (scc r : SimilarComponentCollector) :
  query_mesh r = query_mesh scc -> query_group r = query_group scc ->
  query_of r = query_of scc.
Proof. unfold query_of. now intros -> ->. Qed.

Lemma collectSimilarIn_collects (q : Query) (root : Hierarchy) :
  forall scc, query_of scc = Some q ->
              collects q root scc (collectSimilarIn root scc).
Proof.
  induction root as [g children meshes IH] using Hierarchy_ind.
  intros scc Hq. rewrite (@collectSimilarIn_node q g children meshes scc Hq).
  destruct (group_is_similar q g) eqn:Hg.
  - split; [reflexivity|]. split; [reflexivity|]. split.
    + intros g'. rewrite (@outermost_group_similar_root q g children meshes g' Hg).
      cbn [push_group similar_groups]. rewrite in_app_iff. simpl.
      intuition congruence.
    + intros me. cbn [push_group similar_meshes].
      pose proof (@outermost_mesh_similar_root q g children meshes me Hg).
      tauto.
  - assert (Hloop : forall todo scc1,
               Forall (fun c => forall scc, query_of scc = Some q ->
                                            collects q c scc (collectSimilarIn c scc))
                      todo ->
               query_of scc1 = Some q ->
               let r := children_loop q todo scc1 in
               query_mesh r = query_mesh scc1
               /\ query_group r = query_group scc1
               /\ (forall g', In g' (similar_groups r)
                              <-> In g' (similar_groups scc1)
                                  \/ exists c, In c todo /\ outermost_group q c g')
               /\ (forall me, In me (similar_meshes r)
                              <-> In me (similar_meshes scc1)
                                  \/ exists c, In c todo /\ outermost_mesh q c me)).
    { clear. induction todo as [|ci rest IHrest]; intros scc1 Hall Hq1.
      - cbn. split; [reflexivity|]. split; [reflexivity|].
        split; intros x; split; auto; intros [H | (c & [] & _)]; exact H.
      - inversion Hall as [|? ? Hci Hrest]; subst. cbn [children_loop].
        assert (Hstep : (if group_is_similar q (group_of ci)
                         then push_group (group_of ci) scc1
                         else collectSimilarIn ci scc1)
                        = collectSimilarIn ci scc1).
        { destruct ci as [gi csi msi]. cbn [group_of].
          rewrite (@collectSimilarIn_node q gi csi msi scc1 Hq1).
          now destruct (group_is_similar q gi). }
        rewrite Hstep. destruct (Hci scc1 Hq1) as (Hm & Hg & Hgs & Hms).
        assert (Hq2 : query_of (collectSimilarIn ci scc1) = Some q)
          by (rewrite (@query_of_same _ _ Hm Hg); exact Hq1).
        destruct (IHrest _ Hrest Hq2) as (Hm' & Hg' & Hgs' & Hms').
        cbv zeta. split; [congruence|]. split; [congruence|]. split.
        + intros g'. rewrite Hgs', Hgs. split.
          * intros [[H | H] | (c & Hc & H)]; eauto.
            -- right. exists ci. split; [left; reflexivity | exact H].
            -- right. exists c. split; [right; exact Hc | exact H].
          * intros [H | (c & [<- | Hc] & H)]; eauto.
        + intros me. rewrite Hms', Hms. split.
          * intros [[H | H] | (c & Hc & H)]; eauto.
            -- right. exists ci. split; [left; reflexivity | exact H].
            -- right. exists c. split; [right; exact Hc | exact H].
          * intros [H | (c & [<- | Hc] & H)]; eauto. }
    destruct (Hloop children scc IH Hq) as (Hm & Hgq & Hgs & Hms).
    destruct (collect_meshes_spec q meshes (children_loop q children scc))
      as (Hqm' & Hqg' & Hg' & Hm').
    split; [congruence|]. split; [congruence|]. split.
    + intros g'. rewrite Hg', Hgs.
      rewrite (@outermost_group_other_root q g children meshes g' Hg). tauto.
    + intros me. rewrite Hm', Hms.
      rewrite (@outermost_mesh_other_root q g children meshes me Hg). tauto.
Qed.

(** X28 (ModelInternal::SimilarComponentCollector::collectSimilarIn):
    without a query the walk collects nothing.  With a query, the groups
    it adds are exactly the similar groups of the hierarchy that lie in no
    similar group, and the meshes it adds are exactly the similar meshes
    that lie in no similar group: nothing inside a collected group is
    collected again, and every similar mesh is collected itself or
    through a group that holds it.  The query is not changed. *)
Theorem collectSimilarIn_outermost (root : Hierarchy)
        (scc : SimilarComponentCollector) :
  let r := collectSimilarIn root scc in
  match query_of scc with
  | None => r = scc
  | Some q =>
      query_mesh r = query_mesh scc
      /\ query_group r = query_group scc
      /\ (forall g, In g (similar_groups r)
                    <-> In g (similar_groups scc) \/ outermost_group q root g)
      /\ (forall me, In me (similar_meshes r)
                     <-> In me (similar_meshes scc) \/ outermost_mesh q root me)
      /\ (forall me above,
             mesh_at root above me -> mesh_is_similar q me = true ->
             In me (similar_meshes r)
             \/ exists g, In g above /\ In g (similar_groups r))
  end.
Proof.
  cbv zeta. destruct (query_of scc) as [q|] eqn:Hq.
  - destruct (collectSimilarIn_collects root scc Hq) as (Hm & Hg & Hgs & Hms).
    split; [exact Hm|]. split; [exact Hg|]. split; [exact Hgs|].
    split; [exact Hms|].
    intros me above Hat Hsim.
    assert (Hcover : forall h path,
               mesh_at h path me ->
               outermost_mesh q h me
               \/ exists g, In g path /\ outermost_group q h g).
    { clear - Hsim. intros h path Hat.
      induction Hat as [g children meshes me Hin
                       | g children meshes c above me Hc Hat IH].
      - destruct (group_is_similar q g) eqn:Hgs.
        + right. exists g. split; [left; reflexivity|].
          now apply outermost_group_similar_root.
        + left. apply outermost_mesh_other_root; auto.
      - destruct (group_is_similar q g) eqn:Hgs.
        + right. exists g. split; [left; reflexivity|].
          now apply outermost_group_similar_root.
        + destruct (IH Hsim) as [H | (g' & Hin & H)].
          * left. apply outermost_mesh_other_root; eauto.
          * right. exists g'. split; [right; exact Hin|].
            apply outermost_group_other_root; eauto. }
    destruct (Hcover root above Hat) as [H | (g & Hin & H)].
    + left. apply Hms. right. exact H.
    + right. exists g. split; [exact Hin|]. apply Hgs. right. exact H.
  - destruct root as [g children meshes]. cbn [collectSimilarIn].
    now rewrite Hq.
Qed.

End Collector.

Section Toggle.
Context {Vector3 Ray3 AffineTransform3 Box : Type}
        {MeshGroup PointCloud Mesh MeshVertex Triangle : Type}
        {MO : MeshOps MeshGroup PointCloud Mesh MeshVertex Triangle Vector3}
        {TO : TransformOps AffineTransform3 Vector3 Ray3}
        {BV : BoundingVolume Box}
        {PAT : PrimitiveAdapter Triangle Box}
        {RTT : RayIntersectionTester Triangle Box Ray3}
        {Face Segment : Type}
        {FO : FaceOps Face Mesh Vector3}
        {SO : SegmentOps Segment Mesh}
        {SI : SimilarityOps MeshGroup Mesh}
        {PK : PickOps Segment MeshGroup Mesh}.

Abbreviation Model :=
  (@Browse3D.Model Vector3 AffineTransform3 Box MeshGroup PointCloud Mesh
                   MeshVertex Triangle).
Abbreviation Annotations := (@Annotations.Annotations Vector3 Mesh Segment).
Abbreviation Event := (@Browse3D.Event Vector3 Ray3 AffineTransform3).
Abbreviation Effect := (@Annotations.Effect Vector3).

Variable max_elems_per_leaf : nat.
Variable default_max_time : Real.

(** The children and meshes below a mesh group. *)
Variable hierarchy : MeshGroup -> Hierarchy MeshGroup Mesh.

(** What a call leaves: the value returned, the model with the calls on
    its trees, and the other fields with what was logged and posted. *)
Record Toggled : Type := mkToggled {
  returned : Real;
  model : Model;
  calls : list Event;
  notes : Annotations;
  effects : list Effect
}.

(** The loops of [togglePickMesh] over the similar meshes and groups. *)
Definition toggle_meshes (add : bool) (similar : list Mesh) (seg : Segment) : Segment :=
  fold_left (fun seg me => if add then addMesh (Some me) seg
                           else removeMesh me None seg)
            similar seg.

Definition toggle_groups (add : bool) (similar : list MeshGroup) (seg : Segment)
  : Segment :=
  fold_left (fun seg g => if add then addMeshGroup g seg else removeMeshGroup g seg)
            similar seg.

(** [None]: the call has no defined behaviour (an element index outside
    the tree, a null mesh group dereferenced). *)
Definition togglePickMesh (ray : Ray3) (extend_to_similar : bool)
           (m : Model) (s : Annotations) : option Toggled :=
  match rayIntersection max_elems_per_leaf ray default_max_time m with
  | Failed _ => None
  | Done isec m1 log1 =>
      if isValid isec then
        match nth_error (kd_elems (kdtree m1)) (Z.to_nat (getElementIndex isec)) with
        | None => None
        | Some triple =>
            let mesh := getMesh triple in
            match getSegment mesh s with
            | Some (_, existing) =>
                Some (mkToggled (-1) m1 log1 s
                        [Log WARNING
                             [Text "Cannot pick mesh, it is already in another segment with label '";
                              Text (getLabel existing); Text "'"]])
            | None =>
                let depth := segment_depth_promotion s in
                let add := negb (hasMesh (picked_segment s) mesh depth) in
                let picked1 :=
                  if add then addMesh (Some mesh) (picked_segment s)
                  else removeMesh mesh (Some depth) (picked_segment s) in
                let told :=
                  if add
                  then Log CONSOLE [Text "Added mesh '"; Text (mesh_getName mesh);
                                    Text "' to picked segment"]
                  else Log CONSOLE [Text "Removed mesh '"; Text (mesh_getName mesh);
                                    Text "' from picked segment"] in
                let finish (picked2 : Segment) : option Toggled :=
                  Some (mkToggled (getTime isec) m1 log1
                                  (set_picked_segment picked2 s)
                                  [told; Post EVT_MODEL_NEEDS_REDRAW]) in
                if extend_to_similar then
                  match mesh_group m1 with
                  | None => None
                  | Some root =>
                      let scc :=
                        if (depth <=? 0)%Z
                        then setQuery_mesh (Some mesh) new_collector
                        else setQuery_group (getAncestor mesh depth) new_collector in
                      let scc := collectSimilarIn (hierarchy root) scc in
                      finish (toggle_groups add (similar_groups scc)
                                (toggle_meshes add (similar_meshes scc) picked1))
                  end
                else finish picked1
            end
        end
      else Some (mkToggled (getTime isec) m1 log1 s [])
  end.

(** *** Facts *)

(** Nothing but the picked segment differs. *)
Definition same_but_picked (s s' : Annotations) : Prop :=
  s' = set_picked_segment (picked_segment s') s.

(** X29 (Model::togglePickMesh): a defined call changes nothing of the
    model but the face tree, which it brings up to date, and nothing of
    the other fields but the picked segment.  When the ray misses, the
    time of the invalid intersection is returned and nothing is changed,
    logged or posted.  When the mesh hit is already in a segment, -1 is
    returned, although the ray hit, after a warning that names that
    segment, and nothing is changed or posted.  Otherwise the hit time is
    returned and a redraw is asked for last; without extension the mesh
    is removed from the picked segment when it has it at the current
    depth promotion and added when not. *)
Theorem togglePickMesh_outcomes (ray : Ray3) (extend_to_similar : bool)
        (m : Model) (s : Annotations) :
  let m1 := face_updated max_elems_per_leaf m in
  let isec := KDTreeN.rayStructureIntersection (kdtree m1) ray default_max_time in
  forall r, togglePickMesh ray extend_to_similar m s = Some r ->
    model r = m1
    /\ same_but_picked s (notes r)
    /\ if isValid isec then
         exists triple,
           nth_error (kd_elems (kdtree m1)) (Z.to_nat (getElementIndex isec))
           = Some triple
           /\ match getSegment (getMesh triple) s with
              | Some (_, existing) =>
                  returned r = -1
                  /\ notes r = s
                  /\ effects r
                     = [Log WARNING
                            [Text "Cannot pick mesh, it is already in another segment with label '";
                             Text (getLabel existing); Text "'"]]
              | None =>
                  returned r = getTime isec
                  /\ (exists told, effects r = [told; Post EVT_MODEL_NEEDS_REDRAW])
                  /\ (extend_to_similar = false ->
                      picked_segment (notes r)
                      = if hasMesh (picked_segment s) (getMesh triple)
                                   (segment_depth_promotion s)
                        then removeMesh (getMesh triple)
                                        (Some (segment_depth_promotion s))
                                        (picked_segment s)
                        else addMesh (Some (getMesh triple)) (picked_segment s))
              end
       else returned r = getTime isec /\ notes r = s /\ effects r = [].
Proof.
  intros m1 isec r. unfold togglePickMesh.
  destruct (rayIntersection_run max_elems_per_leaf m ray default_max_time)
    as (pre & Hrun & _).
  rewrite Hrun. fold m1. fold isec.
  assert (Hsame : forall seg, same_but_picked s (set_picked_segment seg s))
    by (intros seg; destruct s; reflexivity).
  assert (Hrefl : same_but_picked s s) by (destruct s; reflexivity).
  destruct (isValid isec).
  - destruct (nth_error (kd_elems (kdtree m1)) (Z.to_nat (getElementIndex isec)))
      as [triple|]; [|discriminate].
    destruct (getSegment (getMesh triple) s) as [[k existing]|] eqn:Hseg.
    + intros E. injection E as <-. cbn.
      split; [reflexivity|]. split; [exact Hrefl|].
      exists triple. split; [reflexivity|]. rewrite Hseg. auto.
    + destruct extend_to_similar.
      * destruct (mesh_group m1) as [root|]; [|discriminate].
        intros E. injection E as <-. cbn.
        split; [reflexivity|]. split; [apply Hsame|].
        exists triple. split; [reflexivity|]. rewrite Hseg.
        split; [reflexivity|]. split; [eexists; reflexivity | discriminate].
      * intros E. injection E as <-. cbn.
        split; [reflexivity|]. split; [apply Hsame|].
        exists triple. split; [reflexivity|]. rewrite Hseg.
        split; [reflexivity|]. split; [eexists; reflexivity|].
        intros _. now destruct (hasMesh (picked_segment s) (getMesh triple)
                                        (segment_depth_promotion s)).
  - intros E. injection E as <-. cbn. auto.
Qed.

End Toggle.
End PickedSegments.

(** ** Picking a segment on the x-axis *)

Module PickedSegmentChecks.
Import KDTreeN Browse3D ModelFacts Diagnostics Annotations PickedSegments.
Import Line LineChecks AnnotationChecks.

(** Groups and meshes named by numbers; the even ones are similar to any
    query. *)
#[export] Instance even_is_similar : SimilarityOps nat nat :=
  {| group_isSimilarTo_group := fun g _ => Nat.even g;
     group_isSimilarTo_mesh := fun g _ => Nat.even g;
     mesh_isSimilarTo_group := fun me _ => Nat.even me;
     mesh_isSimilarTo_mesh := fun me _ => Nat.even me;
     getAncestor := fun _ _ => None |}.

(** Group 1 holds group 2 (with group 4 and mesh 6 inside), group 3 (with
    the meshes 8 and 9) and the meshes 10 and 11. *)
Definition nested : PickedSegments.Hierarchy nat nat :=
  Node 1%nat
       [Node 2%nat [Node 4%nat [] []] [6%nat];
        Node 3%nat [] [8%nat; 9%nat]]
       [10%nat; 11%nat].

Example collectSimilarIn_nested :
  collectSimilarIn nested (setQuery_mesh (Some 0%nat) new_collector)
  = mkCollector (Some 0%nat) None [8%nat; 10%nat] [2%nat].
Proof. reflexivity. Qed.

#[export] Instance line_similarity : SimilarityOps MeshGroup Mesh :=
  {| group_isSimilarTo_group := fun _ _ => false;
     group_isSimilarTo_mesh := fun _ _ => false;
     mesh_isSimilarTo_group := fun _ _ => true;
     mesh_isSimilarTo_mesh := fun _ _ => true;
     getAncestor := fun _ _ => None |}.

#[export] Instance line_picks : PickOps Picked MeshGroup Mesh :=
  {| removeMesh := fun _ _ seg => mkPicked (p_label seg) [] (p_depth seg);
     addMeshGroup := fun _ seg => seg;
     removeMeshGroup := fun _ seg => seg |}.

(** A group without children that holds the one mesh. *)
Definition hierarchy (g : MeshGroup) : PickedSegments.Hierarchy MeshGroup Mesh :=
  Node g [] [tt].

Lemma togglePickMesh_witness :
  exists r,
    togglePickMesh leaf no_limit hierarchy (mkRay 1 true) false queried no_notes
    = Some r
    /\ returned r = 9
    /\ picked_segment (notes r) = mkPicked "" [Some tt] (-1).
Proof.
  destruct (togglePickMesh leaf no_limit hierarchy (mkRay 1 true) false queried
                           no_notes) as [r|] eqn:E; [|vm_compute in E; discriminate].
  exists r. split; [reflexivity|].
  pose proof (@togglePickMesh_outcomes
                Vector3 Ray3 AffineTransform3 Box MeshGroup PointCloud Mesh
                MeshVertex Triangle line_meshes line_transform line_volume
                triangle_adapter triangle_ray_tester Corners Picked line_faces
                line_segments line_similarity line_picks leaf no_limit hierarchy
                (mkRay 1 true) false queried no_notes r E) as H.
  cbv zeta in H. destruct H as (_ & _ & H).
  assert (Hisec : KDTreeN.rayStructureIntersection
                    (kdtree (face_updated leaf queried)) (mkRay 1 true) no_limit
                  = mkRayStructureIntersection3 true 9 0) by reflexivity.
  rewrite Hisec in H. cbn [isValid getTime getElementIndex] in H.
  destruct H as (triple & _ & H).
  change (getSegment (getMesh triple) no_notes) with (@None (Z * Picked)) in H.
  destruct H as (Ht & _ & Hpicked). split; [exact Ht|].
  rewrite (Hpicked eq_refl). reflexivity.
Defined.

End PickedSegmentChecks.
